(** * vitex: monochrome text rendering (src/backends/freetype.py)

    A shallow embedding of the FreeType backend of vitex: the [Bitmap]
    pixel buffer with its OR-[bitblt], the [Glyph] metrics and the
    unpacking of packed monochrome bitmaps, and the [Font] class with its
    memoised glyph and kerning lookups, [text_dimensions] and
    [render_text].

    Python integers are unbounded and are modelled by [Z]; [//] is floor
    division, which is [Z.div] for a positive divisor.  A numpy boolean
    array is a [list bool].  Exceptions are modelled by [outcome].
    Memory is not modelled: no allocation fails for want of memory. *)

From Stdlib Require Import ZArith Lia Bool Ascii.
From stdpp Require Import base tactics option list numbers.

Local Open Scope Z_scope.

(** ** Exceptions *)

Inductive Error : Type :=
| ValueError       (* numpy: a dimension that is negative or beyond the index
                      range, operands not broadcastable *)
| IndexError       (* list or bytearray index out of range *)
| AssertionError.  (* a failed [assert] *)

Inductive outcome (A : Type) : Type :=
| Ok (a : A)
| Raise (e : Error).
Arguments Ok {A} a.
Arguments Raise {A} e.

(** ** The part of numpy and of Python's sequence protocol the code uses *)

Module np.

(** The largest array dimension, [2 ** 63 - 1]: the range of numpy's
    index type [intp] on a 64-bit platform. *)
Definition intp_max : Z := 9223372036854775807.

(** [np.zeros(n, dtype='bool')]: raises [ValueError] on a negative size
    ("negative dimensions are not allowed") and on a size beyond the
    index range ("Maximum allowed dimension exceeded").  Memory is not
    modelled: an array whose size is in the index range is allocated. *)
Definition zeros (n : Z) : outcome (list bool) :=
  if n <? 0 then Raise ValueError
  else if intp_max <? n then Raise ValueError
  else Ok (replicate (Z.to_nat n) false).

(** One bound of a slice [a[start:stop]] on a sequence of length [len]:
    a negative bound counts from the end, and the result is clipped to
    [0 .. len]. *)
Definition adjust_index (i len : Z) : Z :=
  if i <? 0 then (if i + len <? 0 then 0 else i + len)
  else if len <=? i then len else i.

Definition slice_start {A} (a : list A) (start : Z) : nat :=
  Z.to_nat (adjust_index start (Z.of_nat (length a))).

Definition slice_len {A} (a : list A) (start stop : Z) : nat :=
  let len := Z.of_nat (length a) in
  Z.to_nat (adjust_index stop len - adjust_index start len).

(** [a[start:stop]] *)
Definition getslice {A} (a : list A) (start stop : Z) : list A :=
  take (slice_len a start stop) (drop (slice_start a start) a).

(** [a[start:stop] |= rhs] on boolean arrays.  The view and [rhs] must
    have the same length, or [rhs] has length one and is broadcast over
    the view; any other combination of shapes raises [ValueError]. *)
Definition ior_slice (a : list bool) (start stop : Z) (rhs : list bool)
  : outcome (list bool) :=
  let s := slice_start a start in
  let view := getslice a start stop in
  if decide (length view = length rhs) then
    Ok (take s a ++ zip_with orb view rhs ++ drop (s + length view) a)
  else
    match rhs with
    | [r] => Ok (take s a ++ map (fun b => b || r) view
                        ++ drop (s + length view) a)
    | _ => Raise ValueError
    end.

End np.

(** ** class Bitmap *)

Module Bitmap.

Record t : Type := mk {
  width : Z;
  height : Z;
  pixels : list bool
}.

(** [Bitmap.__init__(self, width, height, pixels=None)] *)
Definition init (width height : Z) (pixels : option (list bool))
  : outcome t :=
  match pixels with
  | Some p => Ok (mk width height p)
  | None =>
      match np.zeros (width * height) with
      | Ok z => Ok (mk width height z)
      | Raise e => Raise e
      end
  end.

(** [self.pixels[y * self.width + x]], as [__repr__] reads a pixel. *)
Definition pixel (b : t) (x y : Z) : option bool :=
  if y * width b + x <? 0 then None
  else pixels b !! Z.to_nat (y * width b + x).

(** The body of the loop [for sy in range(src.height)] of [bitblt], run
    [n] times.  The destination pixels are mutated in place: when a row
    raises, the rows before it stay blitted. *)
Fixpoint bitblt_rows (n : nat) (dst src : list bool)
    (srcw row_offset srcpixel dstpixel : Z) : list bool * option Error :=
  match n with
  | O => (dst, None)
  | S n' =>
      match np.ior_slice dst dstpixel (dstpixel + srcw)
              (np.getslice src srcpixel (srcpixel + srcw)) with
      | Raise e => (dst, Some e)
      | Ok dst' =>
          bitblt_rows n' dst' src srcw row_offset
            (srcpixel + srcw) (dstpixel + (row_offset + srcw))
      end
  end.

(** [Bitmap.bitblt(self, src, x, y)], for a [src] that is not [self].
    Returns the mutated [self] and the exception raised, if any. *)
Definition bitblt (self src : t) (x y : Z) : t * option Error :=
  let srcpixel := 0 in
  let dstpixel := y * width self + x in
  let srcw := width src in
  let row_offset := width self - srcw in
  let '(px, e) := bitblt_rows (Z.to_nat (height src)) (pixels self)
                    (pixels src) srcw row_offset srcpixel dstpixel in
  (mk (width self) (height self) px, e).

End Bitmap.

(** [outcome] is the exception monad the straight-line code runs in. *)
#[global] Instance outcome_ret : MRet outcome := @Ok.
#[global] Instance outcome_bind : MBind outcome :=
  fun A B f o => match o with Ok a => f a | Raise e => Raise e end.

(** ** Python sequences: indexing, [range], [bytearray] *)

Module py.

(** The position [seq[i]] denotes in a sequence of length [len]: a
    negative index counts from the end; out of range is [None]. *)
Definition position (len i : Z) : option nat :=
  if (0 <=? i) && (i <? len) then Some (Z.to_nat i)
  else if (- len <=? i) && (i <? 0) then Some (Z.to_nat (i + len))
  else None.

(** [seq[i]] *)
Definition getitem {A} (l : list A) (i : Z) : outcome A :=
  match position (Z.of_nat (length l)) i with
  | Some n => match l !! n with Some v => Ok v | None => Raise IndexError end
  | None => Raise IndexError
  end.

(** [seq[i] = v] *)
Definition setitem {A} (l : list A) (i : Z) (v : A) : outcome (list A) :=
  match position (Z.of_nat (length l)) i with
  | Some n => Ok (<[n := v]> l)
  | None => Raise IndexError
  end.

(** [range(n)]: empty when [n <= 0]. *)
Definition range (n : Z) : list Z := seqZ 0 n.

(** [bytearray(n)]: [n] zero bytes; a negative count raises. *)
Definition bytearray (n : Z) : outcome (list Z) :=
  if n <? 0 then Raise ValueError
  else Ok (replicate (Z.to_nat n) 0).

(** [for a in l: s = body(a, s)], stopping at the first exception. *)
Fixpoint for_each {A S} (l : list A) (body : A -> S -> outcome S) (s : S)
  : outcome S :=
  match l with
  | [] => Ok s
  | a :: l' => s' ← body a s; for_each l' body s'
  end.

End py.

(** ** The FreeType objects the backend reads

    These belong to the freetype library, not to vitex: a glyph slot with
    its packed bitmap, and a face answering the two queries the backend
    makes.  A character is a one-character [str], modelled by its code
    point. *)

Definition char : Type := N.

Module FT.

Record Bitmap : Type := mkBitmap {
  rows : Z;
  width : Z;
  pitch : Z;
  buffer : list Z          (* [rows * pitch] bytes, each in 0..255 *)
}.

Record GlyphSlot : Type := mkGlyphSlot {
  bitmap : Bitmap;
  bitmap_top : Z;
  advance_x : Z            (* [slot.advance.x], 26.6 fixed point *)
}.

(** [face.load_char(char, FT_LOAD_RENDER | FT_LOAD_TARGET_MONO)] leaves
    its result in [face.glyph]; [face.get_kerning(left, right).x].  Both
    are deterministic for a face of a fixed pixel size. *)
Record Face : Type := mkFace {
  load_char : char -> GlyphSlot;
  get_kerning : option char -> char -> Z
}.

End FT.

(** ** class Glyph *)

Module Glyph.

Record t : Type := mk {
  bitmap : Bitmap.t;
  width : Z;
  height : Z;
  top : Z;
  descent : Z;
  ascent : Z;
  advance_width : Z
}.

(** [Glyph.__init__(self, pixels, width, height, top, advance_width)] *)
Definition init (pixels : list bool) (width height top advance_width : Z)
  : outcome t :=
  bitmap ← Bitmap.init width height (Some pixels);
  let width := Bitmap.width bitmap in
  let height := Bitmap.height bitmap in
  let descent := Z.max 0 (height - top) in
  let ascent := Z.max 0 (Z.max top height - descent) in
  mret (mk bitmap width height top descent ascent advance_width).

(** The innermost loop of [unpack_mono_bitmap]: the bits of one packed
    byte that still belong to the row. *)
Definition unpack_byte (bitmap : FT.Bitmap) (y byte_index byte_value : Z)
    (data : list Z) : outcome (list Z) :=
  let num_bits_done := byte_index * 8 in
  let rowstart := y * FT.width bitmap + byte_index * 8 in
  py.for_each (py.range (Z.min 8 (FT.width bitmap - num_bits_done)))
    (fun bit_index data =>
       let bit := Z.land byte_value (Z.shiftl 1 (7 - bit_index)) in
       py.setitem data (rowstart + bit_index) (if bit =? 0 then 0 else 1))
    data.

Definition unpack_row (bitmap : FT.Bitmap) (y : Z) (data : list Z)
  : outcome (list Z) :=
  py.for_each (py.range (FT.pitch bitmap))
    (fun byte_index data =>
       byte_value ← py.getitem (FT.buffer bitmap)
                      (y * FT.pitch bitmap + byte_index);
       unpack_byte bitmap y byte_index byte_value data)
    data.

(** [Glyph.unpack_mono_bitmap(bitmap)]; the last step is
    [np.array(data, dtype='bool')]. *)
Definition unpack_mono_bitmap (bitmap : FT.Bitmap) : outcome (list bool) :=
  data ← py.bytearray (FT.rows bitmap * FT.width bitmap);
  data ← py.for_each (py.range (FT.rows bitmap)) (unpack_row bitmap) data;
  mret (map (fun b => negb (b =? 0)) data).

(** [Glyph.from_glyphslot(slot)] *)
Definition from_glyphslot (slot : FT.GlyphSlot) : outcome t :=
  pixels ← unpack_mono_bitmap (FT.bitmap slot);
  let width := FT.width (FT.bitmap slot) in
  let height := FT.rows (FT.bitmap slot) in
  let top := FT.bitmap_top slot in
  let advance_width := FT.advance_x slot / 64 in
  init pixels width height top advance_width.

End Glyph.

(** ** functools.lru_cache

    The decorator is used bare ([@lru_cache]), which is
    [lru_cache(maxsize=128, typed=False)].  The cache is a list of
    key/result pairs, most recently used first. *)

Module lru.

Definition maxsize : nat := 128.

Section cache.
Context {K V : Type} `{EqDecision K}.

Definition cache : Type := list (K * V).

Fixpoint get (c : cache) (k : K) : option V :=
  match c with
  | [] => None
  | (k', v) :: c' => if decide (k' = k) then Some v else get c' k
  end.

Fixpoint remove (k : K) (c : cache) : cache :=
  match c with
  | [] => []
  | (k', v) :: c' =>
      if decide (k' = k) then remove k c' else (k', v) :: remove k c'
  end.

(** A hit moves the entry to the most recently used position. *)
Definition hit (k : K) (v : V) (c : cache) : cache :=
  (k, v) :: remove k c.

(** After a miss the result is stored unless the key appeared in the
    meantime; when the cache is full the least recently used entry is
    dropped. *)
Definition store (k : K) (v : V) (c : cache) : cache :=
  match get c k with
  | Some _ => c
  | None => take maxsize ((k, v) :: c)
  end.

Definition keys (c : cache) : list K := map fst c.

End cache.

End lru.

(** ** class Font *)

Module Font.

(** A [Font] object is known by its identity; the caches of the
    decorated methods belong to the class, are shared by all its
    instances, and are keyed by the whole argument tuple, [self]
    included. *)
Definition obj : Type := nat.

Definition glyph_key : Type := obj * char.
Definition kerning_key : Type := obj * option char * char.

(** The mutable state the methods of [Font] act on: the four caches and,
    to observe the calls into FreeType, the list of queries made to the
    faces (newest first). *)
Record World : Type := mkWorld {
  glyph_cache : list (glyph_key * Glyph.t);
  kerning_cache : list (kerning_key * Z);
  max_cache : list ((Z * Z) * Z);
  min_cache : list ((Z * Z) * Z);
  load_char_calls : list glyph_key;
  get_kerning_calls : list kerning_key
}.

Definition empty : World := mkWorld [] [] [] [] [] [].

Definition set_glyph_cache c (w : World) : World :=
  mkWorld c (kerning_cache w) (max_cache w) (min_cache w)
          (load_char_calls w) (get_kerning_calls w).
Definition set_kerning_cache c (w : World) : World :=
  mkWorld (glyph_cache w) c (max_cache w) (min_cache w)
          (load_char_calls w) (get_kerning_calls w).
Definition set_max_cache c (w : World) : World :=
  mkWorld (glyph_cache w) (kerning_cache w) c (min_cache w)
          (load_char_calls w) (get_kerning_calls w).
Definition set_min_cache c (w : World) : World :=
  mkWorld (glyph_cache w) (kerning_cache w) (max_cache w) c
          (load_char_calls w) (get_kerning_calls w).
Definition log_load_char k (w : World) : World :=
  mkWorld (glyph_cache w) (kerning_cache w) (max_cache w) (min_cache w)
          (k :: load_char_calls w) (get_kerning_calls w).
Definition log_get_kerning k (w : World) : World :=
  mkWorld (glyph_cache w) (kerning_cache w) (max_cache w) (min_cache w)
          (load_char_calls w) (k :: get_kerning_calls w).

(** State and exceptions. *)
Definition M (A : Type) : Type := World -> outcome A * World.

#[global] Instance M_ret : MRet M := fun A a w => (Ok a, w).
#[global] Instance M_bind : MBind M :=
  fun A B f m w =>
    match m w with
    | (Ok a, w') => f a w'
    | (Raise e, w') => (Raise e, w')
    end.

Definition raise {A} (e : Error) : M A := fun w => (Raise e, w).
Definition lift {A} (o : outcome A) : M A := fun w => (o, w).

(** The wrapper [lru_cache] puts around a function: look the key up; on
    a hit return the stored result; on a miss call the function and
    store its result.  A call that raises stores nothing. *)
Definition cached {K V} `{EqDecision K}
    (read : World -> list (K * V))
    (write : list (K * V) -> World -> World)
    (f : K -> M V) (k : K) : M V :=
  fun w =>
    match lru.get (read w) k with
    | Some v => (Ok v, write (lru.hit k v (read w)) w)
    | None =>
        match f k w with
        | (Ok v, w') => (Ok v, write (lru.store k v (read w')) w')
        | (Raise e, w') => (Raise e, w')
        end
    end.

Section methods.

(** The FreeType face each [Font] object holds in [self.face]. *)
Variable faces : obj -> FT.Face.

(** The undecorated body of [glyph_for_character]. *)
Definition glyph_for_character_body (k : glyph_key) : M Glyph.t :=
  let '(self, char) := k in
  fun w =>
    let slot := FT.load_char (faces self) char in
    (Glyph.from_glyphslot slot, log_load_char (self, char) w).

(** [Font.glyph_for_character(self, char)] *)
Definition glyph_for_character (self : obj) (char : char) : M Glyph.t :=
  cached glyph_cache set_glyph_cache glyph_for_character_body
         (self, char).

(** The undecorated body of [kerning_offset]. *)
Definition kerning_offset_body (k : kerning_key) : M Z :=
  let '(self, previous_char, char) := k in
  fun w =>
    let kerning := FT.get_kerning (faces self) previous_char char in
    (Ok (kerning / 64), log_get_kerning (self, previous_char, char) w).

(** [Font.kerning_offset(self, previous_char, char)] *)
Definition kerning_offset (self : obj) (previous_char : option char)
    (char : char) : M Z :=
  cached kerning_cache set_kerning_cache kerning_offset_body
         (self, previous_char, char).

(** [Font._max(a, b)] and [Font._min(a, b)], static and memoised. *)
Definition _max (a b : Z) : M Z :=
  cached max_cache set_max_cache (fun '(a, b) => mret (Z.max a b)) (a, b).
Definition _min (a b : Z) : M Z :=
  cached min_cache set_min_cache (fun '(a, b) => mret (Z.min a b)) (a, b).

(** The loop of [text_dimensions] over [zip(text, glyphs)]; it returns
    the final [width], [max_ascent] and [max_descent]. *)
Fixpoint text_dimensions_loop (self : obj)
    (pairs : list (char * Glyph.t))
    (width max_ascent max_descent : Z) (previous_char : option char)
  : M (Z * Z * Z) :=
  match pairs with
  | [] => mret (width, max_ascent, max_descent)
  | (char, glyph) :: rest =>
      kerning_x ← kerning_offset self previous_char char;
      max_ascent ← _max max_ascent (Glyph.ascent glyph);
      max_descent ← _max max_descent (Glyph.descent glyph);
      w ← _max (Glyph.advance_width glyph + kerning_x)
               (Glyph.width glyph + kerning_x);
      text_dimensions_loop self rest (width + w) max_ascent max_descent
                           (Some char)
  end.

(** [Font.text_dimensions(self, text, glyphs)]: returns
    [(width, height, baseline)]. *)
Definition text_dimensions (self : obj) (text : list char)
    (glyphs : list Glyph.t) : M (Z * Z * Z) :=
  if decide (length text = length glyphs) then
    '(width, max_ascent, max_descent) ←
      text_dimensions_loop self (zip text glyphs) 0 0 0 None;
    let height := max_ascent + max_descent in
    mret (width, height, max_descent)
  else raise AssertionError.

(** [[self.glyph_for_character(char) for char in text]] *)
Fixpoint glyphs_of (self : obj) (text : list char) : M (list Glyph.t) :=
  match text with
  | [] => mret []
  | char :: rest =>
      g ← glyph_for_character self char;
      gs ← glyphs_of self rest;
      mret (g :: gs)
  end.

(** The vertical drawing position of a glyph in [render_text]. *)
Definition glyph_y (height : Z) (glyph : Glyph.t) (baseline : Z) : Z :=
  height - Glyph.ascent glyph - baseline.

(** The drawing loop of [render_text]. *)
Fixpoint render_loop (self : obj) (pairs : list (char * Glyph.t))
    (height baseline : Z) (outbuffer : Bitmap.t) (x : Z)
    (previous_char : option char) : M Bitmap.t :=
  match pairs with
  | [] => mret outbuffer
  | (char, glyph) :: rest =>
      k ← kerning_offset self previous_char char;
      let x := x + k in
      let y := glyph_y height glyph baseline in
      match Bitmap.bitblt outbuffer (Glyph.bitmap glyph) x y with
      | (_, Some e) => raise e
      | (outbuffer, None) =>
          let x := x + Glyph.advance_width glyph in
          render_loop self rest height baseline outbuffer x (Some char)
      end
  end.

(** [Font.render_text(self, text, height=None)] *)
Definition render_text (self : obj) (text : list char)
    (height : option Z) : M Bitmap.t :=
  glyphs ← glyphs_of self text;
  '(width, _height, baseline) ← text_dimensions self text glyphs;
  let height := match height with None => _height | Some h => h end in
  outbuffer ← lift (Bitmap.init width height None);
  render_loop self (zip text glyphs) height baseline outbuffer 0 None.

End methods.

End Font.

(** ** class Renderer *)

Module Renderer.

Record t : Type := mk {
  font : Font.obj;
  max_height : Z
}.

(** [Renderer.__call__(self, sentence)]; [astype(np.uint8)] turns the
    pixels into bytes 0 and 1. *)
Definition call (faces : Font.obj -> FT.Face) (self : t)
    (sentence : list char) : Font.M (Z * Z * list Z) :=
  bitmap ← Font.render_text faces (font self) sentence
             (Some (max_height self));
  mret (Bitmap.width bitmap, Bitmap.height bitmap,
        map (fun b : bool => if b then 1 else 0) (Bitmap.pixels bitmap)).

End Renderer.

(** ** Bitmap.__repr__

    The string is built character by character; it is modelled by the
    list of its characters. *)

(** The inner loop of [__repr__] for row [y], and the newline after it. *)
Definition Bitmap_repr_row (self : Bitmap.t) (y : Z) (rows : list ascii)
  : outcome (list ascii) :=
  rows ← py.for_each (py.range (Bitmap.width self))
            (fun x rows =>
               p ← py.getitem (Bitmap.pixels self)
                     (y * Bitmap.width self + x);
               mret (rows ++ [if p : bool then "#"%char else "."%char]))
            rows;
  mret (rows ++ ["010"%char]).

(** [Bitmap.__repr__(self)] *)
Definition Bitmap_repr (self : Bitmap.t) : outcome (list ascii) :=
  py.for_each (py.range (Bitmap.height self)) (Bitmap_repr_row self) [].

(** ** vitex.py: rendering the lines of a corpus and packing the bitmaps

    The part of [main] that processes one split: every line of the file is
    stripped and rendered, the pixel arrays are collected, and they are
    then copied one after the other into a single boolean array, with the
    slice of each recorded.  [scripts/anim.py] reads a bitmap back as
    [data[slices[i][0]: slices[i][1]]]. *)

Module vitex.

(** Why the processing of a split stops early. *)
Inductive halt : Type :=
| Raised (e : Error)          (* an exception of the renderer *)
| HeightDiffered (line : Z).  (* [RuntimeError('height differed ...')] *)

(** [np.empty(n, dtype='bool')]: [n] booleans with whatever the memory
    holds, here [junk]. *)
Definition empty (junk : nat -> bool) (n : Z) : outcome (list bool) :=
  if n <? 0 then Raise ValueError
  else Ok (map junk (seq 0 (Z.to_nat n))).

(** [data[start:stop] = rhs] for a boolean [data] and a [uint8] array
    [rhs]: the values are cast to booleans; [rhs] must have the length of
    the slice, or length one. *)
Definition setslice (a : list bool) (start stop : Z) (rhs : list Z)
  : outcome (list bool) :=
  let s := np.slice_start a start in
  let n := np.slice_len a start stop in
  if decide (n = length rhs) then
    Ok (take s a ++ map (fun v => negb (v =? 0)) rhs ++ drop (s + n) a)
  else
    match rhs with
    | [r] => Ok (take s a ++ replicate n (negb (r =? 0)) ++ drop (s + n) a)
    | _ => Raise ValueError
    end.

Section split.

Variable faces : Font.obj -> FT.Face.

(** [str.strip], applied to every line read from the file. *)
Variable strip : list char -> list char.

(** The loop over the lines of the file; [idx] counts them from 0. *)
Fixpoint render_lines (renderer : Renderer.t) (max_height : Z)
    (lines : list (list char)) (idx : Z)
    (bitmaps : list (list Z)) (lens : list Z) (w : Font.World)
  : (halt + list (list Z) * list Z) * Font.World :=
  match lines with
  | [] => (inr (bitmaps, lens), w)
  | line :: rest =>
      let line := strip line in
      match Renderer.call faces renderer line w with
      | (Raise e, w') => (inl (Raised e), w')
      | (Ok (width, height, pixels), w') =>
          if decide (height <> max_height)
          then (inl (HeightDiffered (idx + 1)), w')
          else render_lines renderer max_height rest (idx + 1)
                 (bitmaps ++ [pixels]) (lens ++ [height * width]) w'
      end
  end.

End split.

(** The loop that fills [data]. *)
Fixpoint fill (items : list (list Z * Z)) (s : Z) (data : list bool)
    (slices : list (Z * Z)) : outcome (list bool * list (Z * Z)) :=
  match items with
  | [] => Ok (data, slices)
  | (bmp, leng) :: rest =>
      let slices := slices ++ [(s, s + leng)] in
      data ← setslice data s (s + leng) bmp;
      fill rest (s + leng) data slices
  end.

(** From [s = 0] to the arguments of [np.savez_compressed]. *)
Definition pack (junk : nat -> bool) (bitmaps : list (list Z))
    (lens : list Z) : outcome (list bool * list (Z * Z)) :=
  let s := 0 in
  data ← empty junk (foldl Z.add 0 lens);
  fill (zip bitmaps lens) s data [].

End vitex.

(** * Specification-side definitions *)

(** ** What the memoised methods compute, without the caches *)

Section pure.

Variable faces : Font.obj -> FT.Face.

Definition glyph_of (k : Font.glyph_key) : outcome Glyph.t :=
  Glyph.from_glyphslot (FT.load_char (faces k.1) k.2).

Definition kerning_of (k : Font.kerning_key) : outcome Z :=
  Ok (FT.get_kerning (faces k.1.1) k.1.2 k.2 / 64).

Definition max_of (k : Z * Z) : outcome Z := Ok (Z.max k.1 k.2).
Definition min_of (k : Z * Z) : outcome Z := Ok (Z.min k.1 k.2).

(** Every cache entry holds what its method computes for the key. *)
Definition consistent {K V} (f : K -> outcome V) (c : list (K * V)) : Prop :=
  Forall (fun kv => f kv.1 = Ok kv.2) c.

Record wf (w : Font.World) : Prop := mk_wf {
  wf_glyph : consistent glyph_of (Font.glyph_cache w);
  wf_kerning : consistent kerning_of (Font.kerning_cache w);
  wf_max : consistent max_of (Font.max_cache w);
  wf_min : consistent min_of (Font.min_cache w)
}.

(** The kerning offset in pixels of [char] after [previous_char]. *)
Definition kern (self : Font.obj) (previous_char : option char)
    (char : char) : Z :=
  FT.get_kerning (faces self) previous_char char / 64.

End pure.

(** ** Bitmaps as the specification sees them *)

(** The invariant of a pixel buffer: [len(pixels) == width * height]. *)
Definition sized (b : Bitmap.t) : Prop :=
  0 <= Bitmap.width b /\ 0 <= Bitmap.height b /\
  Z.of_nat (length (Bitmap.pixels b)) = Bitmap.width b * Bitmap.height b.

(** The pixelwise OR of a buffer with a mask of the same length. *)
Definition lor (a mask : list bool) : list bool := zip_with orb a mask.

(** ** The packed bitmap format *)

(** Pixel (x, y) of a packed bitmap: bit [7 - x mod 8] of byte
    [y * pitch + x / 8]; [None] when the buffer has no such byte. *)
Definition packed_pixel (bitmap : FT.Bitmap) (x y : Z) : option bool :=
  (fun byte => Z.testbit byte (7 - x mod 8))
    <$> FT.buffer bitmap !! Z.to_nat (y * FT.pitch bitmap + x / 8).

(** The unpacking has reached pixel (x, y): the byte written for it is 1
    or 0 as the packed pixel is on or off. *)
Definition unpacked_at (bitmap : FT.Bitmap) (data : list Z) (x y : Z) : Prop :=
  exists on,
    packed_pixel bitmap x y = Some on /\
    data !! Z.to_nat (y * FT.width bitmap + x)
    = Some (if on then 1 else 0).

(** The state of the output while unpacking: its length never changes,
    and the pixels [done] so far are unpacked. *)
Definition unpacking (bitmap : FT.Bitmap) (done : Z -> Z -> Prop)
    (data : list Z) : Prop :=
  length data = Z.to_nat (FT.rows bitmap * FT.width bitmap) /\
  forall x y,
    0 <= x < FT.width bitmap -> 0 <= y < FT.rows bitmap ->
    done x y -> unpacked_at bitmap data x y.

(** The 8x8 bitmap with every bit set. *)
Definition full_block : FT.Bitmap := FT.mkBitmap 8 8 1 (replicate 8 255).

(** A 10x2 bitmap of pitch 2: six padding bits end each row, all set in
    the first row. *)
Definition padded_bitmap : FT.Bitmap := FT.mkBitmap 2 10 2 [170; 255; 1; 64].

(** A 4x3 canvas with one pixel set and a 2x2 source. *)
Definition canvas_4x3 : Bitmap.t :=
  Bitmap.mk 4 3 [false; false; false; false;
                 false; true;  false; false;
                 false; false; false; false].
Definition stamp_2x2 : Bitmap.t := Bitmap.mk 2 2 [true; false; false; true].

(** ** Sequences of glyph queries *)

(** The state after the glyph queries [qs], made one after the other on
    any [Font] objects. *)
Definition after_queries (faces : Font.obj -> FT.Face)
    (qs : list Font.glyph_key) (w : Font.World) : Font.World :=
  foldl (fun w k => (Font.glyph_for_character faces k.1 k.2 w).2) w qs.

(** The entry of [k], holding [v], is in the cache behind entries whose
    keys are distinct, differ from [k] and have been [seen]. *)
Definition recent {K V} (seen : K -> Prop) (k : K) (v : V)
    (c : list (K * V)) : Prop :=
  exists pre post,
    c = pre ++ (k, v) :: post /\
    NoDup (lru.keys pre) /\
    forall x, x ∈ lru.keys pre -> x <> k /\ seen x.

(** The characters with code points 1 to 128. *)
Definition many_chars : list char := map N.of_nat (seq 1 128).

(** ** Concrete faces and glyphs used in the examples *)

(** A face whose glyphs are 3x2 boxes with advance 10 + 63/64 and whose
    kerning is 0 for a first character and -(1 + 1/64) otherwise. *)
Definition box_slot : FT.GlyphSlot :=
  FT.mkGlyphSlot (FT.mkBitmap 2 3 1 [224; 160]) 2 703.

Definition box_face : FT.Face :=
  FT.mkFace (fun _ => box_slot)
            (fun p _ => match p with None => 0 | Some _ => -65 end).

(** A face that reports a kerning of one pixel for every pair, a missing
    left character included. *)
Definition wide_face : FT.Face :=
  FT.mkFace (fun _ => box_slot) (fun _ _ => 64).

(** ** The layout as the specification words it *)

Section layout.

Variable faces : Font.obj -> FT.Face.
Variable self : Font.obj.

(** The sum, over the character/glyph pairs from left to right, of
    [max(advance_width + k, width + k)], [k] being the kerning offset of
    the character after the previous one. *)
Fixpoint width_sum (previous_char : option char)
    (pairs : list (char * Glyph.t)) : Z :=
  match pairs with
  | [] => 0
  | (c, g) :: rest =>
      let k := kern faces self previous_char c in
      Z.max (Glyph.advance_width g + k) (Glyph.width g + k)
      + width_sum (Some c) rest
  end.

(** The maximum of a metric over the glyphs; 0 for no glyph. *)
Definition max_over (metric : Glyph.t -> Z) (glyphs : list Glyph.t) : Z :=
  foldr (fun g m => Z.max (metric g) m) 0 glyphs.

End layout.

(** The glyph [Glyph.from_glyphslot] builds from [box_slot]. *)
Definition box_glyph : Glyph.t :=
  Glyph.mk (Bitmap.mk 3 2 [true; true; true; true; false; true])
           3 2 2 0 2 10.

(** Two glyphs with the metrics of the "AV" scenario: advances 10 and 8,
    bitmap widths 12 and 10. *)
Definition glyph_A : Glyph.t :=
  Glyph.mk (Bitmap.mk 12 9 (replicate 108 false)) 12 9 9 0 9 10.
Definition glyph_V : Glyph.t :=
  Glyph.mk (Bitmap.mk 10 9 (replicate 90 false)) 10 9 9 0 9 8.

(** ** Glyph slots as FreeType delivers them *)

(** A packed bitmap whose rows fit in [pitch] bytes and whose buffer holds
    all its rows. *)
Definition well_formed (bitmap : FT.Bitmap) : Prop :=
  0 <= FT.width bitmap /\ 0 <= FT.rows bitmap /\ 0 <= FT.pitch bitmap /\
  FT.width bitmap <= FT.pitch bitmap * 8 /\
  FT.rows bitmap * FT.pitch bitmap <= Z.of_nat (length (FT.buffer bitmap)).

(** The canvas [render_text] returns for "AV" with [box_face], at the
    natural height. *)
Definition box_canvas : Bitmap.t :=
  Eval vm_compute in
    match (Font.render_text (fun _ => box_face) 0%nat [65%N; 86%N] None
             Font.empty).1 with
    | Ok b => b
    | Raise _ => Bitmap.mk 0 0 []
    end.

(** A face without kerning. *)
Definition plain_face : FT.Face :=
  FT.mkFace (fun _ => box_slot) (fun _ _ => 0).

(** A face whose kerning is one pixel for a first character and -2
    pixels after another character. *)
Definition lead_face : FT.Face :=
  FT.mkFace (fun _ => box_slot)
            (fun p _ => match p with None => 64 | Some _ => -128 end).

(** ** The printed form of a bitmap *)

(** Row [y] of the bitmap [b] is printed in [s]: one character for each
    pixel, [#] for on and [.] for off, and then a newline. *)
Definition printed_row (b : Bitmap.t) (s : list ascii) (y : Z) : Prop :=
  s !! Z.to_nat (y * (Bitmap.width b + 1) + Bitmap.width b)
  = Some "010"%char /\
  forall x, 0 <= x < Bitmap.width b ->
    exists p,
      Bitmap.pixel b x y = Some p /\
      s !! Z.to_nat (y * (Bitmap.width b + 1) + x)
      = Some (if p then "#"%char else "."%char).

(** ** The packed corpus *)

(** A rendered pixel array as booleans. *)
Definition as_bools (bmp : list Z) : list bool :=
  map (fun v => negb (v =? 0)) bmp.

(** The slices of arrays of the lengths [lens] laid end to end from
    [s]. *)
Fixpoint offsets (s : Z) (lens : list Z) : list (Z * Z) :=
  match lens with
  | [] => []
  | leng :: rest => (s, s + leng) :: offsets (s + leng) rest
  end.

(** ** Texts put together *)

(** The value of [previous_char] after the loops have gone through
    [text]. *)
Definition previous_after (previous_char : option char) (text : list char)
  : option char :=
  foldl (fun _ c => Some c) previous_char text.

(** ** Where the glyphs are drawn *)

(** The horizontal position of each glyph, as the drawing loop of
    [render_text] moves its cursor from [x]. *)
Fixpoint placements (faces : Font.obj -> FT.Face) (self : Font.obj) (x : Z)
    (previous_char : option char) (pairs : list (char * Glyph.t))
  : list (Z * Glyph.t) :=
  match pairs with
  | [] => []
  | (c, g) :: rest =>
      let x := x + kern faces self previous_char c in
      (x, g) :: placements faces self (x + Glyph.advance_width g) (Some c)
                  rest
  end.

(** The glyph [g] drawn at (xg, yg) has a pixel that is on at
    (px, py). *)
Definition shows (xg yg : Z) (g : Glyph.t) (px py : Z) : Prop :=
  xg <= px < xg + Bitmap.width (Glyph.bitmap g) /\
  yg <= py < yg + Bitmap.height (Glyph.bitmap g) /\
  Bitmap.pixel (Glyph.bitmap g) (px - xg) (py - yg) = Some true.

(** The glyphs blitted one after the other at the horizontal positions
    [ps], each at its vertical position [glyph_y], on the same canvas:
    the canvas after the last blit, or the exception of the first blit
    that raises. *)
Fixpoint blit_all (height baseline : Z) (outbuffer : Bitmap.t)
    (ps : list (Z * Glyph.t)) : outcome Bitmap.t :=
  match ps with
  | [] => Ok outbuffer
  | (x, g) :: rest =>
      match Bitmap.bitblt outbuffer (Glyph.bitmap g) x
              (Font.glyph_y height g baseline) with
      | (_, Some e) => Raise e
      | (out, None) => blit_all height baseline out rest
      end
  end.

(** Row [r] of the blit of [src] at (x, y) on [dst] does not fit: the
    slice of the destination that the row is OR-ed into, as numpy clips
    it, and the row read from the source differ in length, and the row is
    not a single pixel, which numpy would broadcast. *)
Definition row_mismatch (dst src : Bitmap.t) (x y r : Z) : Prop :=
  let srcw := Bitmap.width src in
  let dstpixel := (y + r) * Bitmap.width dst + x in
  let srcpixel := r * srcw in
  let view := np.getslice (Bitmap.pixels dst) dstpixel (dstpixel + srcw) in
  let row := np.getslice (Bitmap.pixels src) srcpixel (srcpixel + srcw) in
  length view <> length row /\ length row <> 1%nat.

(** * Properties *)

(** ** Glyph metrics *)

(** C3: every glyph built by [Glyph.__init__] has
    [descent = max(0, height - top)] and
    [ascent = max(0, max(top, height) - descent)], and both are
    non-negative. *)
Theorem glyph_metrics_nonneg :
  forall (pixels : list bool) (width height top advance_width : Z),
  exists g,
    Glyph.init pixels width height top advance_width = Ok g /\
    Glyph.descent g = Z.max 0 (height - top) /\
    Glyph.ascent g = Z.max 0 (Z.max top height - Glyph.descent g) /\
    0 <= Glyph.ascent g /\ 0 <= Glyph.descent g.
Proof.
  intros pixels width height top advance_width.
  eexists; split; [reflexivity|]; cbn.
  repeat split; lia.
Qed.

(** ** Creating a bitmap *)

(** C9 fails as stated: a bitmap of width -1 and height -1 is created
    without an error, with one pixel. *)
Lemma bitmap_init_negative_both :
  Bitmap.init (-1) (-1) None = Ok (Bitmap.mk (-1) (-1) [false]).
Proof. reflexivity. Qed.

(** What [np.zeros] answers for a size in the index range. *)
Lemma zeros_in_range (n : Z) :
  0 <= n <= np.intp_max -> np.zeros n = Ok (replicate (Z.to_nat n) false).
Proof.
  intros H. unfold np.zeros.
  destruct (Z.ltb_spec n 0); [lia|].
  destruct (Z.ltb_spec np.intp_max n); [lia|]. reflexivity.
Qed.

Lemma zeros_out_of_range (n : Z) :
  n < 0 \/ np.intp_max < n -> np.zeros n = Raise ValueError.
Proof.
  intros H. unfold np.zeros.
  destruct (Z.ltb_spec n 0); [reflexivity|].
  destruct (Z.ltb_spec np.intp_max n); [reflexivity|lia].
Qed.

(** When [np.zeros] returns, the size was in the index range. *)
Lemma zeros_inv (n : Z) (z : list bool) :
  np.zeros n = Ok z ->
  0 <= n <= np.intp_max /\ z = replicate (Z.to_nat n) false.
Proof.
  unfold np.zeros.
  destruct (Z.ltb_spec n 0); [discriminate|].
  destruct (Z.ltb_spec np.intp_max n); [discriminate|].
  intros [= <-]. split; [lia|reflexivity].
Qed.

Lemma bitmap_init_in_range (width height : Z) :
  0 <= width * height <= np.intp_max ->
  Bitmap.init width height None
  = Ok (Bitmap.mk width height
          (replicate (Z.to_nat (width * height)) false)).
Proof. intros H. unfold Bitmap.init. now rewrite (zeros_in_range _ H). Qed.

(** C9, amended: creating a bitmap without pixels raises numpy's
    [ValueError] exactly when [width * height] is negative or beyond the
    index range, i.e. greater than [2 ** 63 - 1]; for a product from 0 to
    [2 ** 63 - 1], the buffer has [width * height] pixels, all [false].
    The signs of [width] and [height] are not looked at: two non-negative
    dimensions have a non-negative product, and so have two negative
    ones. *)
Theorem bitmap_init_zero_filled :
  forall width height : Z,
    (width * height < 0 \/ np.intp_max < width * height <->
     Bitmap.init width height None = Raise ValueError) /\
    (0 <= width * height <= np.intp_max ->
     exists px,
       Bitmap.init width height None = Ok (Bitmap.mk width height px) /\
       Z.of_nat (length px) = width * height /\
       Forall (fun p => p = false) px) /\
    (0 <= width -> 0 <= height -> 0 <= width * height) /\
    (width < 0 -> height < 0 -> 0 < width * height).
Proof.
  intros width height; unfold Bitmap.init.
  split; [|split; [|split]].
  - split.
    + intros H. now rewrite (zeros_out_of_range _ H).
    + intros H.
      destruct (Z.ltb_spec (width * height) 0) as [|Hlo]; [now left|].
      destruct (Z.ltb_spec np.intp_max (width * height)) as [|Hhi];
        [now right|].
      rewrite zeros_in_range in H by lia. discriminate.
  - intros H. rewrite (zeros_in_range _ H).
    eexists; split; [reflexivity|]. split.
    + rewrite length_replicate. lia.
    + apply Forall_replicate. reflexivity.
  - lia.
  - nia.
Qed.

Lemma bitmap_init_zero_filled_witness :
  Bitmap.init 2 (-1) None = Raise ValueError /\
  Bitmap.init 4294967296 4294967296 None = Raise ValueError /\
  exists px, Bitmap.init 3 2 None = Ok (Bitmap.mk 3 2 px) /\
             Z.of_nat (length px) = 3 * 2 /\
             Forall (fun p => p = false) px.
Proof.
  split; [|split].
  - apply (bitmap_init_zero_filled 2 (-1)). left. lia.
  - apply (bitmap_init_zero_filled 4294967296 4294967296). right.
    unfold np.intp_max. lia.
  - apply (bitmap_init_zero_filled 3 2). unfold np.intp_max. lia.
Defined.

(** ** The caches do not change what the methods return *)

Lemma bind_run {A B} (m : Font.M A) (f : A -> Font.M B) w a w' :
  m w = (Ok a, w') -> (m ≫= f) w = f a w'.
Proof. intros H. unfold mbind, Font.M_bind. now rewrite H. Qed.

Section cache_facts.
Context {K V : Type} `{EqDecision K}.
Implicit Types (c : list (K * V)) (f : K -> outcome V).

Lemma get_elem_of c k v : lru.get c k = Some v -> (k, v) ∈ c.
Proof.
  induction c as [|[k' v'] c IH]; cbn; [discriminate|].
  destruct (decide (k' = k)) as [->|Hne].
  - intros [= ->]. left.
  - intros H'. right. auto.
Qed.

Lemma consistent_get f c k v :
  consistent f c -> lru.get c k = Some v -> f k = Ok v.
Proof.
  intros Hc Hg. apply get_elem_of in Hg.
  unfold consistent in Hc. rewrite list.Forall_forall in Hc.
  apply (Hc (k, v) Hg).
Qed.

Lemma consistent_remove f k c :
  consistent f c -> consistent f (lru.remove k c).
Proof.
  unfold consistent. induction 1 as [|[k' v'] c Hkv Hc IH]; cbn.
  - constructor.
  - destruct (decide (k' = k)); [assumption|]. now constructor.
Qed.

Lemma consistent_hit f k v c :
  f k = Ok v -> consistent f c -> consistent f (lru.hit k v c).
Proof.
  intros Hf Hc. constructor; [exact Hf|]. now apply consistent_remove.
Qed.

Lemma consistent_store f k v c :
  f k = Ok v -> consistent f c -> consistent f (lru.store k v c).
Proof.
  intros Hf Hc. unfold lru.store. destruct (lru.get c k); [assumption|].
  apply Forall_take. now constructor.
Qed.

End cache_facts.

Section method_facts.

Variable faces : Font.obj -> FT.Face.

Lemma wf_empty : wf faces Font.empty.
Proof. split; constructor. Qed.

Lemma kerning_offset_run self p c w :
  wf faces w ->
  exists w',
    Font.kerning_offset faces self p c w = (Ok (kern faces self p c), w')
    /\ wf faces w'
    /\ (lru.get (Font.kerning_cache w) (self, p, c) = None ->
        Font.get_kerning_calls w'
        = (self, p, c) :: Font.get_kerning_calls w).
Proof.
  intros [Hg Hk Hmx Hmn].
  unfold Font.kerning_offset, Font.cached.
  destruct (lru.get (Font.kerning_cache w) (self, p, c)) as [v|] eqn:E.
  - pose proof (consistent_get _ _ _ _ Hk E) as Hv.
    injection Hv as <-. eexists; split; [reflexivity|]. split.
    + split; cbn; try assumption.
      apply consistent_hit; [reflexivity|assumption].
    + discriminate.
  - cbn. eexists; split; [reflexivity|]. split.
    + split; cbn; try assumption.
      apply consistent_store; [reflexivity|assumption].
    + reflexivity.
Qed.

Lemma max_run a b w :
  wf faces w ->
  exists w',
    Font._max a b w = (Ok (Z.max a b), w') /\ wf faces w'.
Proof.
  intros [Hg Hk Hmx Hmn].
  unfold Font._max, Font.cached.
  destruct (lru.get (Font.max_cache w) (a, b)) as [v|] eqn:E.
  - pose proof (consistent_get _ _ _ _ Hmx E) as Hv.
    injection Hv as <-. eexists; split; [reflexivity|].
    split; cbn; try assumption.
    apply consistent_hit; [reflexivity|assumption].
  - cbn. eexists; split; [reflexivity|].
    split; cbn; try assumption.
    apply consistent_store; [reflexivity|assumption].
Qed.

Lemma glyph_for_character_run self c w :
  wf faces w ->
  exists w',
    Font.glyph_for_character faces self c w
    = (glyph_of faces (self, c), w')
    /\ wf faces w'.
Proof.
  intros [Hg Hk Hmx Hmn].
  unfold Font.glyph_for_character, Font.cached.
  destruct (lru.get (Font.glyph_cache w) (self, c)) as [v|] eqn:E.
  - pose proof (consistent_get _ _ _ _ Hg E) as Hv.
    rewrite Hv. eexists; split; [reflexivity|].
    split; cbn; try assumption.
    apply consistent_hit; assumption.
  - cbn.
    change (glyph_of faces (self, c))
      with (Glyph.from_glyphslot (FT.load_char (faces self) c)).
    destruct (Glyph.from_glyphslot (FT.load_char (faces self) c))
      as [g|e] eqn:Eg.
    + eexists; split; [reflexivity|].
      split; cbn; try assumption.
      apply consistent_store; assumption.
    + eexists; split; [reflexivity|]. split; assumption.
Qed.

End method_facts.

(** ** Fixed-point conversion *)

Lemma from_glyphslot_fields slot g :
  Glyph.from_glyphslot slot = Ok g ->
  Glyph.advance_width g = FT.advance_x slot / 64 /\
  Glyph.width g = FT.width (FT.bitmap slot) /\
  Glyph.height g = FT.rows (FT.bitmap slot) /\
  Glyph.descent g = Z.max 0 (Glyph.height g - FT.bitmap_top slot) /\
  Glyph.ascent g
  = Z.max 0 (Z.max (FT.bitmap_top slot) (Glyph.height g) - Glyph.descent g).
Proof.
  unfold Glyph.from_glyphslot.
  destruct (Glyph.unpack_mono_bitmap (FT.bitmap slot)) as [px|e]; cbn;
    [|discriminate].
  intros [= <-]; cbn. repeat split; reflexivity.
Qed.

Lemma floor_div_64 (u : Z) : 64 * (u / 64) <= u < 64 * (u / 64) + 64.
Proof.
  pose proof (Z.mul_div_le u 64 ltac:(lia)).
  pose proof (Z.mul_succ_div_gt u 64 ltac:(lia)). lia.
Qed.

(** C4: the advance of a glyph and the kerning of a pair, both reported
    in 1/64 pixel, are converted by floor division by 64: the result [q]
    is the integer with [64 q <= units < 64 q + 64], for negative values
    too, so the fraction is dropped towards minus infinity. *)
Theorem fixed_point_floor :
  forall (faces : Font.obj -> FT.Face) (self : Font.obj)
         (previous_char : option char) (c : char) (w : Font.World)
         (slot : FT.GlyphSlot) (g : Glyph.t),
    wf faces w ->
    Glyph.from_glyphslot slot = Ok g ->
    (Glyph.advance_width g = FT.advance_x slot / 64 /\
     64 * Glyph.advance_width g <= FT.advance_x slot
       < 64 * Glyph.advance_width g + 64) /\
    exists k w',
      Font.kerning_offset faces self previous_char c w = (Ok k, w') /\
      k = FT.get_kerning (faces self) previous_char c / 64 /\
      64 * k <= FT.get_kerning (faces self) previous_char c < 64 * k + 64.
Proof.
  intros faces self previous_char c w slot g Hwf Hg. split.
  - apply from_glyphslot_fields in Hg as (-> & _). split; [reflexivity|].
    apply floor_div_64.
  - destruct (kerning_offset_run faces self previous_char c w Hwf)
      as (w' & E & _ & _).
    exists (kern faces self previous_char c), w'.
    split; [exact E|]. split; [reflexivity|]. apply floor_div_64.
Qed.

Lemma fixed_point_floor_witness :
  (Glyph.advance_width box_glyph = 703 / 64 /\
   64 * Glyph.advance_width box_glyph <= 703
     < 64 * Glyph.advance_width box_glyph + 64) /\
  exists k w',
    Font.kerning_offset (fun _ => box_face) 0%nat (Some 65%N) 86%N Font.empty
    = (Ok k, w') /\
    k = -65 / 64 /\ 64 * k <= -65 < 64 * k + 64.
Proof.
  apply (fixed_point_floor (fun _ => box_face) 0%nat (Some 65%N) 86%N
           Font.empty box_slot box_glyph).
  - apply wf_empty.
  - reflexivity.
Defined.

(** ** Kerning of the first character *)

(** C7 fails as stated: for a face that reports a kerning of 64 units for
    a missing left character, the offset of the pair (none, 'A') is 1, and
    the query with the none value has reached the face. *)
Lemma kerning_none_reaches_face :
  let r := Font.kerning_offset (fun _ => wide_face) 0%nat None 65%N
             Font.empty in
  r.1 = Ok 1 /\ Font.get_kerning_calls r.2 = [(0%nat, None, 65%N)].
Proof. split; reflexivity. Qed.

(** C7, amended: the offset of the pair (none, c) is the face's answer for
    (none, c) floor-divided by 64; on a cache miss the none value is passed
    to the face's kerning query; the offset is 0 exactly when the face
    answers a value from 0 to 63. *)
Theorem kerning_offset_none :
  forall (faces : Font.obj -> FT.Face) (self : Font.obj) (c : char)
         (w : Font.World),
    wf faces w ->
    exists k w',
      Font.kerning_offset faces self None c w = (Ok k, w') /\
      k = FT.get_kerning (faces self) None c / 64 /\
      (lru.get (Font.kerning_cache w) (self, None, c) = None ->
       Font.get_kerning_calls w'
       = (self, None, c) :: Font.get_kerning_calls w) /\
      (k = 0 <-> 0 <= FT.get_kerning (faces self) None c < 64).
Proof.
  intros faces self c w Hwf.
  destruct (kerning_offset_run faces self None c w Hwf) as (w' & E & _ & Hlog).
  exists (kern faces self None c), w'.
  split; [exact E|]. split; [reflexivity|]. split; [exact Hlog|].
  unfold kern. pose proof (floor_div_64 (FT.get_kerning (faces self) None c)).
  lia.
Qed.

Lemma kerning_offset_none_witness :
  exists k w',
    Font.kerning_offset (fun _ => box_face) 0%nat None 65%N Font.empty
    = (Ok k, w') /\
    k = 0 / 64 /\
    (lru.get (Font.kerning_cache Font.empty) (0%nat, None, 65%N) = None ->
     Font.get_kerning_calls w' = [(0%nat, None, 65%N)]) /\
    (k = 0 <-> 0 <= 0 < 64).
Proof.
  apply (kerning_offset_none (fun _ => box_face) 0%nat 65%N Font.empty).
  apply wf_empty.
Defined.

(** ** Layout *)

Lemma run_eq3 (a a' b b' c c' : Z) (w : Font.World) :
  a = a' -> b = b' -> c = c' ->
  (Ok (a, b, c), w) = (Ok (a', b', c'), w).
Proof. now intros -> -> ->. Qed.

Section layout_facts.

Variable faces : Font.obj -> FT.Face.
Variable self : Font.obj.

Lemma max_over_nonneg metric glyphs : 0 <= max_over metric glyphs.
Proof. induction glyphs as [|g l IH]; cbn; [lia|]. fold (max_over metric l). lia. Qed.

Lemma max_over_ge metric glyphs g :
  g ∈ glyphs -> metric g <= max_over metric glyphs.
Proof.
  induction 1 as [g l|g g' l Hin IH]; cbn.
  - lia.
  - fold (max_over metric l). lia.
Qed.

(** The loop, started from any accumulators, adds the remaining widths
    and keeps the running maxima. *)
Lemma text_dimensions_loop_run pairs :
  forall width max_ascent max_descent previous_char w,
    wf faces w -> 0 <= max_ascent -> 0 <= max_descent ->
    exists w',
      Font.text_dimensions_loop faces self pairs width max_ascent
        max_descent previous_char w
      = (Ok (width + width_sum faces self previous_char pairs,
             Z.max max_ascent (max_over Glyph.ascent pairs.*2),
             Z.max max_descent (max_over Glyph.descent pairs.*2)), w')
      /\ wf faces w'.
Proof.
  induction pairs as [|[c g] rest IH];
    intros width ma md prev w Hwf Hma Hmd.
  - exists w. split; [|assumption]. cbn.
    unfold mret, Font.M_ret. apply run_eq3; lia.
  - cbn [Font.text_dimensions_loop].
    destruct (kerning_offset_run faces self prev c w Hwf)
      as (w1 & E1 & Hwf1 & _).
    rewrite (bind_run _ _ _ _ _ E1).
    destruct (max_run faces ma (Glyph.ascent g) w1 Hwf1)
      as (w2 & E2 & Hwf2).
    rewrite (bind_run _ _ _ _ _ E2).
    destruct (max_run faces md (Glyph.descent g) w2 Hwf2)
      as (w3 & E3 & Hwf3).
    rewrite (bind_run _ _ _ _ _ E3).
    destruct (max_run faces
                (Glyph.advance_width g + kern faces self prev c)
                (Glyph.width g + kern faces self prev c) w3 Hwf3)
      as (w4 & E4 & Hwf4).
    rewrite (bind_run _ _ _ _ _ E4).
    destruct (IH (width + Z.max (Glyph.advance_width g + kern faces self prev c)
                                (Glyph.width g + kern faces self prev c))
                 (Z.max ma (Glyph.ascent g)) (Z.max md (Glyph.descent g))
                 (Some c) w4 Hwf4 ltac:(lia) ltac:(lia))
      as (w' & E & Hwf').
    exists w'. split; [|assumption]. rewrite E. cbn.
    fold (max_over Glyph.ascent rest.*2).
    fold (max_over Glyph.descent rest.*2).
    apply run_eq3; lia.
Qed.

Lemma text_dimensions_run text glyphs w :
  wf faces w -> length text = length glyphs ->
  exists w',
    Font.text_dimensions faces self text glyphs w
    = (Ok (width_sum faces self None (zip text glyphs),
           max_over Glyph.ascent glyphs + max_over Glyph.descent glyphs,
           max_over Glyph.descent glyphs), w')
    /\ wf faces w'.
Proof.
  intros Hwf Hlen. unfold Font.text_dimensions.
  destruct (decide (length text = length glyphs)); [|contradiction].
  destruct (text_dimensions_loop_run (zip text glyphs) 0 0 0 None w Hwf
              ltac:(lia) ltac:(lia)) as (w' & E & Hwf').
  exists w'. split; [|assumption].
  rewrite (bind_run _ _ _ _ _ E). cbn.
  rewrite snd_zip by lia.
  pose proof (max_over_nonneg Glyph.ascent glyphs).
  pose proof (max_over_nonneg Glyph.descent glyphs).
  unfold mret, Font.M_ret. apply run_eq3; lia.
Qed.

End layout_facts.

(** C1 fails as stated: the kerning offset of the first character, after
    no character, is part of the width.  With a face that reports one
    pixel for it, two glyphs with advances 10 and 8, widths 12 and 10 and
    a kerning of -2 between them give the width 21. *)
Lemma text_dimensions_first_kerning :
  kern (fun _ => lead_face) 0%nat (Some 65%N) 86%N = -2 /\
  kern (fun _ => lead_face) 0%nat None 65%N = 1 /\
  (Font.text_dimensions (fun _ => lead_face) 0%nat [65%N; 86%N]
     [glyph_A; glyph_V] Font.empty).1
  = Ok (21, 9, 0).
Proof. repeat split; reflexivity. Qed.

(** C1, amended: for a text and a glyph sequence of equal length
    [text_dimensions] returns the width that is the left-to-right sum of
    [max(advance_width + k, width + k)], the height that is the maximum
    ascent plus the maximum descent, and the maximum descent as baseline;
    the empty sequence gives (0, 0, 0); and two glyphs with advances 10
    and 8, widths 12 and 10 and a kerning of -2 between them give the
    width 20 plus the kerning offset of the first character after no
    character, which is 20 when that offset is 0. *)
Theorem text_dimensions_sum :
  forall (faces : Font.obj -> FT.Face) (self : Font.obj)
         (text : list char) (glyphs : list Glyph.t) (w : Font.World),
    wf faces w ->
    length text = length glyphs ->
    (exists w',
       Font.text_dimensions faces self text glyphs w
       = (Ok (width_sum faces self None (zip text glyphs),
              max_over Glyph.ascent glyphs + max_over Glyph.descent glyphs,
              max_over Glyph.descent glyphs), w')) /\
    (text = [] -> (Font.text_dimensions faces self text glyphs w).1
                  = Ok (0, 0, 0)) /\
    (forall a v ga gv,
       text = [a; v] -> glyphs = [ga; gv] ->
       Glyph.advance_width ga = 10 -> Glyph.width ga = 12 ->
       Glyph.advance_width gv = 8 -> Glyph.width gv = 10 ->
       kern faces self (Some a) v = -2 ->
       exists height baseline,
         (Font.text_dimensions faces self text glyphs w).1
         = Ok (20 + kern faces self None a, height, baseline)) /\
    (forall a v ga gv,
       text = [a; v] -> glyphs = [ga; gv] ->
       Glyph.advance_width ga = 10 -> Glyph.width ga = 12 ->
       Glyph.advance_width gv = 8 -> Glyph.width gv = 10 ->
       kern faces self None a = 0 -> kern faces self (Some a) v = -2 ->
       exists height baseline,
         (Font.text_dimensions faces self text glyphs w).1
         = Ok (20, height, baseline)).
Proof.
  intros faces self text glyphs w Hwf Hlen.
  destruct (text_dimensions_run faces self text glyphs w Hwf Hlen)
    as (w' & E & _).
  split; [|split; [|split]].
  - exists w'. exact E.
  - intros ->. destruct glyphs; [|discriminate]. reflexivity.
  - intros a v ga gv -> -> Ha1 Ha2 Hv1 Hv2 Hk2.
    rewrite E. cbn. rewrite Hk2, Ha1, Ha2, Hv1, Hv2.
    eexists _, _. do 2 f_equal. apply (f_equal2 pair); [|reflexivity]. lia.
  - intros a v ga gv -> -> Ha1 Ha2 Hv1 Hv2 Hk1 Hk2.
    rewrite E. cbn. rewrite Hk1, Hk2, Ha1, Ha2, Hv1, Hv2.
    eexists _, _. reflexivity.
Qed.

Lemma text_dimensions_sum_witness :
  (exists height baseline,
     (Font.text_dimensions (fun _ => box_face) 0%nat [65%N; 86%N]
        [glyph_A; glyph_V] Font.empty).1
     = Ok (20 + kern (fun _ => box_face) 0%nat None 65%N,
           height, baseline)) /\
  (exists height baseline,
     (Font.text_dimensions (fun _ => box_face) 0%nat [65%N; 86%N]
        [glyph_A; glyph_V] Font.empty).1
     = Ok (20, height, baseline)).
Proof.
  destruct (text_dimensions_sum (fun _ => box_face) 0%nat [65%N; 86%N]
              [glyph_A; glyph_V] Font.empty (wf_empty _) eq_refl)
    as (_ & _ & H & H0).
  split.
  - exact (H 65%N 86%N glyph_A glyph_V eq_refl eq_refl eq_refl eq_refl
             eq_refl eq_refl eq_refl).
  - exact (H0 65%N 86%N glyph_A glyph_V eq_refl eq_refl eq_refl eq_refl
             eq_refl eq_refl eq_refl eq_refl).
Defined.

(** ** Rendering at the natural height *)

Section render_facts.

Variable faces : Font.obj -> FT.Face.
Variable self : Font.obj.

Lemma glyphs_of_run text :
  forall w glyphs w1,
    wf faces w ->
    Font.glyphs_of faces self text w = (Ok glyphs, w1) ->
    Forall2 (fun c g => glyph_of faces (self, c) = Ok g) text glyphs
    /\ wf faces w1.
Proof.
  induction text as [|c rest IH]; intros w glyphs w1 Hwf H.
  - cbn in H. injection H as <- <-. split; [constructor|assumption].
  - cbn [Font.glyphs_of] in H.
    destruct (glyph_for_character_run faces self c w Hwf)
      as (w2 & E & Hwf2).
    unfold mbind, Font.M_bind in H. rewrite E in H.
    destruct (glyph_of faces (self, c)) as [g|e] eqn:Eg; [|discriminate].
    destruct (Font.glyphs_of faces self rest w2) as [[gs|e] w3] eqn:Er;
      [|discriminate].
    cbn in H. injection H as <- <-.
    destruct (IH _ _ _ Hwf2 Er) as [HF Hwf3].
    split; [constructor; assumption|assumption].
Qed.

(** The metrics of a glyph built from a glyph slot cover its bitmap. *)
Lemma glyph_of_metrics k g :
  glyph_of faces k = Ok g ->
  0 <= Glyph.ascent g /\ 0 <= Glyph.descent g /\
  Glyph.height g <= Glyph.ascent g + Glyph.descent g.
Proof.
  intros H. apply from_glyphslot_fields in H as (_ & _ & _ & Hd & Ha).
  lia.
Qed.

End render_facts.

(** C10: when [render_text] is called without a height, it draws on a
    canvas of the height [max_ascent + max_descent] returned by
    [text_dimensions], with [baseline = max_descent]; every glyph has
    [height <= ascent + descent], [ascent <= max_ascent] and
    [descent <= max_descent], so that its drawing position
    [y = height - ascent - baseline] satisfies [0 <= y] and
    [y + glyph.height <= height]. *)
Theorem render_natural_height_fits :
  forall (faces : Font.obj -> FT.Face) (self : Font.obj)
         (text : list char) (w : Font.World) (glyphs : list Glyph.t),
    wf faces w ->
    (Font.glyphs_of faces self text w).1 = Ok glyphs ->
    exists width height baseline w2,
      Font.text_dimensions faces self text glyphs
        (Font.glyphs_of faces self text w).2
      = (Ok (width, height, baseline), w2) /\
      Font.render_text faces self text None w
      = (Font.lift (Bitmap.init width height None) ≫=
           fun outbuffer =>
             Font.render_loop faces self (zip text glyphs) height baseline
               outbuffer 0 None) w2 /\
      height = max_over Glyph.ascent glyphs + max_over Glyph.descent glyphs /\
      baseline = max_over Glyph.descent glyphs /\
      Forall (fun g =>
                Glyph.height g <= Glyph.ascent g + Glyph.descent g /\
                Glyph.ascent g <= max_over Glyph.ascent glyphs /\
                Glyph.descent g <= max_over Glyph.descent glyphs /\
                0 <= Font.glyph_y height g baseline /\
                Font.glyph_y height g baseline + Glyph.height g <= height)
             glyphs.
Proof.
  intros faces self text w glyphs Hwf Hg.
  destruct (Font.glyphs_of faces self text w) as [o w1] eqn:Eg.
  cbn in Hg. subst o.
  destruct (glyphs_of_run faces self text w glyphs w1 Hwf Eg) as [HF Hwf1].
  pose proof (list.Forall2_length _ _ _ HF) as Hlen.
  destruct (text_dimensions_run faces self text glyphs w1 Hwf1 Hlen)
    as (w2 & E & _).
  eexists _, _, _, w2. cbn [snd].
  split; [exact E|]. split; [|split; [reflexivity|split; [reflexivity|]]].
  - unfold Font.render_text.
    rewrite (bind_run _ _ _ _ _ Eg), (bind_run _ _ _ _ _ E). reflexivity.
  - apply list.Forall_forall. intros g Hin.
    destruct (proj1 (list_elem_of_lookup glyphs g) Hin) as [i Hi].
    destruct (Forall2_lookup_r _ _ _ _ _ HF Hi) as (c & _ & Hc).
    destruct (glyph_of_metrics faces _ _ Hc) as (Ha & Hd & Hh).
    pose proof (max_over_ge Glyph.ascent glyphs g Hin).
    pose proof (max_over_ge Glyph.descent glyphs g Hin).
    unfold Font.glyph_y. lia.
Qed.

Lemma render_natural_height_fits_witness :
  exists width height baseline w2,
    Font.text_dimensions (fun _ => box_face) 0%nat [65%N; 86%N]
      [box_glyph; box_glyph]
      (Font.glyphs_of (fun _ => box_face) 0%nat [65%N; 86%N] Font.empty).2
    = (Ok (width, height, baseline), w2) /\
    Font.render_text (fun _ => box_face) 0%nat [65%N; 86%N] None Font.empty
    = (Font.lift (Bitmap.init width height None) ≫=
         fun outbuffer =>
           Font.render_loop (fun _ => box_face) 0%nat
             (zip [65%N; 86%N] [box_glyph; box_glyph]) height baseline
             outbuffer 0 None) w2 /\
    height = max_over Glyph.ascent [box_glyph; box_glyph]
             + max_over Glyph.descent [box_glyph; box_glyph] /\
    baseline = max_over Glyph.descent [box_glyph; box_glyph] /\
    Forall (fun g =>
              Glyph.height g <= Glyph.ascent g + Glyph.descent g /\
              Glyph.ascent g <= max_over Glyph.ascent [box_glyph; box_glyph] /\
              Glyph.descent g
                <= max_over Glyph.descent [box_glyph; box_glyph] /\
              0 <= Font.glyph_y height g baseline /\
              Font.glyph_y height g baseline + Glyph.height g <= height)
           [box_glyph; box_glyph].
Proof.
  apply (render_natural_height_fits (fun _ => box_face) 0%nat [65%N; 86%N]
           Font.empty [box_glyph; box_glyph]).
  - apply wf_empty.
  - reflexivity.
Defined.

(** ** Unpacking a monochrome bitmap *)

(** A loop over [range(n)] establishes an invariant indexed by the number
    of iterations done, provided each iteration succeeds and advances
    it. *)
Lemma for_each_seqZ {St} (I : Z -> St -> Prop) (body : Z -> St -> outcome St) :
  forall (m : nat) (start : Z) (s : St),
    I start s ->
    (forall k s, start <= k < start + Z.of_nat m -> I k s ->
                 exists s', body k s = Ok s' /\ I (k + 1) s') ->
    exists s', py.for_each (seqZ start (Z.of_nat m)) body s = Ok s'
               /\ I (start + Z.of_nat m) s'.
Proof.
  induction m as [|m IH]; intros start s H0 Hstep.
  - exists s. split; [reflexivity|]. now replace (start + Z.of_nat 0) with start by lia.
  - rewrite seqZ_cons by lia. cbn [py.for_each].
    destruct (Hstep start s ltac:(lia) H0) as (s1 & E1 & H1).
    rewrite E1. cbn.
    replace (Z.pred (Z.of_nat (S m))) with (Z.of_nat m) by lia.
    destruct (IH (Z.succ start) s1) as (s' & E & H').
    + now replace (Z.succ start) with (start + 1) by lia.
    + intros k s2 Hk. apply Hstep. lia.
    + exists s'. split; [exact E|].
      now replace (start + Z.of_nat (S m)) with (Z.succ start + Z.of_nat m) by lia.
Qed.

Lemma for_range {St} (I : Z -> St -> Prop) (body : Z -> St -> outcome St)
    (n : Z) (s : St) :
  I 0 s ->
  (forall k s, 0 <= k < n -> I k s ->
               exists s', body k s = Ok s' /\ I (k + 1) s') ->
  exists s', py.for_each (py.range n) body s = Ok s' /\ I (Z.max 0 n) s'.
Proof.
  intros H0 Hstep.
  destruct (for_each_seqZ I body (Z.to_nat n) 0 s H0) as (s' & E & H').
  - intros k s1 Hk. apply Hstep. lia.
  - exists s'. unfold py.range.
    replace (seqZ 0 n) with (seqZ 0 (Z.of_nat (Z.to_nat n)))
      by (unfold seqZ; now rewrite Nat2Z.id).
    split; [exact E|].
    now replace (Z.max 0 n) with (0 + Z.of_nat (Z.to_nat n)) by lia.
Qed.

Lemma setitem_in_range {A} (l : list A) (i : Z) (v : A) :
  0 <= i < Z.of_nat (length l) ->
  py.setitem l i v = Ok (<[Z.to_nat i := v]> l).
Proof.
  intros Hi. unfold py.setitem, py.position.
  destruct (Z.leb_spec 0 i); [|lia].
  destruct (Z.ltb_spec i (Z.of_nat (length l))); [|lia]. reflexivity.
Qed.

Lemma getitem_in_range {A} (l : list A) (i : Z) :
  0 <= i < Z.of_nat (length l) ->
  exists v, l !! Z.to_nat i = Some v /\ py.getitem l i = Ok v.
Proof.
  intros Hi. unfold py.getitem, py.position.
  destruct (Z.leb_spec 0 i); [|lia].
  destruct (Z.ltb_spec i (Z.of_nat (length l))); [|lia]. cbn.
  destruct (lookup_lt_is_Some_2 l (Z.to_nat i) ltac:(lia)) as [v Hv].
  exists v. now rewrite Hv.
Qed.

(** Masking with [1 << n] tests bit [n]. *)
Lemma land_shiftl_1 (a n : Z) :
  0 <= n -> (Z.land a (Z.shiftl 1 n) =? 0) = negb (Z.testbit a n).
Proof.
  intros Hn. rewrite Z.shiftl_1_l.
  destruct (Z.testbit a n) eqn:Eb; cbn.
  - apply Z.eqb_neq. intros H0.
    assert (Z.testbit (Z.land a (2 ^ n)) n = true) as Ht.
    { rewrite Z.land_spec, Eb, Z.pow2_bits_true by lia. reflexivity. }
    rewrite H0, Z.bits_0 in Ht. discriminate.
  - apply Z.eqb_eq. apply Z.bits_inj'. intros m Hm.
    rewrite Z.land_spec, Z.bits_0, Z.pow2_bits_eqb by lia.
    destruct (Z.eqb_spec n m) as [->|]; [now rewrite Eb|apply andb_false_r].
Qed.

(** Pixels of a row-major buffer have distinct positions. *)
Lemma row_major_inj (w x y x' y' : Z) :
  0 <= x < w -> 0 <= x' < w -> y * w + x = y' * w + x' -> y = y' /\ x = x'.
Proof.
  intros Hx Hx' H.
  assert (y = y') as -> by nia. split; [reflexivity|lia].
Qed.

Lemma row_major_bound (w r x y : Z) :
  0 <= x < w -> 0 <= y < r -> 0 <= y * w + x < r * w.
Proof. intros Hx Hy. nia. Qed.

Lemma unpacking_weaken bitmap (done done' : Z -> Z -> Prop) data :
  (forall x y, 0 <= x < FT.width bitmap -> 0 <= y < FT.rows bitmap ->
               done' x y -> done x y) ->
  unpacking bitmap done data -> unpacking bitmap done' data.
Proof.
  intros Himp [Hlen Hpx]. split; [exact Hlen|].
  intros x y Hx Hy Hd. apply Hpx; auto.
Qed.

Section unpack_facts.

Variable bitmap : FT.Bitmap.
Local Abbreviation W := (FT.width bitmap).
Local Abbreviation R := (FT.rows bitmap).
Local Abbreviation P := (FT.pitch bitmap).

Hypothesis HWP : W <= P * 8.
Hypothesis Hbuf : R * P <= Z.of_nat (length (FT.buffer bitmap)).

(** One packed byte: the pixels of row [y] before column
    [8 * (byte_index + 1)] are unpacked afterwards. *)
Lemma unpack_byte_run y bi bv data :
  0 <= y < R -> 0 <= bi ->
  FT.buffer bitmap !! Z.to_nat (y * P + bi) = Some bv ->
  unpacking bitmap (fun x' y' => y' < y \/ (y' = y /\ x' < 8 * bi)) data ->
  exists data',
    Glyph.unpack_byte bitmap y bi bv data = Ok data' /\
    unpacking bitmap
      (fun x' y' => y' < y \/ (y' = y /\ x' < 8 * (bi + 1))) data'.
Proof.
  intros Hy Hbi Hbv Hinv. unfold Glyph.unpack_byte.
  destruct (for_range
    (fun k d => unpacking bitmap
                  (fun x' y' => y' < y \/ (y' = y /\ x' < 8 * bi + k)) d)
    (fun bit_index data =>
       py.setitem data (y * W + bi * 8 + bit_index)
         (if Z.land bv (Z.shiftl 1 (7 - bit_index)) =? 0 then 0 else 1))
    (Z.min 8 (W - bi * 8)) data) as (data' & E & Hfin).
  - revert Hinv. apply unpacking_weaken. intros; lia.
  - intros k d Hk [Hlen Hpx].
    pose proof (row_major_bound W R (bi * 8 + k) y ltac:(lia) Hy) as Hidx.
    rewrite setitem_in_range by lia.
    eexists; split; [reflexivity|]. split.
    + now rewrite length_insert.
    + intros x' y' Hx' Hy' Hdone.
      destruct (decide (y' = y /\ x' = bi * 8 + k)) as [[-> ->]|Hne].
      * exists (Z.testbit bv (7 - k)). split.
        -- unfold packed_pixel.
           replace ((bi * 8 + k) / 8) with bi
             by (Z.div_mod_to_equations; lia).
           replace ((bi * 8 + k) mod 8) with k
             by (Z.div_mod_to_equations; lia).
           now rewrite Hbv.
        -- replace (y * W + (bi * 8 + k)) with (y * W + bi * 8 + k) by lia.
           rewrite list_lookup_insert_eq by lia.
           rewrite land_shiftl_1 by lia.
           now destruct (Z.testbit bv (7 - k)).
      * destruct (Hpx x' y' Hx' Hy' ltac:(lia)) as (on & Hon & Hlk).
        exists on. split; [exact Hon|].
        rewrite list_lookup_insert_ne; [exact Hlk|].
        intros Heq.
        pose proof (row_major_bound W R x' y' Hx' Hy').
        apply Hne.
        apply (row_major_inj W); [lia|lia|lia].
  - exists data'. split; [exact E|].
    revert Hfin. apply unpacking_weaken. intros; lia.
Qed.

(** One row of packed bytes. *)
Lemma unpack_row_run y data :
  0 <= y < R ->
  unpacking bitmap (fun x' y' => y' < y) data ->
  exists data',
    Glyph.unpack_row bitmap y data = Ok data' /\
    unpacking bitmap (fun x' y' => y' < y + 1) data'.
Proof.
  intros Hy Hinv. unfold Glyph.unpack_row.
  destruct (for_range
    (fun k d => unpacking bitmap
                  (fun x' y' => y' < y \/ (y' = y /\ x' < 8 * k)) d)
    (fun byte_index data =>
       byte_value ← py.getitem (FT.buffer bitmap) (y * P + byte_index);
       Glyph.unpack_byte bitmap y byte_index byte_value data)
    P data) as (data' & E & Hfin).
  - revert Hinv. apply unpacking_weaken. intros; lia.
  - intros k d Hk Hd.
    destruct (getitem_in_range (FT.buffer bitmap) (y * P + k))
      as (bv & Hbv & Eget); [nia|].
    rewrite Eget. cbn.
    destruct (unpack_byte_run y k bv d Hy ltac:(lia) Hbv Hd)
      as (d' & Ed & Hd').
    exists d'. split; [exact Ed|].
    revert Hd'. apply unpacking_weaken. intros; lia.
  - exists data'. split; [exact E|].
    revert Hfin. apply unpacking_weaken. intros; lia.
Qed.

Lemma unpack_mono_bitmap_run :
  0 <= W -> 0 <= R ->
  exists px,
    Glyph.unpack_mono_bitmap bitmap = Ok px /\
    Z.of_nat (length px) = W * R /\
    forall x y,
      0 <= x < W -> 0 <= y < R ->
      exists on,
        packed_pixel bitmap x y = Some on /\
        px !! Z.to_nat (y * W + x) = Some on.
Proof.
  intros HW HR. unfold Glyph.unpack_mono_bitmap, py.bytearray.
  destruct (Z.ltb_spec (R * W) 0) as [Hneg|Hpos]; [nia|]. cbn.
  destruct (for_range
    (fun k d => unpacking bitmap (fun x' y' => y' < k) d)
    (Glyph.unpack_row bitmap) R (replicate (Z.to_nat (R * W)) 0))
    as (data & E & [Hlen Hpx]).
  - split; [apply length_replicate|]. intros; lia.
  - intros k d Hk Hd. apply unpack_row_run; [lia|exact Hd].
  - rewrite E. cbn. eexists; split; [reflexivity|]. split.
    + rewrite length_map, Hlen. lia.
    + intros x y Hx Hy.
      destruct (Hpx x y Hx Hy ltac:(lia)) as (on & Hon & Hlk).
      exists on. split; [exact Hon|].
      rewrite list_lookup_fmap, Hlk. cbn. now destruct on.
Qed.

End unpack_facts.

(** C2: for a packed bitmap with non-negative width, rows and pitch,
    [pitch * 8 >= width], and a buffer holding its [rows * pitch] bytes,
    the unpacking returns [width * rows] booleans in row-major order;
    pixel (x, y) is on exactly when bit [7 - x mod 8] of byte
    [y * pitch + x / 8] is set, so only the first [width] bits of a row are
    read; and the 8x8 bitmap of pitch 1 with every byte 0xFF unpacks to 64
    [true] values. *)
Theorem unpack_mono_bitmap_pixels :
  forall bitmap : FT.Bitmap,
    0 <= FT.width bitmap -> 0 <= FT.rows bitmap -> 0 <= FT.pitch bitmap ->
    FT.width bitmap <= FT.pitch bitmap * 8 ->
    FT.rows bitmap * FT.pitch bitmap
      <= Z.of_nat (length (FT.buffer bitmap)) ->
    (exists px,
       Glyph.unpack_mono_bitmap bitmap = Ok px /\
       Z.of_nat (length px) = FT.width bitmap * FT.rows bitmap /\
       forall x y,
         0 <= x < FT.width bitmap -> 0 <= y < FT.rows bitmap ->
         exists on,
           packed_pixel bitmap x y = Some on /\
           px !! Z.to_nat (y * FT.width bitmap + x) = Some on) /\
    Glyph.unpack_mono_bitmap full_block = Ok (replicate 64 true).
Proof.
  intros bitmap HW HR HP HWP Hbuf. split.
  - now apply unpack_mono_bitmap_run.
  - reflexivity.
Qed.

Lemma unpack_mono_bitmap_pixels_witness :
  (exists px,
     Glyph.unpack_mono_bitmap padded_bitmap = Ok px /\
     Z.of_nat (length px) = 10 * 2 /\
     forall x y,
       0 <= x < 10 -> 0 <= y < 2 ->
       exists on,
         packed_pixel padded_bitmap x y = Some on /\
         px !! Z.to_nat (y * 10 + x) = Some on) /\
  Glyph.unpack_mono_bitmap full_block = Ok (replicate 64 true).
Proof.
  apply (unpack_mono_bitmap_pixels padded_bitmap); cbn; lia.
Defined.

(** ** Blitting *)

Lemma lor_false a n : (length a <= n)%nat -> lor a (replicate n false) = a.
Proof.
  intros H. unfold lor. rewrite zip_with_replicate_r by exact H.
  induction a as [|b a IH]; cbn in *; [reflexivity|].
  rewrite orb_false_r. f_equal. apply IH. lia.
Qed.

Lemma lor_length a m : length m = length a -> length (lor a m) = length a.
Proof. intros H. unfold lor. rewrite length_zip_with. lia. Qed.

Lemma lor_assoc a m1 m2 : lor (lor a m1) m2 = lor a (lor m1 m2).
Proof.
  unfold lor. revert m1 m2.
  induction a as [|b a IH]; intros [|b1 m1] [|b2 m2]; cbn; try reflexivity.
  rewrite orb_assoc. f_equal. apply IH.
Qed.

Lemma lor_idem a m : lor (lor a m) m = lor a m.
Proof.
  unfold lor. revert m.
  induction a as [|b a IH]; intros [|b1 m]; cbn; try reflexivity.
  rewrite <- orb_assoc, orb_diag. f_equal. apply IH.
Qed.

Lemma lor_lookup_true a m i :
  length m = length a -> a !! i = Some true -> lor a m !! i = Some true.
Proof.
  intros Hlen Ha. unfold lor. rewrite lookup_zip_with, Ha. cbn.
  destruct (lookup_lt_is_Some_2 m i) as [b Hb].
  - rewrite Hlen. apply lookup_lt_is_Some. eauto.
  - rewrite Hb. reflexivity.
Qed.

Lemma adjust_index_range i len :
  0 <= len -> 0 <= np.adjust_index i len <= len.
Proof.
  intros H. unfold np.adjust_index.
  destruct (Z.ltb_spec i 0).
  - destruct (Z.ltb_spec (i + len) 0); lia.
  - destruct (Z.leb_spec len i); lia.
Qed.

Lemma slice_fits {A} (a : list A) start stop :
  (np.slice_start a start + np.slice_len a start stop <= length a)%nat.
Proof.
  unfold np.slice_start, np.slice_len.
  pose proof (adjust_index_range start (Z.of_nat (length a)) ltac:(lia)).
  pose proof (adjust_index_range stop (Z.of_nat (length a)) ltac:(lia)).
  lia.
Qed.

Lemma getslice_length {A} (a : list A) start stop :
  length (np.getslice a start stop) = np.slice_len a start stop.
Proof.
  unfold np.getslice. rewrite length_take, length_drop.
  pose proof (slice_fits a start stop). lia.
Qed.

(** OR-ing a mask that is [false] outside a window only touches the
    window. *)
Lemma lor_window a s n mid :
  (s + n <= length a)%nat -> length mid = n ->
  lor a (replicate s false ++ mid ++ replicate (length a - s - n) false)
  = take s a ++ zip_with orb (take n (drop s a)) mid ++ drop (s + n) a.
Proof.
  intros Hfit Hmid. unfold lor.
  rewrite <- (take_drop s a) at 1.
  rewrite zip_with_app by (rewrite length_take, length_replicate; lia).
  fold (lor (take s a) (replicate s false)).
  rewrite lor_false by (rewrite length_take; lia).
  f_equal.
  rewrite <- (take_drop n (drop s a)) at 1.
  rewrite zip_with_app by (rewrite length_take, length_drop; lia).
  f_equal. rewrite drop_drop.
  fold (lor (drop (s + n) a) (replicate (length a - s - n) false)).
  apply lor_false. rewrite length_drop. lia.
Qed.

(** What [a[start:stop] |= rhs] does is fixed by the length of [a]: it
    raises, or it ORs a mask onto [a]. *)
Lemma ior_slice_mask (a : list bool) start stop rhs :
  exists om : option (list bool),
    (forall m, om = Some m -> length m = length a) /\
    forall a',
      length a' = length a ->
      np.ior_slice a' start stop rhs
      = match om with
        | Some m => Ok (lor a' m)
        | None => Raise ValueError
        end.
Proof.
  set (s := np.slice_start a start).
  set (n := np.slice_len a start stop).
  pose proof (slice_fits a start stop) as Hfit. fold s n in Hfit.
  assert (Hshape : forall a' : list bool, length a' = length a ->
            np.slice_start a' start = s /\
            np.getslice a' start stop = take n (drop s a') /\
            length (np.getslice a' start stop) = n).
  { intros a' Hlen. rewrite getslice_length.
    unfold np.getslice, np.slice_start, np.slice_len. rewrite Hlen. auto. }
  destruct (decide (n = length rhs)) as [Heq|Hne].
  - exists (Some (replicate s false ++ rhs
                  ++ replicate (length a - s - n) false)).
    split.
    + intros m [= <-]. rewrite !length_app, !length_replicate. lia.
    + intros a' Hlen. destruct (Hshape a' Hlen) as (Hs & Hv & Hl).
      unfold np.ior_slice. rewrite Hs, Hl.
      destruct (decide (n = length rhs)); [|contradiction].
      rewrite Hv, <- Hlen. now rewrite lor_window by lia.
  - destruct rhs as [|r [|r' rhs]].
    + exists None. split; [discriminate|].
      intros a' Hlen. destruct (Hshape a' Hlen) as (Hs & Hv & Hl).
      unfold np.ior_slice. rewrite Hl.
      destruct (decide (n = length (@nil bool))); [contradiction|reflexivity].
    + exists (Some (replicate s false ++ replicate n r
                    ++ replicate (length a - s - n) false)).
      split.
      * intros m [= <-]. rewrite !length_app, !length_replicate. lia.
      * intros a' Hlen. destruct (Hshape a' Hlen) as (Hs & Hv & Hl).
        unfold np.ior_slice. rewrite Hs, Hl.
        destruct (decide (n = length [r])); [contradiction|].
        rewrite Hv, <- Hlen.
        rewrite lor_window by (rewrite ?length_replicate; lia).
        do 2 f_equal. rewrite zip_with_replicate_r; [reflexivity|].
        rewrite length_take, length_drop. lia.
    + exists None. split; [discriminate|].
      intros a' Hlen. destruct (Hshape a' Hlen) as (Hs & Hv & Hl).
      unfold np.ior_slice. rewrite Hl.
      destruct (decide (n = length (r :: r' :: rhs))); [contradiction|].
      reflexivity.
Qed.

(** The same for a whole blit: the rows OR one mask onto the destination,
    and the mask and the exception depend on the destination only through
    its length. *)
Lemma bitblt_rows_mask n src srcw row_offset :
  forall (dst : list bool) srcpixel dstpixel,
  exists (m : list bool) (e : option Error),
    length m = length dst /\
    (e = None \/ e = Some ValueError) /\
    forall dst' : list bool,
      length dst' = length dst ->
      Bitmap.bitblt_rows n dst' src srcw row_offset srcpixel dstpixel
      = (lor dst' m, e).
Proof.
  induction n as [|n IH]; intros dst sp dp.
  - exists (replicate (length dst) false), None.
    split; [apply length_replicate|]. split; [now left|].
    intros dst' Hlen. cbn. rewrite lor_false by lia. reflexivity.
  - destruct (ior_slice_mask dst dp (dp + srcw)
                (np.getslice src sp (sp + srcw))) as ([m1|] & Hm1 & Hrow).
    + specialize (Hm1 m1 eq_refl).
      destruct (IH (lor dst m1) (sp + srcw) (dp + (row_offset + srcw)))
        as (m2 & e & Hm2 & He & Hrest).
      rewrite lor_length in Hm2 by exact Hm1.
      exists (lor m1 m2), e. split; [|split; [exact He|]].
      * rewrite lor_length; lia.
      * intros dst' Hlen. cbn. rewrite Hrow by exact Hlen.
        rewrite Hrest; [now rewrite lor_assoc|].
        rewrite !lor_length; lia.
    + exists (replicate (length dst) false), (Some ValueError).
      split; [apply length_replicate|]. split; [now right|].
      intros dst' Hlen. cbn. rewrite Hrow by exact Hlen.
      rewrite lor_false by lia. reflexivity.
Qed.

Lemma adjust_index_id i len : 0 <= i <= len -> np.adjust_index i len = i.
Proof.
  intros H. unfold np.adjust_index.
  destruct (Z.ltb_spec i 0); [lia|].
  destruct (Z.leb_spec len i); lia.
Qed.

Lemma getslice_in_bounds {A} (a : list A) (s w : Z) :
  0 <= s -> 0 <= w -> s + w <= Z.of_nat (length a) ->
  np.getslice a s (s + w) = take (Z.to_nat w) (drop (Z.to_nat s) a).
Proof.
  intros Hs Hw Hfit. unfold np.getslice, np.slice_len, np.slice_start.
  rewrite !adjust_index_id by lia. f_equal. lia.
Qed.

(** A row that lies inside the destination is OR-ed in place. *)
Lemma ior_slice_in_bounds (a rhs : list bool) (d w : Z) :
  0 <= d -> 0 <= w -> d + w <= Z.of_nat (length a) ->
  length rhs = Z.to_nat w ->
  exists a',
    np.ior_slice a d (d + w) rhs = Ok a' /\
    length a' = length a /\
    (forall j, (j < Z.to_nat w)%nat ->
       a' !! (Z.to_nat d + j)%nat
       = a !! (Z.to_nat d + j)%nat ≫= fun x =>
         rhs !! j ≫= fun y => Some (x || y)) /\
    (forall i, (i < Z.to_nat d)%nat \/ (Z.to_nat d + Z.to_nat w <= i)%nat ->
       a' !! i = a !! i).
Proof.
  intros Hd Hw Hfit Hrhs.
  pose proof (getslice_in_bounds a d w Hd Hw Hfit) as Hview.
  assert (length (np.getslice a d (d + w)) = Z.to_nat w) as Hvl.
  { rewrite Hview, length_take, length_drop. lia. }
  unfold np.ior_slice. rewrite Hvl.
  destruct (decide (Z.to_nat w = length rhs)) as [_|Hne]; [|lia].
  unfold np.slice_start. rewrite adjust_index_id by lia. rewrite Hview.
  eexists; split; [reflexivity|].
  assert (length (take (Z.to_nat d) a) = Z.to_nat d) as Hl1
    by (rewrite length_take; lia).
  assert (length (zip_with orb (take (Z.to_nat w) (drop (Z.to_nat d) a)) rhs)
          = Z.to_nat w) as Hl2
    by (rewrite length_zip_with, length_take, length_drop; lia).
  split; [|split].
  - rewrite !length_app, Hl1, Hl2, length_drop. lia.
  - intros j Hj.
    rewrite lookup_app_r by lia. rewrite Hl1.
    rewrite lookup_app_l by lia.
    replace (Z.to_nat d + j - Z.to_nat d)%nat with j by lia.
    rewrite lookup_zip_with, lookup_take, lookup_drop.
    destruct (decide (j < Z.to_nat w)%nat); [reflexivity|lia].
  - intros i [Hi|Hi].
    + rewrite lookup_app_l by lia. rewrite lookup_take.
      destruct (decide (i < Z.to_nat d)%nat); [reflexivity|lia].
    + rewrite lookup_app_r by lia. rewrite Hl1.
      rewrite lookup_app_r by lia. rewrite Hl2, lookup_drop.
      f_equal. lia.
Qed.

(** A blit whose rows all lie inside the destination, [wd] pixels wide:
    row [r] of the source is OR-ed onto the pixels from
    [dstpixel + r * wd] on, and nothing else changes. *)
Lemma bitblt_rows_in_bounds (src : list bool) (srcw wd : Z) :
  0 <= srcw <= wd ->
  forall (n : nat) (dst : list bool) (sp dp : Z),
    0 <= sp -> sp + Z.of_nat n * srcw <= Z.of_nat (length src) ->
    0 <= dp ->
    dp + (Z.of_nat n - 1) * wd + srcw <= Z.of_nat (length dst) ->
    exists dst',
      Bitmap.bitblt_rows n dst src srcw (wd - srcw) sp dp = (dst', None) /\
      length dst' = length dst /\
      (forall r sx, 0 <= r < Z.of_nat n -> 0 <= sx < srcw ->
         dst' !! Z.to_nat (dp + r * wd + sx)
         = dst !! Z.to_nat (dp + r * wd + sx) ≫= fun x =>
           src !! Z.to_nat (sp + r * srcw + sx) ≫= fun y => Some (x || y)) /\
      (forall i : nat,
         (forall r, 0 <= r < Z.of_nat n ->
                    ~ (dp + r * wd <= Z.of_nat i < dp + r * wd + srcw)) ->
         dst' !! i = dst !! i).
Proof.
  intros Hw. induction n as [|n IH]; intros dst sp dp Hsp Hsrc Hdp Hdst.
  - exists dst. cbn. repeat split; try reflexivity. intros; lia.
  - cbn [Bitmap.bitblt_rows].
    pose proof (getslice_in_bounds src sp srcw Hsp ltac:(lia) ltac:(nia))
      as Hrow.
    destruct (ior_slice_in_bounds dst (np.getslice src sp (sp + srcw))
                dp srcw Hdp ltac:(lia) ltac:(nia))
      as (a1 & E1 & Hl1 & Hin1 & Hout1).
    { rewrite Hrow, length_take, length_drop. nia. }
    rewrite E1.
    replace (dp + (wd - srcw + srcw)) with (dp + wd) by lia.
    destruct (IH a1 (sp + srcw) (dp + wd) ltac:(lia) ltac:(nia) ltac:(lia)
                ltac:(rewrite Hl1; nia))
      as (dst' & E & Hl & Hin & Hout).
    exists dst'. split; [exact E|]. split; [lia|]. split.
    + intros r sx Hr Hsx.
      destruct (decide (r = 0)) as [->|Hr0].
      * rewrite Hout.
        2:{ intros r' Hr'. nia. }
        replace (Z.to_nat (dp + 0 * wd + sx))
          with (Z.to_nat dp + Z.to_nat sx)%nat by lia.
        rewrite Hin1 by lia. rewrite Hrow, lookup_take, lookup_drop.
        destruct (decide (Z.to_nat sx < Z.to_nat srcw)%nat); [|lia].
        replace (Z.to_nat (sp + 0 * srcw + sx))
          with (Z.to_nat sp + Z.to_nat sx)%nat by lia.
        reflexivity.
      * specialize (Hin (r - 1) sx ltac:(lia) Hsx).
        replace (dp + wd + (r - 1) * wd + sx) with (dp + r * wd + sx)
          in Hin by lia.
        replace (sp + srcw + (r - 1) * srcw + sx) with (sp + r * srcw + sx)
          in Hin by lia.
        rewrite Hin. rewrite Hout1; [reflexivity|]. right. nia.
    + intros i Hi. rewrite Hout.
      * apply Hout1. specialize (Hi 0 ltac:(lia)). lia.
      * intros r Hr. specialize (Hi (r + 1) ltac:(lia)).
        replace (dp + (r + 1) * wd) with (dp + wd + r * wd) in Hi by lia.
        exact Hi.
Qed.

Lemma bitblt_eq self src x y :
  Bitmap.bitblt self src x y
  = let r := Bitmap.bitblt_rows (Z.to_nat (Bitmap.height src))
               (Bitmap.pixels self) (Bitmap.pixels src) (Bitmap.width src)
               (Bitmap.width self - Bitmap.width src) 0
               (y * Bitmap.width self + x) in
    (Bitmap.mk (Bitmap.width self) (Bitmap.height self) r.1, r.2).
Proof.
  unfold Bitmap.bitblt. cbv zeta.
  now destruct (Bitmap.bitblt_rows _ _ _ _ _ _ _).
Qed.

(** C5: a blit never clears a set pixel; blitting the same source at the
    same position again changes nothing; and when the source lies inside
    the destination, the blit succeeds and leaves in destination pixel
    (x + sx, y + sy) the OR of its old value and source pixel (sx, sy). *)
Theorem bitblt_or_idempotent :
  forall (dst src : Bitmap.t) (x y : Z),
    (forall i : nat,
       Bitmap.pixels dst !! i = Some true ->
       Bitmap.pixels (Bitmap.bitblt dst src x y).1 !! i = Some true) /\
    Bitmap.bitblt (Bitmap.bitblt dst src x y).1 src x y
    = Bitmap.bitblt dst src x y /\
    (sized dst -> sized src -> 0 <= x -> 0 <= y ->
     x + Bitmap.width src <= Bitmap.width dst ->
     y + Bitmap.height src <= Bitmap.height dst ->
     (Bitmap.bitblt dst src x y).2 = None /\
     forall sx sy,
       0 <= sx < Bitmap.width src -> 0 <= sy < Bitmap.height src ->
       exists old new,
         Bitmap.pixel dst (x + sx) (y + sy) = Some old /\
         Bitmap.pixel src sx sy = Some new /\
         Bitmap.pixel (Bitmap.bitblt dst src x y).1 (x + sx) (y + sy)
         = Some (old || new)).
Proof.
  intros dst src x y.
  destruct (bitblt_rows_mask (Z.to_nat (Bitmap.height src))
              (Bitmap.pixels src) (Bitmap.width src)
              (Bitmap.width dst - Bitmap.width src) (Bitmap.pixels dst) 0
              (y * Bitmap.width dst + x)) as (m & e & Hm & _ & Hall).
  rewrite (bitblt_eq dst). cbv zeta. rewrite (Hall _ eq_refl). cbn [fst snd].
  split; [|split].
  - intros i Hi. cbn. now apply lor_lookup_true.
  - rewrite bitblt_eq. cbn. rewrite Hall by now apply lor_length.
    cbn. now rewrite lor_idem.
  - intros (Hdw & Hdh & Hdl) (Hsw & Hsh & Hsl) Hx Hy Hxw Hyh.
    destruct (bitblt_rows_in_bounds (Bitmap.pixels src) (Bitmap.width src)
                (Bitmap.width dst) ltac:(lia)
                (Z.to_nat (Bitmap.height src)) (Bitmap.pixels dst) 0
                (y * Bitmap.width dst + x))
      as (dst' & E & Hl & Hin & _); [lia|nia|nia|nia|].
    rewrite (Hall _ eq_refl) in E. injection E as E1 E2.
    split; [exact E2|].
    intros sx sy Hsx Hsy. specialize (Hin sy sx ltac:(lia) Hsx).
    replace (y * Bitmap.width dst + x + sy * Bitmap.width dst + sx)
      with ((y + sy) * Bitmap.width dst + (x + sx)) in Hin by lia.
    replace (0 + sy * Bitmap.width src + sx)
      with (sy * Bitmap.width src + sx) in Hin by lia.
    pose proof (row_major_bound (Bitmap.width dst) (Bitmap.height dst)
                  (x + sx) (y + sy) ltac:(lia) ltac:(lia)) as Hb1.
    pose proof (row_major_bound (Bitmap.width src) (Bitmap.height src)
                  sx sy Hsx Hsy) as Hb2.
    destruct (lookup_lt_is_Some_2 (Bitmap.pixels dst)
                (Z.to_nat ((y + sy) * Bitmap.width dst + (x + sx)))
                ltac:(lia)) as [old Hold].
    destruct (lookup_lt_is_Some_2 (Bitmap.pixels src)
                (Z.to_nat (sy * Bitmap.width src + sx)) ltac:(lia))
      as [new Hnew].
    exists old, new. unfold Bitmap.pixel. cbn [Bitmap.width Bitmap.pixels].
    destruct (Z.ltb_spec ((y + sy) * Bitmap.width dst + (x + sx)) 0); [lia|].
    destruct (Z.ltb_spec (sy * Bitmap.width src + sx) 0); [lia|].
    split; [exact Hold|]. split; [exact Hnew|].
    rewrite E1, Hin, Hold, Hnew. reflexivity.
Qed.

Lemma bitblt_or_idempotent_witness :
  (Bitmap.bitblt canvas_4x3 stamp_2x2 1 1).2 = None /\
  forall sx sy,
    0 <= sx < 2 -> 0 <= sy < 2 ->
    exists old new,
      Bitmap.pixel canvas_4x3 (1 + sx) (1 + sy) = Some old /\
      Bitmap.pixel stamp_2x2 sx sy = Some new /\
      Bitmap.pixel (Bitmap.bitblt canvas_4x3 stamp_2x2 1 1).1
        (1 + sx) (1 + sy)
      = Some (old || new).
Proof.
  apply (bitblt_or_idempotent canvas_4x3 stamp_2x2 1 1);
    repeat split; cbn; lia.
Defined.

(** ** Blitting outside the canvas *)

Lemma ior_slice_length (a rhs : list bool) start stop a' :
  np.ior_slice a start stop rhs = Ok a' -> length a' = length a.
Proof.
  destruct (ior_slice_mask a start stop rhs) as ([m|] & Hm & Hall);
    rewrite (Hall a eq_refl); [|discriminate].
  intros [= <-]. apply lor_length. now apply Hm.
Qed.

(** A negative slice that stays inside the buffer when counted from its
    end is the slice [len] positions further. *)
Lemma ior_slice_wrap (a rhs : list bool) (d w : Z) :
  0 <= w -> - Z.of_nat (length a) <= d -> d + w < 0 ->
  np.ior_slice a d (d + w) rhs
  = np.ior_slice a (d + Z.of_nat (length a))
      (d + Z.of_nat (length a) + w) rhs.
Proof.
  intros Hw Hd Hneg.
  assert (forall i, - Z.of_nat (length a) <= i < 0 ->
            np.adjust_index i (Z.of_nat (length a))
            = np.adjust_index (i + Z.of_nat (length a))
                (Z.of_nat (length a))) as Hadj.
  { intros i Hi. unfold np.adjust_index.
    destruct (Z.ltb_spec i 0); [|lia].
    destruct (Z.ltb_spec (i + Z.of_nat (length a)) 0); [lia|].
    destruct (Z.leb_spec (Z.of_nat (length a)) (i + Z.of_nat (length a)));
      [lia|].
    destruct (Z.ltb_spec (i + Z.of_nat (length a) + Z.of_nat (length a)) 0);
      lia. }
  unfold np.ior_slice, np.getslice, np.slice_start, np.slice_len.
  rewrite (Hadj d) by lia. rewrite (Hadj (d + w)) by lia.
  replace (d + w + Z.of_nat (length a)) with (d + Z.of_nat (length a) + w)
    by lia.
  reflexivity.
Qed.

Lemma bitblt_rows_wrap (src : list bool) (srcw row_offset : Z) :
  0 <= srcw -> 0 <= row_offset + srcw ->
  forall (n : nat) (dst : list bool) (sp dp : Z),
    - Z.of_nat (length dst) <= dp ->
    dp + (Z.of_nat n - 1) * (row_offset + srcw) + srcw < 0 ->
    Bitmap.bitblt_rows n dst src srcw row_offset sp dp
    = Bitmap.bitblt_rows n dst src srcw row_offset sp
        (dp + Z.of_nat (length dst)).
Proof.
  intros Hw Hstep. induction n as [|n IH]; intros dst sp dp Hdp Hlast.
  - reflexivity.
  - cbn [Bitmap.bitblt_rows].
    rewrite <- ior_slice_wrap by nia.
    destruct (np.ior_slice dst dp (dp + srcw) _) as [dst'|e] eqn:E;
      [|reflexivity].
    apply ior_slice_length in E.
    rewrite (IH dst') by (rewrite ?E; nia).
    rewrite E. f_equal. lia.
Qed.

Lemma bitblt_raises_only_ValueError dst src x y :
  (Bitmap.bitblt dst src x y).2 = None \/
  (Bitmap.bitblt dst src x y).2 = Some ValueError.
Proof.
  destruct (bitblt_rows_mask (Z.to_nat (Bitmap.height src))
              (Bitmap.pixels src) (Bitmap.width src)
              (Bitmap.width dst - Bitmap.width src) (Bitmap.pixels dst) 0
              (y * Bitmap.width dst + x)) as (m & e & _ & He & Hall).
  rewrite bitblt_eq. cbv zeta. rewrite (Hall _ eq_refl). exact He.
Qed.

(** The drawing loop of [render_text] ends with a canvas or with the
    [ValueError] of a blit. *)
Lemma render_loop_outcome faces self pairs :
  forall height baseline outbuffer x previous_char w,
    wf faces w ->
    exists w',
      (exists b, Font.render_loop faces self pairs height baseline
                   outbuffer x previous_char w = (Ok b, w')) \/
      Font.render_loop faces self pairs height baseline outbuffer x
        previous_char w = (Raise ValueError, w').
Proof.
  induction pairs as [|[c g] rest IH];
    intros height baseline outbuffer x prev w Hwf.
  - exists w. left. exists outbuffer. reflexivity.
  - cbn [Font.render_loop].
    destruct (kerning_offset_run faces self prev c w Hwf)
      as (w1 & E1 & Hwf1 & _).
    rewrite (bind_run _ _ _ _ _ E1).
    pose proof (bitblt_raises_only_ValueError outbuffer (Glyph.bitmap g)
                  (x + kern faces self prev c)
                  (Font.glyph_y height g baseline)) as He.
    destruct (Bitmap.bitblt outbuffer (Glyph.bitmap g)
                (x + kern faces self prev c)
                (Font.glyph_y height g baseline)) as [out' [e|]].
    + cbn in He. destruct He as [He|[= ->]]; [discriminate|].
      exists w1. right. reflexivity.
    + apply IH. exact Hwf1.
Qed.

(** The drawing loop is the sequence of the blits of the glyphs at their
    cursor positions. *)
Lemma render_loop_blits faces self pairs :
  forall height baseline outbuffer x previous_char w,
    wf faces w ->
    (Font.render_loop faces self pairs height baseline outbuffer x
       previous_char w).1
    = blit_all height baseline outbuffer
        (placements faces self x previous_char pairs).
Proof.
  induction pairs as [|[c g] rest IH];
    intros height baseline outbuffer x prev w Hwf.
  - reflexivity.
  - cbn [Font.render_loop placements blit_all].
    destruct (kerning_offset_run faces self prev c w Hwf)
      as (w1 & E1 & Hwf1 & _).
    rewrite (bind_run _ _ _ _ _ E1).
    destruct (Bitmap.bitblt outbuffer (Glyph.bitmap g)
                (x + kern faces self prev c)
                (Font.glyph_y height g baseline)) as [out' [e|]].
    + reflexivity.
    + apply IH. exact Hwf1.
Qed.

(** [a[start:stop] |= rhs] raises exactly for operands of different
    lengths whose right-hand side is not a single element. *)
Lemma ior_slice_raises (a : list bool) start stop rhs :
  np.ior_slice a start stop rhs = Raise ValueError <->
  np.slice_len a start stop <> length rhs /\ length rhs <> 1%nat.
Proof.
  unfold np.ior_slice. rewrite getslice_length.
  destruct (decide (np.slice_len a start stop = length rhs)) as [Heq|Hne].
  - split; [discriminate|]. intros [H _]. contradiction.
  - destruct rhs as [|r [|r' rhs]]; cbn [length].
    + split; [intros _; split; [exact Hne|lia]|reflexivity].
    + split; [discriminate|]. intros [_ H]. contradiction.
    + split; [intros _; split; [exact Hne|lia]|reflexivity].
Qed.

Lemma slice_len_length {A} (a a' : list A) start stop :
  length a' = length a ->
  np.slice_len a' start stop = np.slice_len a start stop.
Proof. intros H. unfold np.slice_len. now rewrite H. Qed.

(** The rows of a blit raise exactly when one of them does not fit. *)
Lemma bitblt_rows_raises (src : list bool) (srcw row_offset : Z) :
  forall (n : nat) (dst : list bool) (sp dp : Z),
    (Bitmap.bitblt_rows n dst src srcw row_offset sp dp).2
    = Some ValueError <->
    exists r : nat,
      (r < n)%nat /\
      np.slice_len dst (dp + Z.of_nat r * (row_offset + srcw))
        (dp + Z.of_nat r * (row_offset + srcw) + srcw)
      <> length (np.getslice src (sp + Z.of_nat r * srcw)
                   (sp + Z.of_nat r * srcw + srcw)) /\
      length (np.getslice src (sp + Z.of_nat r * srcw)
                (sp + Z.of_nat r * srcw + srcw)) <> 1%nat.
Proof.
  induction n as [|n IH]; intros dst sp dp.
  - cbn. split; [discriminate|]. intros (r & Hr & _). lia.
  - cbn [Bitmap.bitblt_rows].
    pose proof (ior_slice_raises dst dp (dp + srcw)
                  (np.getslice src sp (sp + srcw))) as Hrow.
    destruct (np.ior_slice dst dp (dp + srcw)
                (np.getslice src sp (sp + srcw))) as [dst'|e] eqn:E.
    + apply ior_slice_length in E.
      rewrite IH. split.
      * intros (r & Hr & H1 & H2). exists (S r). split; [lia|].
        rewrite (slice_len_length dst dst') in H1 by exact E.
        replace (dp + Z.of_nat (S r) * (row_offset + srcw))
          with (dp + (row_offset + srcw) + Z.of_nat r * (row_offset + srcw))
          by lia.
        replace (sp + Z.of_nat (S r) * srcw)
          with (sp + srcw + Z.of_nat r * srcw) by lia.
        split; assumption.
      * intros ([|r] & Hr & H1 & H2).
        -- exfalso. change (Z.of_nat 0) with 0 in H1, H2.
           repeat rewrite Z.mul_0_l in H1. repeat rewrite Z.mul_0_l in H2.
           repeat rewrite Z.add_0_r in H1. repeat rewrite Z.add_0_r in H2.
           assert (@Ok (list bool) dst' = Raise ValueError) as Habs
             by (apply Hrow; split; assumption).
           discriminate.
        -- exists r. split; [lia|].
           rewrite (slice_len_length dst dst') by exact E.
           replace (dp + Z.of_nat (S r) * (row_offset + srcw))
             with (dp + (row_offset + srcw)
                   + Z.of_nat r * (row_offset + srcw)) in H1 by lia.
           replace (sp + Z.of_nat (S r) * srcw)
             with (sp + srcw + Z.of_nat r * srcw) in H1, H2 by lia.
           split; assumption.
    + assert (e = ValueError) as ->.
      { destruct (ior_slice_mask dst dp (dp + srcw)
                    (np.getslice src sp (sp + srcw))) as ([m|] & _ & Hall);
          rewrite (Hall dst eq_refl) in E; congruence. }
      cbn. split; [|reflexivity]. intros _. exists 0%nat.
      split; [lia|]. change (Z.of_nat 0) with 0.
      repeat rewrite Z.mul_0_l. repeat rewrite Z.add_0_r. now apply Hrow.
Qed.

(** A blit raises exactly when one of its rows does not fit. *)
Lemma bitblt_raises dst src x y :
  (Bitmap.bitblt dst src x y).2 = Some ValueError <->
  exists r, 0 <= r < Bitmap.height src /\ row_mismatch dst src x y r.
Proof.
  rewrite bitblt_eq. cbv zeta. cbn [snd].
  rewrite bitblt_rows_raises. unfold row_mismatch. cbv zeta.
  split.
  - intros (r & Hr & H1 & H2). exists (Z.of_nat r). split; [lia|].
    rewrite getslice_length.
    replace ((y + Z.of_nat r) * Bitmap.width dst + x)
      with (y * Bitmap.width dst + x
            + Z.of_nat r
              * (Bitmap.width dst - Bitmap.width src + Bitmap.width src))
      by lia.
    rewrite !Z.add_0_l in H1, H2. split; assumption.
  - intros (r & Hr & H1 & H2). exists (Z.to_nat r). split; [lia|].
    rewrite getslice_length in H1.
    rewrite Z2Nat.id by lia. rewrite !Z.add_0_l.
    replace (y * Bitmap.width dst + x
             + r * (Bitmap.width dst - Bitmap.width src + Bitmap.width src))
      with ((y + r) * Bitmap.width dst + x) by lia.
    split; assumption.
Qed.

(** C6 fails as stated: rendering one 3x2 glyph of ascent 2 at the target
    height 1 puts it at [y = -1], above the canvas, and yet succeeds: both
    glyph rows are OR-ed into the single canvas row. *)
Lemma render_too_small_succeeds :
  Font.glyph_y 1 box_glyph 0 = -1 /\
  (Font.render_text (fun _ => box_face) 0%nat [65%N] (Some 1) Font.empty).1
  = Ok (Bitmap.mk 10 1 [true; true; true; false; false;
                        false; false; false; false; false]).
Proof. split; reflexivity. Qed.

(** C6, amended: a render at a target height is not checked against the
    canvas.  Its drawing loop is the sequence of the blits of the glyphs,
    each at its cursor position [x] and at [y = height - ascent -
    baseline], whatever these are, and it ends with the canvas or with
    the exception of the first blit that raises.  The only exception a
    blit raises is numpy's [ValueError], and a blit raises it exactly when
    one of its rows does not fit: the slice of the destination the row is
    OR-ed into, as numpy clips it, and the source row differ in length,
    the row not being a single pixel.  A glyph lying wholly above the
    canvas, at most [height] rows up and inside it horizontally, is
    blitted without an exception at the position wrapped around to
    [y + height]. *)
Theorem bitblt_unchecked :
  forall (faces : Font.obj -> FT.Face) (self : Font.obj)
         (pairs : list (char * Glyph.t)) (height baseline : Z)
         (previous_char : option char) (w : Font.World)
         (dst src : Bitmap.t) (x y : Z),
    wf faces w ->
    (Font.render_loop faces self pairs height baseline dst x
       previous_char w).1
    = blit_all height baseline dst
        (placements faces self x previous_char pairs) /\
    (exists w',
       (exists b, Font.render_loop faces self pairs height baseline dst x
                    previous_char w = (Ok b, w')) \/
       Font.render_loop faces self pairs height baseline dst x
         previous_char w = (Raise ValueError, w')) /\
    ((Bitmap.bitblt dst src x y).2 = None \/
     (Bitmap.bitblt dst src x y).2 = Some ValueError) /\
    ((Bitmap.bitblt dst src x y).2 = Some ValueError <->
     exists r, 0 <= r < Bitmap.height src /\ row_mismatch dst src x y r) /\
    (sized dst -> sized src ->
     0 <= x -> x + Bitmap.width src <= Bitmap.width dst ->
     - Bitmap.height dst <= y -> y + Bitmap.height src <= 0 ->
     (y + Bitmap.height src - 1) * Bitmap.width dst + x + Bitmap.width src
       < 0 ->
     Bitmap.bitblt dst src x y
     = Bitmap.bitblt dst src x (y + Bitmap.height dst) /\
     (Bitmap.bitblt dst src x y).2 = None).
Proof.
  intros faces self pairs height baseline previous_char w dst src x y Hwf.
  split; [now apply render_loop_blits|].
  split; [now apply render_loop_outcome|].
  split; [apply bitblt_raises_only_ValueError|].
  split; [apply bitblt_raises|].
  intros (Hdw & Hdh & Hdl) (Hsw & Hsh & Hsl) Hx Hxw Hy Hyh Hlast.
  assert (Bitmap.bitblt dst src x y
          = Bitmap.bitblt dst src x (y + Bitmap.height dst)) as Heq.
  { rewrite !bitblt_eq. cbv zeta.
    rewrite bitblt_rows_wrap by nia.
    replace (y * Bitmap.width dst + x
             + Z.of_nat (length (Bitmap.pixels dst)))
      with ((y + Bitmap.height dst) * Bitmap.width dst + x) by nia.
    reflexivity. }
  split; [exact Heq|]. rewrite Heq, bitblt_eq. cbv zeta.
  destruct (bitblt_rows_in_bounds (Bitmap.pixels src) (Bitmap.width src)
              (Bitmap.width dst) ltac:(lia)
              (Z.to_nat (Bitmap.height src)) (Bitmap.pixels dst) 0
              ((y + Bitmap.height dst) * Bitmap.width dst + x))
    as (dst' & E & _); [lia|nia|nia|nia|].
  now rewrite E.
Qed.

Lemma bitblt_unchecked_witness :
  Bitmap.bitblt canvas_4x3 stamp_2x2 1 (-3)
  = Bitmap.bitblt canvas_4x3 stamp_2x2 1 (-3 + 3) /\
  (Bitmap.bitblt canvas_4x3 stamp_2x2 1 (-3)).2 = None.
Proof.
  apply (bitblt_unchecked (fun _ => box_face) 0%nat [(65%N, box_glyph)] 1 0
           None Font.empty canvas_4x3 stamp_2x2 1 (-3));
    [apply wf_empty|repeat split; cbn; lia..].
Defined.

(** ** The glyph cache *)

Section lru_facts.
Context {K V : Type} `{EqDecision K}.
Implicit Types (c : list (K * V)) (k q : K) (v : V).

Lemma get_None_keys c k : lru.get c k = None -> k ∉ lru.keys c.
Proof.
  induction c as [|[k' v'] c IH]; cbn.
  - intros _. apply not_elem_of_nil.
  - destruct (decide (k' = k)); [discriminate|].
    intros Hg. apply not_elem_of_cons. split; [congruence|auto].
Qed.

Lemma get_app_fresh pre c k :
  k ∉ lru.keys pre -> lru.get (pre ++ c) k = lru.get c k.
Proof.
  induction pre as [|[k' v'] pre IH]; cbn; [reflexivity|].
  intros Hk. apply not_elem_of_cons in Hk as [Hne Hk].
  destruct (decide (k' = k)); [congruence|auto].
Qed.

Lemma remove_app q c1 c2 :
  lru.remove q (c1 ++ c2) = lru.remove q c1 ++ lru.remove q c2.
Proof.
  induction c1 as [|[k' v'] c1 IH]; cbn; [reflexivity|].
  destruct (decide (k' = q)); [exact IH|]. cbn. now rewrite IH.
Qed.

Lemma keys_remove q c x :
  x ∈ lru.keys (lru.remove q c) -> x ∈ lru.keys c /\ x <> q.
Proof.
  induction c as [|[k' v'] c IH]; cbn.
  - intros Hx. now apply elem_of_nil in Hx.
  - destruct (decide (k' = q)) as [->|Hne].
    + intros Hx. destruct (IH Hx). split; [now right|assumption].
    + cbn. intros Hx. apply elem_of_cons in Hx as [->|Hx].
      * split; [left|assumption].
      * destruct (IH Hx). split; [now right|assumption].
Qed.

Lemma NoDup_keys_remove q c :
  NoDup (lru.keys c) -> NoDup (lru.keys (lru.remove q c)).
Proof.
  induction c as [|[k' v'] c IH]; cbn; [auto|].
  intros Hnd. apply list.NoDup_cons in Hnd as [Hk Hnd].
  destruct (decide (k' = q)); [auto|]. cbn.
  apply list.NoDup_cons. split; [|auto].
  intros Hin. apply keys_remove in Hin as [Hin _]. contradiction.
Qed.

Lemma recent_get seen k v c : recent seen k v c -> lru.get c k = Some v.
Proof.
  intros (pre & post & -> & _ & Hpre).
  rewrite get_app_fresh.
  - cbn. destruct (decide (k = k)); [reflexivity|contradiction].
  - intros Hin. now destruct (Hpre k Hin).
Qed.

Lemma recent_first seen k v c : recent seen k v ((k, v) :: c).
Proof.
  exists [], c. split; [reflexivity|]. split; [constructor|].
  intros x Hx. now apply elem_of_nil in Hx.
Qed.

Lemma recent_hit seen k v q v' c :
  q <> k -> seen q -> recent seen k v c -> recent seen k v (lru.hit q v' c).
Proof.
  intros Hne Hq (pre & post & -> & Hnd & Hpre).
  exists ((q, v') :: lru.remove q pre), (lru.remove q post).
  split; [|split].
  - unfold lru.hit. rewrite remove_app. cbn.
    destruct (decide (k = q)); [congruence|reflexivity].
  - cbn. apply list.NoDup_cons. split; [|now apply NoDup_keys_remove].
    intros Hin. now apply keys_remove in Hin as [_ Hin].
  - cbn. intros x Hx. apply elem_of_cons in Hx as [->|Hx]; [auto|].
    apply keys_remove in Hx as [Hx _]. auto.
Qed.

Lemma recent_store seen k v q v' c :
  q <> k -> seen q ->
  (forall l : list K,
     NoDup l -> (forall x, x ∈ l -> x <> k /\ seen x) ->
     (length l < lru.maxsize)%nat) ->
  recent seen k v c -> recent seen k v (lru.store q v' c).
Proof.
  intros Hne Hq Hbound Hrec. unfold lru.store.
  destruct (lru.get c q) eqn:Eg; [exact Hrec|].
  destruct Hrec as (pre & post & -> & Hnd & Hpre).
  apply get_None_keys in Eg.
  assert (NoDup (q :: lru.keys pre)) as Hnd'.
  { apply list.NoDup_cons. split; [|exact Hnd].
    intros Hin. apply Eg. unfold lru.keys. rewrite map_app.
    apply elem_of_app. now left. }
  assert (forall x, x ∈ q :: lru.keys pre -> x <> k /\ seen x) as Hpre'.
  { intros x Hx. apply elem_of_cons in Hx as [->|Hx]; auto. }
  pose proof (Hbound _ Hnd' Hpre') as Hlen. cbn in Hlen.
  unfold lru.keys in Hlen. rewrite length_map in Hlen.
  exists ((q, v') :: pre),
         (take (lru.maxsize - S (length pre) - 1) post).
  split; [|split; [exact Hnd'|exact Hpre']].
  change ((q, v') :: pre ++ (k, v) :: post)
    with (((q, v') :: pre) ++ (k, v) :: post).
  rewrite take_app_ge by (cbn; lia).
  f_equal. cbn [length].
  destruct (lru.maxsize - S (length pre))%nat as [|n] eqn:En; [lia|].
  cbn. f_equal. f_equal. lia.
Qed.

End lru_facts.

Section glyph_cache_facts.

Variable faces : Font.obj -> FT.Face.

Lemma after_queries_wf qs :
  forall w, wf faces w -> wf faces (after_queries faces qs w).
Proof.
  induction qs as [|q qs IH]; intros w Hwf; cbn; [assumption|].
  apply IH.
  destruct (glyph_for_character_run faces q.1 q.2 w Hwf) as (w' & E & Hwf').
  now rewrite E.
Qed.

(** One query keeps a recently used entry in the cache, as long as fewer
    distinct other keys than the cache holds have been seen. *)
Lemma glyph_query_recent (seen : Font.glyph_key -> Prop) k v q w :
  seen q ->
  (forall l : list Font.glyph_key,
     NoDup l -> (forall x, x ∈ l -> x <> k /\ seen x) ->
     (length l < lru.maxsize)%nat) ->
  recent seen k v (Font.glyph_cache w) ->
  recent seen k v
    (Font.glyph_cache (Font.glyph_for_character faces q.1 q.2 w).2).
Proof.
  intros Hq Hbound Hrec. destruct q as [s ch]. cbn [fst snd].
  unfold Font.glyph_for_character, Font.cached.
  destruct (lru.get (Font.glyph_cache w) (s, ch)) as [v'|] eqn:Eg.
  - cbn. destruct (decide ((s, ch) = k)) as [<-|Hne].
    + rewrite (recent_get _ _ _ _ Hrec) in Eg. injection Eg as ->.
      apply recent_first.
    + now apply recent_hit.
  - assert ((s, ch) <> k) as Hne.
    { intros <-. rewrite (recent_get _ _ _ _ Hrec) in Eg. discriminate. }
    cbn. destruct (Glyph.from_glyphslot (FT.load_char (faces s) ch));
      cbn; [|exact Hrec].
    now apply recent_store.
Qed.

Lemma after_queries_recent (seen : Font.glyph_key -> Prop) k v qs :
  (forall l : list Font.glyph_key,
     NoDup l -> (forall x, x ∈ l -> x <> k /\ seen x) ->
     (length l < lru.maxsize)%nat) ->
  forall w,
    (forall q, q ∈ qs -> seen q) ->
    recent seen k v (Font.glyph_cache w) ->
    recent seen k v (Font.glyph_cache (after_queries faces qs w)).
Proof.
  intros Hbound. induction qs as [|q qs IH]; intros w Hseen Hrec; cbn.
  - exact Hrec.
  - apply IH.
    + intros q' Hq'. apply Hseen. now right.
    + apply glyph_query_recent; [apply Hseen; left|exact Hbound|exact Hrec].
Qed.

(** A successful query leaves its entry first in the cache. *)
Lemma glyph_query_first self c w g w1 :
  Font.glyph_for_character faces self c w = (Ok g, w1) ->
  (exists rest, Font.glyph_cache w1 = ((self, c), g) :: rest) /\
  (lru.get (Font.glyph_cache w) (self, c) = None ->
   Font.load_char_calls w1 = (self, c) :: Font.load_char_calls w).
Proof.
  unfold Font.glyph_for_character, Font.cached.
  destruct (lru.get (Font.glyph_cache w) (self, c)) as [v|] eqn:Eg.
  - intros [= <- <-]. split; [|discriminate]. cbn. eauto.
  - cbn. destruct (Glyph.from_glyphslot (FT.load_char (faces self) c));
      [|discriminate].
    intros [= <- <-]. cbn. split; [|reflexivity].
    unfold lru.store. rewrite Eg. cbn. eauto.
Qed.

End glyph_cache_facts.

(** C8 fails as stated: after a query for one character and queries for
    128 other characters, the glyph of the first is no longer cached, and
    asking for it again calls the rasterizer again. *)
Lemma glyph_cache_evicts :
  let faces := fun _ : Font.obj => box_face in
  let w1 := (Font.glyph_for_character faces 0%nat 0%N Font.empty).2 in
  let w2 := after_queries faces (map (fun c => (0%nat, c)) many_chars) w1 in
  lru.get (Font.glyph_cache w2) (0%nat, 0%N) = None /\
  Font.load_char_calls (Font.glyph_for_character faces 0%nat 0%N w2).2
  = (0%nat, 0%N) :: Font.load_char_calls w2.
Proof. vm_compute. split; reflexivity. Qed.

(** C8, amended: a query that finds nothing cached for its character calls
    the rasterizer; every later query for the same character returns the
    same glyph; and it does so from the cache, without calling the
    rasterizer, when fewer than 128 distinct other keys (characters, on
    any font object) were queried in between. *)
Theorem glyph_cache_lru :
  forall (faces : Font.obj -> FT.Face) (self : Font.obj) (c : char)
         (w w1 : Font.World) (g : Glyph.t) (qs : list Font.glyph_key),
    wf faces w ->
    Font.glyph_for_character faces self c w = (Ok g, w1) ->
    (lru.get (Font.glyph_cache w) (self, c) = None ->
     Font.load_char_calls w1 = (self, c) :: Font.load_char_calls w) /\
    (Font.glyph_for_character faces self c (after_queries faces qs w1)).1
    = Ok g /\
    ((length (remove_dups (filter (fun k => k <> (self, c)) qs))
      < lru.maxsize)%nat ->
     Font.load_char_calls
       (Font.glyph_for_character faces self c
          (after_queries faces qs w1)).2
     = Font.load_char_calls (after_queries faces qs w1)).
Proof.
  intros faces self c w w1 g qs Hwf Hcall.
  destruct (glyph_query_first faces self c w g w1 Hcall)
    as ((rest & Hfirst) & Hmiss).
  destruct (glyph_for_character_run faces self c w Hwf) as (w' & E & Hwf').
  rewrite Hcall in E. injection E as Hg <-.
  split; [exact Hmiss|]. split.
  - pose proof (after_queries_wf faces qs w1 Hwf') as Hwf2.
    destruct (glyph_for_character_run faces self c _ Hwf2) as (w3 & E3 & _).
    rewrite E3. cbn. now rewrite <- Hg.
  - intros Hfew.
    assert (recent (K := Font.glyph_key) (fun q => q ∈ qs) (self, c) g
              (Font.glyph_cache (after_queries faces qs w1))) as Hrec.
    { apply after_queries_recent.
      - intros l Hnd Hl.
        eapply Nat.le_lt_trans; [|exact Hfew].
        apply submseteq_length, NoDup_submseteq; [exact Hnd|].
        intros x Hx. destruct (Hl x Hx) as [Hne Hin].
        apply elem_of_remove_dups, list_elem_of_filter. auto.
      - auto.
      - rewrite Hfirst. apply recent_first. }
    apply recent_get in Hrec.
    unfold Font.glyph_for_character, Font.cached. rewrite Hrec. reflexivity.
Qed.

Lemma glyph_cache_lru_witness :
  (lru.get (Font.glyph_cache Font.empty) (0%nat, 65%N) = None ->
   Font.load_char_calls
     (Font.glyph_for_character (fun _ => box_face) 0%nat 65%N Font.empty).2
   = (0%nat, 65%N) :: Font.load_char_calls Font.empty) /\
  (Font.glyph_for_character (fun _ => box_face) 0%nat 65%N
     (after_queries (fun _ => box_face) [(0%nat, 86%N); (1%nat, 65%N)]
        (Font.glyph_for_character (fun _ => box_face) 0%nat 65%N
           Font.empty).2)).1
  = Ok box_glyph /\
  ((length (remove_dups (filter (fun k => k <> (0%nat, 65%N))
                           [(0%nat, 86%N); (1%nat, 65%N)]))
    < lru.maxsize)%nat ->
   Font.load_char_calls
     (Font.glyph_for_character (fun _ => box_face) 0%nat 65%N
        (after_queries (fun _ => box_face) [(0%nat, 86%N); (1%nat, 65%N)]
           (Font.glyph_for_character (fun _ => box_face) 0%nat 65%N
              Font.empty).2)).2
   = Font.load_char_calls
       (after_queries (fun _ => box_face) [(0%nat, 86%N); (1%nat, 65%N)]
          (Font.glyph_for_character (fun _ => box_face) 0%nat 65%N
             Font.empty).2)).
Proof.
  apply (glyph_cache_lru (fun _ => box_face) 0%nat 65%N Font.empty
           (Font.glyph_for_character (fun _ => box_face) 0%nat 65%N
              Font.empty).2 box_glyph [(0%nat, 86%N); (1%nat, 65%N)]).
  - apply wf_empty.
  - reflexivity.
Defined.

(** * Further properties of the backend *)

(** ** Blits compose *)

Lemma lor_comm a b : lor a b = lor b a.
Proof.
  unfold lor. revert b.
  induction a as [|x a IH]; intros [|y b]; cbn; try reflexivity.
  rewrite orb_comm. f_equal. apply IH.
Qed.

Lemma bitblt_shape dst src x y :
  Bitmap.width (Bitmap.bitblt dst src x y).1 = Bitmap.width dst /\
  Bitmap.height (Bitmap.bitblt dst src x y).1 = Bitmap.height dst /\
  length (Bitmap.pixels (Bitmap.bitblt dst src x y).1)
  = length (Bitmap.pixels dst).
Proof.
  destruct (bitblt_rows_mask (Z.to_nat (Bitmap.height src))
              (Bitmap.pixels src) (Bitmap.width src)
              (Bitmap.width dst - Bitmap.width src) (Bitmap.pixels dst) 0
              (y * Bitmap.width dst + x)) as (m & e & Hm & _ & Hall).
  rewrite bitblt_eq. cbv zeta. rewrite (Hall _ eq_refl). cbn.
  repeat split. now apply lor_length.
Qed.

(** X1: the order of two blits does not matter: blitting [s1] and then
    [s2] leaves the same pixels as blitting [s2] and then [s1], and a blit
    raises after another blit exactly when it raises on its own. *)
Theorem bitblt_commute :
  forall (dst s1 s2 : Bitmap.t) (x1 y1 x2 y2 : Z),
    (Bitmap.bitblt (Bitmap.bitblt dst s1 x1 y1).1 s2 x2 y2).1
    = (Bitmap.bitblt (Bitmap.bitblt dst s2 x2 y2).1 s1 x1 y1).1 /\
    (Bitmap.bitblt (Bitmap.bitblt dst s1 x1 y1).1 s2 x2 y2).2
    = (Bitmap.bitblt dst s2 x2 y2).2.
Proof.
  intros dst s1 s2 x1 y1 x2 y2.
  destruct (bitblt_rows_mask (Z.to_nat (Bitmap.height s1))
              (Bitmap.pixels s1) (Bitmap.width s1)
              (Bitmap.width dst - Bitmap.width s1) (Bitmap.pixels dst) 0
              (y1 * Bitmap.width dst + x1)) as (m1 & e1 & Hm1 & _ & H1).
  destruct (bitblt_rows_mask (Z.to_nat (Bitmap.height s2))
              (Bitmap.pixels s2) (Bitmap.width s2)
              (Bitmap.width dst - Bitmap.width s2) (Bitmap.pixels dst) 0
              (y2 * Bitmap.width dst + x2)) as (m2 & e2 & Hm2 & _ & H2).
  rewrite !bitblt_eq. cbv zeta. cbn [fst snd Bitmap.width Bitmap.height
                                      Bitmap.pixels].
  rewrite (H1 _ eq_refl), (H2 _ eq_refl). cbn [fst snd].
  rewrite H2 by now apply lor_length.
  rewrite H1 by now apply lor_length.
  cbn [fst snd]. split; [|reflexivity].
  f_equal. rewrite !lor_assoc. f_equal. apply lor_comm.
Qed.

(** ** A blit inside the canvas *)

Lemma bitblt_in_bounds dst src x y :
  sized dst -> sized src ->
  0 <= x -> 0 <= y ->
  x + Bitmap.width src <= Bitmap.width dst ->
  y + Bitmap.height src <= Bitmap.height dst ->
  exists px,
    Bitmap.bitblt dst src x y
    = (Bitmap.mk (Bitmap.width dst) (Bitmap.height dst) px, None) /\
    length px = length (Bitmap.pixels dst) /\
    forall i : nat,
      (forall r, 0 <= r < Bitmap.height src ->
         ~ (y * Bitmap.width dst + x + r * Bitmap.width dst <= Z.of_nat i
            < y * Bitmap.width dst + x + r * Bitmap.width dst
              + Bitmap.width src)) ->
      px !! i = Bitmap.pixels dst !! i.
Proof.
  intros (Hdw & Hdh & Hdl) (Hsw & Hsh & Hsl) Hx Hy Hxw Hyh.
  destruct (bitblt_rows_in_bounds (Bitmap.pixels src) (Bitmap.width src)
              (Bitmap.width dst) ltac:(lia)
              (Z.to_nat (Bitmap.height src)) (Bitmap.pixels dst) 0
              (y * Bitmap.width dst + x))
    as (dst' & E & Hl & _ & Hout); [lia|nia|nia|nia|].
  exists dst'. rewrite bitblt_eq. cbv zeta. rewrite E. cbn.
  split; [reflexivity|]. split; [exact Hl|].
  intros i Hi. apply Hout. intros r Hr. apply Hi. lia.
Qed.

(** X2: a blit that lies inside the canvas changes no pixel outside the
    rectangle it covers, and keeps the canvas the size it was. *)
Theorem bitblt_frame :
  forall (dst src : Bitmap.t) (x y : Z),
    sized dst -> sized src ->
    0 <= x -> 0 <= y ->
    x + Bitmap.width src <= Bitmap.width dst ->
    y + Bitmap.height src <= Bitmap.height dst ->
    sized (Bitmap.bitblt dst src x y).1 /\
    forall px py,
      0 <= px < Bitmap.width dst -> 0 <= py < Bitmap.height dst ->
      ~ (x <= px < x + Bitmap.width src /\ y <= py < y + Bitmap.height src) ->
      Bitmap.pixel (Bitmap.bitblt dst src x y).1 px py
      = Bitmap.pixel dst px py.
Proof.
  intros dst src x y Hd Hs Hx Hy Hxw Hyh.
  destruct (bitblt_in_bounds dst src x y Hd Hs Hx Hy Hxw Hyh)
    as (px' & E & Hl & Hout).
  rewrite E. cbn [fst]. destruct Hd as (Hdw & Hdh & Hdl).
  split.
  - repeat split; cbn; try assumption. now rewrite Hl.
  - intros px py Hpx Hpy Hout'. unfold Bitmap.pixel. cbn.
    pose proof (row_major_bound _ _ px py Hpx Hpy).
    destruct (Z.ltb_spec (py * Bitmap.width dst + px) 0); [lia|].
    apply Hout. intros r Hr Hin. apply Hout'.
    destruct (row_major_inj (Bitmap.width dst) px py
                (Z.of_nat (Z.to_nat (py * Bitmap.width dst + px))
                 - (y + r) * Bitmap.width dst) (y + r))
      as [Hy' Hx']; [lia|lia|lia|]. lia.
Qed.

Lemma bitblt_frame_witness :
  sized (Bitmap.bitblt canvas_4x3 stamp_2x2 1 1).1 /\
  forall px py,
    0 <= px < 4 -> 0 <= py < 3 ->
    ~ (1 <= px < 1 + 2 /\ 1 <= py < 1 + 2) ->
    Bitmap.pixel (Bitmap.bitblt canvas_4x3 stamp_2x2 1 1).1 px py
    = Bitmap.pixel canvas_4x3 px py.
Proof.
  apply (bitblt_frame canvas_4x3 stamp_2x2 1 1); repeat split; cbn; lia.
Defined.

(** ** Glyphs built from a glyph slot *)

Lemma from_glyphslot_run slot :
  well_formed (FT.bitmap slot) ->
  exists g,
    Glyph.from_glyphslot slot = Ok g /\
    sized (Glyph.bitmap g) /\
    Bitmap.width (Glyph.bitmap g) = FT.width (FT.bitmap slot) /\
    Bitmap.height (Glyph.bitmap g) = FT.rows (FT.bitmap slot) /\
    Glyph.width g = FT.width (FT.bitmap slot) /\
    Glyph.height g = FT.rows (FT.bitmap slot) /\
    Glyph.advance_width g = FT.advance_x slot / 64 /\
    forall x y,
      0 <= x < FT.width (FT.bitmap slot) ->
      0 <= y < FT.rows (FT.bitmap slot) ->
      is_Some (packed_pixel (FT.bitmap slot) x y) /\
      Bitmap.pixel (Glyph.bitmap g) x y = packed_pixel (FT.bitmap slot) x y.
Proof.
  intros (HW & HR & HP & HWP & Hbuf).
  destruct (unpack_mono_bitmap_run (FT.bitmap slot) HWP Hbuf HW HR)
    as (px & E & Hlen & Hpx).
  unfold Glyph.from_glyphslot. rewrite E. cbn.
  eexists; split; [reflexivity|]. cbn.
  split; [repeat split; cbn; lia|]. do 5 (split; [reflexivity|]).
  intros x y Hx Hy. destruct (Hpx x y Hx Hy) as (on & Hon & Hlk). split.
  - rewrite Hon. eauto.
  - unfold Bitmap.pixel. cbn.
    pose proof (row_major_bound _ _ x y Hx Hy).
    destruct (Z.ltb_spec (y * FT.width (FT.bitmap slot) + x) 0); [lia|].
    now rewrite Hlk, Hon.
Qed.

(** X3: from a glyph slot whose packed bitmap is well formed,
    [from_glyphslot] builds a glyph whose bitmap has [width * rows] pixels
    and the slot's width and height, and whose pixel (x, y) is the packed
    pixel (x, y) of the slot. *)
Theorem from_glyphslot_pixels :
  forall slot : FT.GlyphSlot,
    well_formed (FT.bitmap slot) ->
    exists g,
      Glyph.from_glyphslot slot = Ok g /\
      sized (Glyph.bitmap g) /\
      Glyph.width g = FT.width (FT.bitmap slot) /\
      Glyph.height g = FT.rows (FT.bitmap slot) /\
      Bitmap.width (Glyph.bitmap g) = Glyph.width g /\
      Bitmap.height (Glyph.bitmap g) = Glyph.height g /\
      forall x y,
        0 <= x < Glyph.width g -> 0 <= y < Glyph.height g ->
        is_Some (packed_pixel (FT.bitmap slot) x y) /\
        Bitmap.pixel (Glyph.bitmap g) x y
        = packed_pixel (FT.bitmap slot) x y.
Proof.
  intros slot Hwf.
  destruct (from_glyphslot_run slot Hwf)
    as (g & E & Hs & Hbw & Hbh & Hw & Hh & _ & Hpx).
  exists g. split; [exact E|]. split; [exact Hs|].
  split; [exact Hw|]. split; [exact Hh|].
  split; [congruence|]. split; [congruence|].
  intros x y Hx Hy. apply Hpx; congruence.
Qed.

Lemma from_glyphslot_pixels_witness :
  exists g,
    Glyph.from_glyphslot box_slot = Ok g /\
    sized (Glyph.bitmap g) /\
    Glyph.width g = 3 /\ Glyph.height g = 2 /\
    Bitmap.width (Glyph.bitmap g) = Glyph.width g /\
    Bitmap.height (Glyph.bitmap g) = Glyph.height g /\
    forall x y,
      0 <= x < Glyph.width g -> 0 <= y < Glyph.height g ->
      is_Some (packed_pixel (FT.bitmap box_slot) x y) /\
      Bitmap.pixel (Glyph.bitmap g) x y
      = packed_pixel (FT.bitmap box_slot) x y.
Proof.
  apply (from_glyphslot_pixels box_slot). repeat split; cbn; lia.
Defined.

(** ** The shape of a rendered canvas *)

Lemma bind_inv {A B} (m : Font.M A) (f : A -> Font.M B) w b w' :
  (m ≫= f) w = (Ok b, w') ->
  exists a w1, m w = (Ok a, w1) /\ f a w1 = (Ok b, w').
Proof.
  unfold mbind, Font.M_bind. destruct (m w) as [[a|e] w1]; [eauto|].
  discriminate.
Qed.

(** The drawing loop returns a canvas of the size it was given. *)
Lemma render_loop_shape faces self pairs :
  forall height baseline outbuffer x previous_char w b w',
    Font.render_loop faces self pairs height baseline outbuffer x
      previous_char w = (Ok b, w') ->
    Bitmap.width b = Bitmap.width outbuffer /\
    Bitmap.height b = Bitmap.height outbuffer /\
    length (Bitmap.pixels b) = length (Bitmap.pixels outbuffer).
Proof.
  induction pairs as [|[c g] rest IH];
    intros height baseline out x prev w b w' H.
  - cbn in H. injection H as <- <-. auto.
  - cbn [Font.render_loop] in H.
    apply bind_inv in H as (k & w1 & _ & H).
    pose proof (bitblt_shape out (Glyph.bitmap g) (x + k)
                  (Font.glyph_y height g baseline)) as Hshape.
    destruct (Bitmap.bitblt out (Glyph.bitmap g) (x + k)
                (Font.glyph_y height g baseline)) as [out' [e|]];
      [discriminate|].
    cbn in Hshape. apply IH in H. intuition congruence.
Qed.

(** What a successful [render_text] went through. *)
Lemma render_text_run faces self text height w b w' :
  wf faces w ->
  Font.render_text faces self text height w = (Ok b, w') ->
  exists glyphs,
    Forall2 (fun c g => glyph_of faces (self, c) = Ok g) text glyphs /\
    Bitmap.width b = width_sum faces self None (zip text glyphs) /\
    Bitmap.height b
    = match height with
      | Some h => h
      | None => max_over Glyph.ascent glyphs + max_over Glyph.descent glyphs
      end /\
    0 <= Bitmap.width b * Bitmap.height b /\
    Z.of_nat (length (Bitmap.pixels b)) = Bitmap.width b * Bitmap.height b.
Proof.
  intros Hwf H. unfold Font.render_text in H.
  apply bind_inv in H as (glyphs & w1 & Hg & H).
  destruct (glyphs_of_run faces self text w glyphs w1 Hwf Hg) as [HF Hwf1].
  pose proof (list.Forall2_length _ _ _ HF) as Hlen.
  destruct (text_dimensions_run faces self text glyphs w1 Hwf1 Hlen)
    as (w2 & E & _).
  rewrite (bind_run _ _ _ _ _ E) in H.
  apply bind_inv in H as (out & w3 & Hinit & H).
  unfold Font.lift in Hinit. injection Hinit as Hinit <-.
  apply render_loop_shape in H as (Hbw & Hbh & Hbl).
  exists glyphs. split; [exact HF|].
  unfold Bitmap.init in Hinit.
  set (wd := width_sum faces self None (zip text glyphs)) in *.
  set (ht := match height with
             | Some h => h
             | None => max_over Glyph.ascent glyphs
                       + max_over Glyph.descent glyphs
             end) in *.
  destruct (np.zeros (wd * ht)) as [z|] eqn:Ez; [|discriminate].
  apply zeros_inv in Ez as [Hrange ->].
  injection Hinit as <-. cbn in Hbw, Hbh, Hbl.
  rewrite length_replicate in Hbl. rewrite Hbw, Hbh. repeat split; lia.
Qed.

(** X4: when [render_text] returns a canvas, its width is the width
    [text_dimensions] computes for the text, its height is the requested
    height (the natural height when none is requested), and it holds
    exactly [width * height] pixels. *)
Theorem render_text_shape :
  forall (faces : Font.obj -> FT.Face) (self : Font.obj)
         (text : list char) (height : option Z) (w w' : Font.World)
         (b : Bitmap.t),
    wf faces w ->
    Font.render_text faces self text height w = (Ok b, w') ->
    exists glyphs,
      Forall2 (fun c g => glyph_of faces (self, c) = Ok g) text glyphs /\
      Bitmap.width b = width_sum faces self None (zip text glyphs) /\
      Bitmap.height b
      = match height with
        | Some h => h
        | None => max_over Glyph.ascent glyphs
                  + max_over Glyph.descent glyphs
        end /\
      0 <= Bitmap.width b * Bitmap.height b /\
      Z.of_nat (length (Bitmap.pixels b))
      = Bitmap.width b * Bitmap.height b.
Proof. intros. eapply render_text_run; eassumption. Qed.

(** X5: when the renderer returns, the height it reports is its
    [max_height], and the pixels are [width * height] bytes, each 0 or
    1. *)
Theorem renderer_call_shape :
  forall (faces : Font.obj -> FT.Face) (self : Renderer.t)
         (sentence : list char) (w w' : Font.World)
         (width height : Z) (pixels : list Z),
    wf faces w ->
    Renderer.call faces self sentence w = (Ok (width, height, pixels), w') ->
    height = Renderer.max_height self /\
    Z.of_nat (length pixels) = width * height /\
    Forall (fun p => p = 0 \/ p = 1) pixels.
Proof.
  intros faces self sentence w w' width height pixels Hwf H.
  unfold Renderer.call in H.
  apply bind_inv in H as (b & w1 & Hr & H).
  destruct (render_text_run _ _ _ _ _ _ _ Hwf Hr)
    as (glyphs & _ & _ & Hh & _ & Hl).
  cbn in H. injection H as <- <- <- <-.
  split; [exact Hh|]. split.
  - now rewrite length_map.
  - apply list.Forall_forall. intros p Hp.
    apply list_elem_of_fmap in Hp as (x & -> & _). destruct x; auto.
Qed.

Lemma render_text_shape_witness :
  exists glyphs,
    Forall2 (fun c g => glyph_of (fun _ => box_face) (0%nat, c) = Ok g)
      [65%N; 86%N] glyphs /\
    Bitmap.width box_canvas
    = width_sum (fun _ => box_face) 0%nat None (zip [65%N; 86%N] glyphs) /\
    Bitmap.height box_canvas
    = max_over Glyph.ascent glyphs + max_over Glyph.descent glyphs /\
    0 <= Bitmap.width box_canvas * Bitmap.height box_canvas /\
    Z.of_nat (length (Bitmap.pixels box_canvas))
    = Bitmap.width box_canvas * Bitmap.height box_canvas.
Proof.
  apply (render_text_shape (fun _ => box_face) 0%nat [65%N; 86%N] None
           Font.empty
           (Font.render_text (fun _ => box_face) 0%nat [65%N; 86%N] None
              Font.empty).2 box_canvas).
  - apply wf_empty.
  - vm_compute. reflexivity.
Defined.

Lemma renderer_call_shape_witness :
  2 = Renderer.max_height (Renderer.mk 0%nat 2) /\
  Z.of_nat (length (map (fun b : bool => if b then 1 else 0)
                      (Bitmap.pixels box_canvas)))
  = 18 * 2 /\
  Forall (fun p => p = 0 \/ p = 1)
    (map (fun b : bool => if b then 1 else 0) (Bitmap.pixels box_canvas)).
Proof.
  apply (renderer_call_shape (fun _ => box_face) (Renderer.mk 0%nat 2)
           [65%N; 86%N] Font.empty
           (Renderer.call (fun _ => box_face) (Renderer.mk 0%nat 2)
              [65%N; 86%N] Font.empty).2).
  - apply wf_empty.
  - vm_compute. reflexivity.
Defined.

(** ** Rendering without kerning pulls *)

Section render_in_bounds.

Variable faces : Font.obj -> FT.Face.
Variable self : Font.obj.
Hypothesis kerning_nonneg : forall p c, 0 <= FT.get_kerning (faces self) p c.

Lemma kern_nonneg p c : 0 <= kern faces self p c.
Proof. unfold kern. apply Z.div_pos; [apply kerning_nonneg|lia]. Qed.

Lemma width_sum_nonneg pairs :
  forall prev,
    Forall (fun cg : char * Glyph.t => 0 <= Glyph.advance_width cg.2) pairs ->
    0 <= width_sum faces self prev pairs.
Proof.
  induction pairs as [|[c g] rest IH]; intros prev HF; cbn; [lia|].
  apply list.Forall_cons in HF as [Hg HF]. cbn in Hg.
  pose proof (kern_nonneg prev c). pose proof (IH (Some c) HF). lia.
Qed.

(** Glyphs that fit the canvas vertically are all drawn when the cursor
    leaves room for the widths still to come. *)
Lemma render_loop_in_bounds pairs height baseline :
  forall outbuffer x previous_char w,
    wf faces w -> sized outbuffer ->
    0 <= x ->
    x + width_sum faces self previous_char pairs <= Bitmap.width outbuffer ->
    Forall (fun cg : char * Glyph.t =>
              sized (Glyph.bitmap cg.2) /\
              Bitmap.width (Glyph.bitmap cg.2) = Glyph.width cg.2 /\
              0 <= Glyph.advance_width cg.2 /\
              0 <= Font.glyph_y height cg.2 baseline /\
              Font.glyph_y height cg.2 baseline
              + Bitmap.height (Glyph.bitmap cg.2)
              <= Bitmap.height outbuffer) pairs ->
    exists b w',
      Font.render_loop faces self pairs height baseline outbuffer x
        previous_char w = (Ok b, w').
Proof.
  induction pairs as [|[c g] rest IH];
    intros out x prev w Hwf Hout Hx Hroom HF.
  - exists out, w. reflexivity.
  - apply list.Forall_cons in HF as [(Hgs & Hgw & Hadv & Hy & Hyh) HF].
    cbn [snd] in *. cbn [width_sum] in Hroom.
    assert (0 <= width_sum faces self (Some c) rest) as Hrest.
    { apply width_sum_nonneg. eapply list.Forall_impl; [exact HF|].
      intros cg H. apply H. }
    pose proof (kern_nonneg prev c) as Hk.
    cbn [Font.render_loop].
    destruct (kerning_offset_run faces self prev c w Hwf)
      as (w1 & E1 & Hwf1 & _).
    rewrite (bind_run _ _ _ _ _ E1).
    destruct (bitblt_in_bounds out (Glyph.bitmap g)
                (x + kern faces self prev c)
                (Font.glyph_y height g baseline) Hout Hgs)
      as (px & E & Hl & _); [lia|lia|lia|lia|].
    rewrite E.
    apply IH; [exact Hwf1| |lia|cbn; lia|exact HF].
    destruct Hout as (H1 & H2 & H3). repeat split; cbn; lia.
Qed.

(** Under the same conditions every glyph is placed inside the canvas. *)
Lemma placements_in_bounds pairs height baseline (wd ht : Z) :
  forall x previous_char,
    0 <= x ->
    x + width_sum faces self previous_char pairs <= wd ->
    Forall (fun cg : char * Glyph.t =>
              sized (Glyph.bitmap cg.2) /\
              Bitmap.width (Glyph.bitmap cg.2) = Glyph.width cg.2 /\
              0 <= Glyph.advance_width cg.2 /\
              0 <= Font.glyph_y height cg.2 baseline /\
              Font.glyph_y height cg.2 baseline
              + Bitmap.height (Glyph.bitmap cg.2)
              <= ht) pairs ->
    Forall (fun xg : Z * Glyph.t =>
              0 <= xg.1 /\
              xg.1 + Bitmap.width (Glyph.bitmap xg.2) <= wd /\
              0 <= Font.glyph_y height xg.2 baseline /\
              Font.glyph_y height xg.2 baseline
              + Bitmap.height (Glyph.bitmap xg.2)
              <= ht)
      (placements faces self x previous_char pairs).
Proof.
  induction pairs as [|[c g] rest IH]; intros x prev Hx Hroom HF.
  - constructor.
  - apply list.Forall_cons in HF as [(Hgs & Hgw & Hadv & Hy & Hyh) HF].
    cbn [snd] in *. cbn [width_sum] in Hroom.
    assert (0 <= width_sum faces self (Some c) rest) as Hrest.
    { apply width_sum_nonneg. eapply list.Forall_impl; [exact HF|].
      intros cg H. apply H. }
    pose proof (kern_nonneg prev c) as Hk.
    cbn [placements]. constructor.
    + cbn [fst snd]. repeat split; lia.
    + apply IH; [lia|lia|exact HF].
Qed.

Lemma glyphs_of_ok text :
  forall w,
    wf faces w ->
    (forall c, c ∈ text -> exists g, glyph_of faces (self, c) = Ok g) ->
    exists glyphs w1, Font.glyphs_of faces self text w = (Ok glyphs, w1).
Proof.
  induction text as [|c rest IH]; intros w Hwf Hok.
  - exists [], w. reflexivity.
  - destruct (Hok c ltac:(left)) as [g Hg].
    destruct (glyph_for_character_run faces self c w Hwf)
      as (w1 & E & Hwf1).
    rewrite Hg in E.
    destruct (IH w1 Hwf1) as (gs & w2 & Egs).
    { intros c' Hc'. apply Hok. now right. }
    exists (g :: gs), w2. cbn [Font.glyphs_of].
    rewrite (bind_run _ _ _ _ _ E), (bind_run _ _ _ _ _ Egs). reflexivity.
Qed.

End render_in_bounds.

(** X6: when every glyph slot of the text is well formed with a
    non-negative advance and the face reports no negative kerning, every
    blit of the drawing loop of [render_text] without a height stays
    inside the canvas: the canvas has a non-negative width and height, and
    each glyph is placed with [0 <= x], [x + width <= canvas width],
    [0 <= y] and [y + height <= canvas height].  When moreover the number
    of pixels of the canvas is in numpy's index range, [render_text]
    returns a canvas: it has this width and height, holds
    [width * height] pixels, and is the zero canvas after these blits. *)
Theorem render_natural_succeeds :
  forall (faces : Font.obj -> FT.Face) (self : Font.obj)
         (text : list char) (w : Font.World),
    wf faces w ->
    (forall c, c ∈ text ->
       well_formed (FT.bitmap (FT.load_char (faces self) c)) /\
       0 <= FT.advance_x (FT.load_char (faces self) c)) ->
    (forall p c, 0 <= FT.get_kerning (faces self) p c) ->
    exists glyphs,
      Forall2 (fun c g => glyph_of faces (self, c) = Ok g) text glyphs /\
      let width := width_sum faces self None (zip text glyphs) in
      let baseline := max_over Glyph.descent glyphs in
      let height := max_over Glyph.ascent glyphs + baseline in
      0 <= width /\ 0 <= height /\
      Forall (fun xg : Z * Glyph.t =>
                0 <= xg.1 /\
                xg.1 + Bitmap.width (Glyph.bitmap xg.2) <= width /\
                0 <= Font.glyph_y height xg.2 baseline /\
                Font.glyph_y height xg.2 baseline
                + Bitmap.height (Glyph.bitmap xg.2)
                <= height)
        (placements faces self 0 None (zip text glyphs)) /\
      (width * height <= np.intp_max ->
       exists b w',
         Font.render_text faces self text None w = (Ok b, w') /\
         sized b /\
         Bitmap.width b = width /\ Bitmap.height b = height /\
         blit_all height baseline
           (Bitmap.mk width height
              (replicate (Z.to_nat (width * height)) false))
           (placements faces self 0 None (zip text glyphs))
         = Ok b).
Proof.
  intros faces self text w Hwf Hslots Hkern.
  destruct (glyphs_of_ok faces self text w Hwf) as (glyphs & w1 & Eg).
  { intros c Hc. destruct (Hslots c Hc) as [Hwfs _].
    destruct (from_glyphslot_run _ Hwfs) as (g & E & _). now exists g. }
  destruct (glyphs_of_run faces self text w glyphs w1 Hwf Eg) as [HF Hwf1].
  exists glyphs. split; [exact HF|]. cbv zeta.
  pose proof (list.Forall2_length _ _ _ HF) as Hlen.
  destruct (text_dimensions_run faces self text glyphs w1 Hwf1 Hlen)
    as (w2 & E & Hwf2).
  set (wd := width_sum faces self None (zip text glyphs)) in *.
  set (ht := max_over Glyph.ascent glyphs + max_over Glyph.descent glyphs)
    in *.
  set (bl := max_over Glyph.descent glyphs) in *.
  assert (Forall (fun cg : char * Glyph.t =>
            sized (Glyph.bitmap cg.2) /\
            Bitmap.width (Glyph.bitmap cg.2) = Glyph.width cg.2 /\
            0 <= Glyph.advance_width cg.2 /\
            0 <= Font.glyph_y ht cg.2 bl /\
            Font.glyph_y ht cg.2 bl + Bitmap.height (Glyph.bitmap cg.2)
            <= ht) (zip text glyphs)) as Hfit.
  { apply list.Forall_forall. intros [c g] Hin.
    apply list_elem_of_lookup in Hin as [i Hi].
    apply lookup_zip_with_Some in Hi as (c' & g' & Heq & Ec & Egi).
    injection Heq as <- <-.
    pose proof (Forall2_lookup_lr _ _ _ _ _ _ HF Ec Egi) as Hcg.
    assert (c ∈ text) as Hc by (apply list_elem_of_lookup; eauto).
    assert (g ∈ glyphs) as Hgin by (apply list_elem_of_lookup; eauto).
    destruct (Hslots c Hc) as [Hwfs Hadv].
    destruct (from_glyphslot_run _ Hwfs)
      as (g0 & E0 & Hs & Hbw & Hbh & Hgw & Hgh & Hga & _).
    unfold glyph_of in Hcg. cbn [fst snd] in Hcg.
    rewrite E0 in Hcg. injection Hcg as ->.
    destruct (glyph_of_metrics faces (self, c) g E0) as (Ha & Hd & Hh).
    pose proof (max_over_ge Glyph.ascent glyphs g Hgin).
    pose proof (max_over_ge Glyph.descent glyphs g Hgin).
    cbn [snd]. split; [exact Hs|]. split; [congruence|].
    split; [rewrite Hga; apply Z.div_pos; lia|].
    unfold Font.glyph_y, ht, bl. lia. }
  assert (0 <= wd) as Hwd.
  { apply width_sum_nonneg; [exact Hkern|].
    eapply list.Forall_impl; [exact Hfit|]. intros cg H. apply H. }
  assert (0 <= ht) as Hht.
  { pose proof (max_over_nonneg Glyph.ascent glyphs).
    pose proof (max_over_nonneg Glyph.descent glyphs). unfold ht. lia. }
  split; [exact Hwd|]. split; [exact Hht|]. split.
  { apply (placements_in_bounds faces self Hkern);
      [lia|fold wd; lia|exact Hfit]. }
  intros Hsize.
  set (out := Bitmap.mk wd ht (replicate (Z.to_nat (wd * ht)) false)).
  destruct (render_loop_in_bounds faces self Hkern (zip text glyphs) ht bl
              out 0 None w2 Hwf2) as (b & w' & Eb).
  { repeat split; cbn; try lia. rewrite length_replicate. nia. }
  { lia. }
  { cbn. fold wd. lia. }
  { exact Hfit. }
  pose proof (render_loop_blits faces self (zip text glyphs) ht bl out 0
                None w2 Hwf2) as Hblits.
  rewrite Eb in Hblits. cbn [fst] in Hblits.
  pose proof (render_loop_shape _ _ _ _ _ _ _ _ _ _ _ Eb)
    as (Hbw & Hbh & Hbl).
  cbn in Hbw, Hbh, Hbl. rewrite length_replicate in Hbl.
  exists b, w'. split; [|split; [|split; [|split]]].
  - unfold Font.render_text.
    rewrite (bind_run _ _ _ _ _ Eg), (bind_run _ _ _ _ _ E).
    unfold Font.lift.
    rewrite bitmap_init_in_range by (split; [nia|exact Hsize]).
    unfold mbind at 1, Font.M_bind at 1. exact Eb.
  - repeat split; nia.
  - exact Hbw.
  - exact Hbh.
  - symmetry. exact Hblits.
Qed.

Lemma render_natural_succeeds_witness :
  exists glyphs,
    Forall2 (fun c g => glyph_of (fun _ => plain_face) (0%nat, c) = Ok g)
      [65%N; 86%N] glyphs /\
    let width :=
      width_sum (fun _ => plain_face) 0%nat None (zip [65%N; 86%N] glyphs) in
    let baseline := max_over Glyph.descent glyphs in
    let height := max_over Glyph.ascent glyphs + baseline in
    0 <= width /\ 0 <= height /\
    Forall (fun xg : Z * Glyph.t =>
              0 <= xg.1 /\
              xg.1 + Bitmap.width (Glyph.bitmap xg.2) <= width /\
              0 <= Font.glyph_y height xg.2 baseline /\
              Font.glyph_y height xg.2 baseline
              + Bitmap.height (Glyph.bitmap xg.2)
              <= height)
      (placements (fun _ => plain_face) 0%nat 0 None
         (zip [65%N; 86%N] glyphs)) /\
    (width * height <= np.intp_max ->
     exists b w',
       Font.render_text (fun _ => plain_face) 0%nat [65%N; 86%N] None
         Font.empty = (Ok b, w') /\
       sized b /\
       Bitmap.width b = width /\ Bitmap.height b = height /\
       blit_all height baseline
         (Bitmap.mk width height
            (replicate (Z.to_nat (width * height)) false))
         (placements (fun _ => plain_face) 0%nat 0 None
            (zip [65%N; 86%N] glyphs))
       = Ok b).
Proof.
  apply (render_natural_succeeds (fun _ => plain_face) 0%nat [65%N; 86%N]
           Font.empty).
  - apply wf_empty.
  - intros c _. repeat split; cbn; lia.
  - intros p c. cbn. lia.
Defined.

(** ** Rendering nothing *)

(** X7: rendering the empty text returns a canvas of width 0 with no
    pixel, of the requested height (0 when none is requested), without
    touching the caches or the face; the renderer then reports width 0,
    its [max_height] and no pixels. *)
Theorem render_empty :
  forall (faces : Font.obj -> FT.Face) (self : Font.obj)
         (height : option Z) (r : Renderer.t) (w : Font.World),
    Font.render_text faces self [] height w
    = (Ok (Bitmap.mk 0 (match height with Some h => h | None => 0 end) []),
       w) /\
    Renderer.call faces r [] w = (Ok (0, Renderer.max_height r, []), w).
Proof.
  intros faces self height r w. split.
  - destruct height; reflexivity.
  - reflexivity.
Qed.

(** ** A blit below the canvas *)

(** X8: a blit of a source at least two pixels wide and one pixel high,
    placed at or below the bottom edge of the canvas, raises [ValueError]
    and leaves the canvas as it was. *)
Theorem bitblt_below_raises :
  forall (dst src : Bitmap.t) (x y : Z),
    sized dst -> sized src ->
    2 <= Bitmap.width src -> 1 <= Bitmap.height src ->
    0 <= x -> Bitmap.height dst <= y ->
    Bitmap.bitblt dst src x y = (dst, Some ValueError).
Proof.
  intros [wd hd pd] [ws hs ps] x y (Hdw & Hdh & Hdl) (Hsw & Hsh & Hsl)
    Hw Hh Hx Hy.
  cbn in *. rewrite bitblt_eq. cbv zeta. cbn [Bitmap.width Bitmap.height
                                               Bitmap.pixels].
  destruct (Z.to_nat hs) as [|n] eqn:En; [lia|].
  cbn [Bitmap.bitblt_rows].
  assert (np.ior_slice pd (y * wd + x) (y * wd + x + ws)
            (np.getslice ps 0 (0 + ws)) = Raise ValueError) as E.
  { rewrite getslice_in_bounds by nia.
    unfold np.ior_slice.
    assert (length (np.getslice pd (y * wd + x) (y * wd + x + ws)) = 0%nat)
      as Hv.
    { rewrite getslice_length. unfold np.slice_len, np.adjust_index.
      destruct (Z.ltb_spec (y * wd + x + ws) 0); [nia|].
      destruct (Z.ltb_spec (y * wd + x) 0); [nia|].
      destruct (Z.leb_spec (Z.of_nat (length pd)) (y * wd + x + ws)); [|nia].
      destruct (Z.leb_spec (Z.of_nat (length pd)) (y * wd + x)); [|nia].
      lia. }
    rewrite Hv.
    assert (length (take (Z.to_nat ws) (drop (Z.to_nat 0) ps)) = Z.to_nat ws)
      as Hr.
    { rewrite length_take, length_drop. nia. }
    destruct (take (Z.to_nat ws) (drop (Z.to_nat 0) ps)) as [|r [|r' l]];
      cbn in Hr; try lia.
    destruct (decide (0%nat = length (r :: r' :: l))); [discriminate|].
    reflexivity. }
  rewrite E. reflexivity.
Qed.

Lemma bitblt_below_raises_witness :
  Bitmap.bitblt canvas_4x3 stamp_2x2 1 3 = (canvas_4x3, Some ValueError).
Proof.
  apply (bitblt_below_raises canvas_4x3 stamp_2x2 1 3);
    repeat split; cbn; lia.
Defined.

(** ** The kerning cache *)

(** X9: asking again for the kerning offset of the pair just asked for
    returns the same offset from the cache, without a query to the
    face. *)
Theorem kerning_offset_repeat :
  forall (faces : Font.obj -> FT.Face) (self : Font.obj)
         (previous_char : option char) (c : char) (w : Font.World),
    exists k w1 w2,
      Font.kerning_offset faces self previous_char c w = (Ok k, w1) /\
      Font.kerning_offset faces self previous_char c w1 = (Ok k, w2) /\
      Font.get_kerning_calls w2 = Font.get_kerning_calls w1.
Proof.
  intros faces self p c w.
  assert (forall k (rest : list (Font.kerning_key * Z)) w1,
            Font.kerning_cache w1 = ((self, p, c), k) :: rest ->
            exists w2,
              Font.kerning_offset faces self p c w1 = (Ok k, w2) /\
              Font.get_kerning_calls w2 = Font.get_kerning_calls w1)
    as Hhit.
  { intros k rest w1 Hc. unfold Font.kerning_offset, Font.cached.
    rewrite Hc. cbn. case_decide; [|contradiction].
    eexists; split; reflexivity. }
  unfold Font.kerning_offset at 1, Font.cached.
  destruct (lru.get (Font.kerning_cache w) (self, p, c)) as [v|] eqn:Eg.
  - eexists v, _. 
    destruct (Hhit v (lru.remove (self, p, c) (Font.kerning_cache w))
                (Font.set_kerning_cache
                   (lru.hit (self, p, c) v (Font.kerning_cache w)) w)
                eq_refl) as (w2 & E2 & Hlog).
    exists w2. split; [reflexivity|]. split; assumption.
  - cbn. eexists _, _.
    edestruct Hhit as (w2 & E2 & Hlog);
      [|exists w2; split; [reflexivity|split; [exact E2|exact Hlog]]].
    cbn. unfold lru.store. rewrite Eg. reflexivity.
Qed.

(** ** The size of the glyph cache *)

Section lru_bound.
Context {K V : Type} `{EqDecision K}.
Implicit Types (c : list (K * V)) (k : K) (v : V).

Lemma remove_length c k : (length (lru.remove k c) <= length c)%nat.
Proof.
  induction c as [|[k' v'] c IH]; cbn; [lia|].
  destruct (decide (k' = k)); cbn; lia.
Qed.

Lemma remove_length_hit c k v :
  lru.get c k = Some v -> (length (lru.remove k c) < length c)%nat.
Proof.
  induction c as [|[k' v'] c IH]; cbn; [discriminate|].
  destruct (decide (k' = k)).
  - intros _. pose proof (remove_length c k). lia.
  - intros Hg. cbn. apply IH in Hg. lia.
Qed.

Lemma hit_bounded c k v n :
  lru.get c k = Some v ->
  (length c <= n)%nat -> NoDup (lru.keys c) ->
  (length (lru.hit k v c) <= n)%nat /\ NoDup (lru.keys (lru.hit k v c)).
Proof.
  intros Hg Hlen Hnd. split.
  - cbn. apply remove_length_hit in Hg. lia.
  - cbn. apply list.NoDup_cons. split; [|now apply NoDup_keys_remove].
    intros Hin. now apply keys_remove in Hin as [_ Hin].
Qed.

Lemma store_bounded c k v :
  (length c <= lru.maxsize)%nat -> NoDup (lru.keys c) ->
  (length (lru.store k v c) <= lru.maxsize)%nat /\
  NoDup (lru.keys (lru.store k v c)).
Proof.
  intros Hlen Hnd. unfold lru.store.
  destruct (lru.get c k) eqn:Eg; [auto|]. split.
  - rewrite length_take. lia.
  - unfold lru.keys. rewrite <- firstn_map.
    eapply sublist_NoDup; [|apply sublist_take].
    cbn. apply list.NoDup_cons. split; [|exact Hnd].
    now apply get_None_keys.
Qed.

End lru_bound.

(** X10: the glyph cache never grows beyond 128 entries and never holds
    two entries for one key, whatever glyphs are asked for, on whatever
    font objects, and whether or not the calls succeed. *)
Theorem glyph_cache_bounded :
  forall (faces : Font.obj -> FT.Face) (qs : list Font.glyph_key)
         (w : Font.World),
    (length (Font.glyph_cache w) <= lru.maxsize)%nat ->
    NoDup (lru.keys (Font.glyph_cache w)) ->
    (length (Font.glyph_cache (after_queries faces qs w)) <= lru.maxsize)%nat
    /\ NoDup (lru.keys (Font.glyph_cache (after_queries faces qs w))).
Proof.
  intros faces qs. induction qs as [|[s ch] qs IH]; intros w Hlen Hnd.
  - auto.
  - cbn [after_queries foldl]. fold (after_queries faces qs).
    cbn [fst snd].
    assert ((length (Font.glyph_cache
                       (Font.glyph_for_character faces s ch w).2)
             <= lru.maxsize)%nat /\
            NoDup (lru.keys (Font.glyph_cache
                               (Font.glyph_for_character faces s ch w).2)))
      as [Hlen' Hnd'].
    { unfold Font.glyph_for_character, Font.cached.
      destruct (lru.get (Font.glyph_cache w) (s, ch)) as [v|] eqn:Eg.
      - cbn. apply (hit_bounded _ _ _ _ Eg); assumption.
      - cbn. destruct (Glyph.from_glyphslot (FT.load_char (faces s) ch));
          cbn; [|auto].
        now apply store_bounded. }
    now apply IH.
Qed.

Lemma glyph_cache_bounded_witness :
  (length (Font.glyph_cache
             (after_queries (fun _ => box_face)
                [(0%nat, 65%N); (0%nat, 86%N); (0%nat, 65%N)] Font.empty))
   <= lru.maxsize)%nat /\
  NoDup (lru.keys (Font.glyph_cache
                     (after_queries (fun _ => box_face)
                        [(0%nat, 65%N); (0%nat, 86%N); (0%nat, 65%N)]
                        Font.empty))).
Proof.
  apply (glyph_cache_bounded (fun _ => box_face)
           [(0%nat, 65%N); (0%nat, 86%N); (0%nat, 65%N)] Font.empty).
  - cbn. unfold lru.maxsize. lia.
  - constructor.
Defined.

(** ** Printing a bitmap *)

Lemma printed_row_app b s t y : printed_row b s y -> printed_row b (s ++ t) y.
Proof.
  intros [Hnl Hpx]. split.
  - now apply lookup_app_l_Some.
  - intros x Hx. destruct (Hpx x Hx) as (p & Hp & Hs).
    exists p. split; [exact Hp|]. now apply lookup_app_l_Some.
Qed.

Lemma lookup_snoc_here {A} (l : list A) (x : A) (i : nat) :
  i = length l -> (l ++ [x]) !! i = Some x.
Proof.
  intros ->. rewrite lookup_app_r by lia.
  now replace (length l - length l)%nat with 0%nat by lia.
Qed.

Lemma repr_row_run (b : Bitmap.t) (y : Z) (s : list ascii) :
  sized b -> 0 <= y < Bitmap.height b ->
  Z.of_nat (length s) = y * (Bitmap.width b + 1) ->
  (forall y', 0 <= y' < y -> printed_row b s y') ->
  exists s',
    Bitmap_repr_row b y s = Ok s' /\
    Z.of_nat (length s') = (y + 1) * (Bitmap.width b + 1) /\
    forall y', 0 <= y' < y + 1 -> printed_row b s' y'.
Proof.
  intros (Hw & Hh & Hl) Hy Hlen Hrows. unfold Bitmap_repr_row.
  destruct (for_range
    (fun j t =>
       Z.of_nat (length t) = y * (Bitmap.width b + 1) + j /\
       (forall y', 0 <= y' < y -> printed_row b t y') /\
       forall x, 0 <= x < j ->
         exists p,
           Bitmap.pixel b x y = Some p /\
           t !! Z.to_nat (y * (Bitmap.width b + 1) + x)
           = Some (if p then "#"%char else "."%char))
    (fun x rows =>
       p ← py.getitem (Bitmap.pixels b) (y * Bitmap.width b + x);
       mret (rows ++ [if p : bool then "#"%char else "."%char]))
    (Bitmap.width b) s) as (t & E & Ht & Hprev & Hrow).
  - split; [lia|]. split; [exact Hrows|]. intros; lia.
  - intros j t Hj (Htl & Htp & Htr).
    pose proof (row_major_bound _ _ j y Hj Hy) as Hb.
    destruct (getitem_in_range (Bitmap.pixels b) (y * Bitmap.width b + j))
      as (p & Hp & Eg); [lia|].
    rewrite Eg. cbn. eexists; split; [reflexivity|].
    split; [rewrite length_app; cbn; lia|]. split.
    + intros y' Hy'. apply printed_row_app. now apply Htp.
    + intros x Hx. destruct (decide (x = j)) as [->|Hne].
      * exists p. split.
        -- unfold Bitmap.pixel.
           destruct (Z.ltb_spec (y * Bitmap.width b + j) 0); [lia|].
           exact Hp.
        -- apply lookup_snoc_here. lia.
      * destruct (Htr x ltac:(lia)) as (q & Hq & Hs).
        exists q. split; [exact Hq|]. now apply lookup_app_l_Some.
  - rewrite E. cbn. eexists; split; [reflexivity|].
    replace (Z.max 0 (Bitmap.width b)) with (Bitmap.width b) in * by lia.
    split; [rewrite length_app; cbn; lia|].
    intros y' Hy'. destruct (decide (y' = y)) as [->|Hne].
    + split.
      * apply lookup_snoc_here. lia.
      * intros x Hx. destruct (Hrow x Hx) as (q & Hq & Hs).
        exists q. split; [exact Hq|]. now apply lookup_app_l_Some.
    + apply printed_row_app. apply Hprev. lia.
Qed.

(** X11: the printed form of a bitmap holding [width * height] pixels has
    [height] lines of [width] characters, each followed by a newline; the
    character for pixel (x, y) is [#] when the pixel is on and [.] when it
    is off. *)
Theorem bitmap_repr_rows :
  forall b : Bitmap.t,
    sized b ->
    exists s,
      Bitmap_repr b = Ok s /\
      Z.of_nat (length s) = Bitmap.height b * (Bitmap.width b + 1) /\
      forall y, 0 <= y < Bitmap.height b -> printed_row b s y.
Proof.
  intros b Hb. pose proof Hb as (Hw & Hh & Hl). unfold Bitmap_repr.
  destruct (for_range
    (fun k t =>
       Z.of_nat (length t) = k * (Bitmap.width b + 1) /\
       forall y, 0 <= y < k -> printed_row b t y)
    (Bitmap_repr_row b) (Bitmap.height b) []) as (s & E & Hs & Hrows).
  - split; [reflexivity|]. intros; lia.
  - intros k t Hk (Htl & Htr).
    destruct (repr_row_run b k t Hb Hk Htl Htr) as (t' & E' & Hl' & Hr').
    exists t'. auto.
  - exists s. replace (Z.max 0 (Bitmap.height b)) with (Bitmap.height b)
      in * by lia.
    auto.
Qed.

Lemma bitmap_repr_rows_witness :
  exists s,
    Bitmap_repr canvas_4x3 = Ok s /\
    Z.of_nat (length s) = 3 * (4 + 1) /\
    forall y, 0 <= y < 3 -> printed_row canvas_4x3 s y.
Proof.
  apply (bitmap_repr_rows canvas_4x3). repeat split; cbn; lia.
Defined.

(** ** Bitmaps that cannot be unpacked *)




Section unpack_errors.

Variable bitmap : FT.Bitmap.
Local Abbreviation W := (FT.width bitmap).
Local Abbreviation R := (FT.rows bitmap).
Local Abbreviation P := (FT.pitch bitmap).

Hypothesis HW : 0 <= W.




End unpack_errors.



(** ** The caches stay consistent through a render *)

Section wf_facts.

Variable faces : Font.obj -> FT.Face.

Lemma glyphs_of_wf self text :
  forall w, wf faces w -> wf faces (Font.glyphs_of faces self text w).2.
Proof.
  induction text as [|c rest IH]; intros w Hwf; [exact Hwf|].
  cbn [Font.glyphs_of]. unfold mbind, Font.M_bind.
  destruct (glyph_for_character_run faces self c w Hwf) as (w1 & E & Hwf1).
  rewrite E. destruct (glyph_of faces (self, c)) as [g|e]; [|exact Hwf1].
  specialize (IH w1 Hwf1).
  destruct (Font.glyphs_of faces self rest w1) as [[gs|e] w2]; exact IH.
Qed.

Lemma render_loop_wf self pairs :
  forall height baseline outbuffer x previous_char w,
    wf faces w ->
    wf faces (Font.render_loop faces self pairs height baseline outbuffer x
                previous_char w).2.
Proof.
  induction pairs as [|[c g] rest IH];
    intros height baseline out x prev w Hwf; [exact Hwf|].
  cbn [Font.render_loop].
  destruct (kerning_offset_run faces self prev c w Hwf)
    as (w1 & E1 & Hwf1 & _).
  rewrite (bind_run _ _ _ _ _ E1).
  destruct (Bitmap.bitblt out (Glyph.bitmap g) (x + kern faces self prev c)
              (Font.glyph_y height g baseline)) as [out' [e|]].
  - exact Hwf1.
  - now apply IH.
Qed.

Lemma render_text_wf self text height w :
  wf faces w -> wf faces (Font.render_text faces self text height w).2.
Proof.
  intros Hwf. unfold Font.render_text.
  pose proof (glyphs_of_wf self text w Hwf) as Hwf1.
  destruct (Font.glyphs_of faces self text w) as [[glyphs|e] w1] eqn:Eg.
  2:{ unfold mbind, Font.M_bind. now rewrite Eg. }
  rewrite (bind_run _ _ _ _ _ Eg). cbn [snd] in Hwf1.
  destruct (glyphs_of_run faces self text w glyphs w1 Hwf Eg) as [HF _].
  pose proof (list.Forall2_length _ _ _ HF) as Hlen.
  destruct (text_dimensions_run faces self text glyphs w1 Hwf1 Hlen)
    as (w2 & E & Hwf2).
  rewrite (bind_run _ _ _ _ _ E).
  unfold mbind at 1, Font.M_bind at 1. unfold Font.lift.
  destruct (Bitmap.init _ _ None) as [out|e]; [|exact Hwf2].
  now apply render_loop_wf.
Qed.

Lemma renderer_call_wf r sentence w :
  wf faces w -> wf faces (Renderer.call faces r sentence w).2.
Proof.
  intros Hwf. unfold Renderer.call.
  pose proof (render_text_wf (Renderer.font r) sentence
                (Some (Renderer.max_height r)) w Hwf) as H.
  unfold mbind, Font.M_bind.
  destruct (Font.render_text faces (Renderer.font r) sentence
              (Some (Renderer.max_height r)) w) as [[b|e] w1]; exact H.
Qed.

End wf_facts.

(** ** Rendering the lines of a corpus *)

(** X13: processing the lines of a split never stops for a differing
    height: either the renderer raises, or every line is rendered, and
    then each recorded length is the number of pixels of its bitmap. *)
Theorem height_never_differs :
  forall (faces : Font.obj -> FT.Face) (strip : list char -> list char)
         (renderer : Renderer.t) (lines : list (list char)) (idx : Z)
         (bitmaps : list (list Z)) (lens : list Z) (w : Font.World),
    wf faces w ->
    Forall2 (fun bmp leng => Z.of_nat (length bmp) = leng) bitmaps lens ->
    match (vitex.render_lines faces strip renderer
             (Renderer.max_height renderer) lines idx bitmaps lens w).1 with
    | inl (vitex.HeightDiffered _) => False
    | inl (vitex.Raised _) => True
    | inr (bitmaps', lens') =>
        Forall2 (fun bmp leng => Z.of_nat (length bmp) = leng)
          bitmaps' lens' /\
        length bitmaps' = (length bitmaps + length lines)%nat
    end.
Proof.
  intros faces strip renderer lines.
  induction lines as [|line rest IH]; intros idx bitmaps lens w Hwf HF.
  - cbn. split; [exact HF|lia].
  - cbn [vitex.render_lines].
    pose proof (renderer_call_wf faces renderer (strip line) w Hwf) as Hwf1.
    destruct (Renderer.call faces renderer (strip line) w)
      as [[[[width height] pixels]|e] w1] eqn:E; [|exact I].
    destruct (renderer_call_shape faces renderer (strip line) w w1 width
                height pixels Hwf E) as (Hh & Hl & _).
    destruct (decide (height <> Renderer.max_height renderer));
      [contradiction|].
    specialize (IH (idx + 1) (bitmaps ++ [pixels]) (lens ++ [height * width])
                  w1 Hwf1).
    destruct (vitex.render_lines faces strip renderer
                (Renderer.max_height renderer) rest (idx + 1)
                (bitmaps ++ [pixels]) (lens ++ [height * width]) w1).1
      as [[e|l]|[bs ls]].
    + exact I.
    + apply IH. apply Forall2_app; [exact HF|]. constructor; [lia|constructor].
    + destruct IH as [HF' Hlen'].
      { apply Forall2_app; [exact HF|]. constructor; [lia|constructor]. }
      split; [exact HF'|]. rewrite Hlen', length_app. cbn. lia.
Qed.

Lemma height_never_differs_witness :
  match (vitex.render_lines (fun _ => box_face) (fun line => line)
           (Renderer.mk 0%nat 2) (Renderer.max_height (Renderer.mk 0%nat 2))
           [[65%N; 86%N]; []] 0 [] [] Font.empty).1 with
  | inl (vitex.HeightDiffered _) => False
  | inl (vitex.Raised _) => True
  | inr (bitmaps', lens') =>
      Forall2 (fun bmp leng => Z.of_nat (length bmp) = leng) bitmaps' lens' /\
      length bitmaps' = (length (@nil (list Z)) + 2)%nat
  end.
Proof.
  apply (height_never_differs (fun _ => box_face) (fun line => line)
           (Renderer.mk 0%nat 2) [[65%N; 86%N]; []] 0 [] [] Font.empty).
  - apply wf_empty.
  - constructor.
Defined.

(** ** Packing the bitmaps and reading them back *)

Lemma setslice_in_bounds (a : list bool) (s : Z) (rhs : list Z) :
  0 <= s -> s + Z.of_nat (length rhs) <= Z.of_nat (length a) ->
  vitex.setslice a s (s + Z.of_nat (length rhs)) rhs
  = Ok (take (Z.to_nat s) a ++ as_bools rhs
          ++ drop (Z.to_nat s + length rhs) a).
Proof.
  intros Hs Hfit. unfold vitex.setslice, np.slice_start, np.slice_len.
  rewrite !adjust_index_id by lia.
  replace (Z.to_nat (s + Z.of_nat (length rhs) - s)) with (length rhs)
    by lia.
  destruct (decide (length rhs = length rhs)); [reflexivity|contradiction].
Qed.

Lemma foldl_add_shift (l : list Z) (a : Z) :
  foldl Z.add a l = a + foldr Z.add 0 l.
Proof.
  revert a. induction l as [|x l IH]; intros a; cbn; [lia|].
  rewrite IH. lia.
Qed.

(** The filling loop lays the bitmaps end to end after what is already
    there, and records where each one lies. *)
Lemma fill_run (items : list (list Z * Z)) :
  forall (pre rest : list bool) (s : Z) (slices : list (Z * Z)),
    Z.of_nat (length pre) = s ->
    Forall (fun it : list Z * Z => Z.of_nat (length it.1) = it.2) items ->
    Z.of_nat (length rest) = foldr Z.add 0 items.*2 ->
    vitex.fill items s (pre ++ rest) slices
    = Ok (pre ++ concat (map as_bools items.*1),
          slices ++ offsets s items.*2).
Proof.
  induction items as [|[bmp leng] items IH];
    intros pre rest s slices Hpre HF Hrest.
  - cbn in *. destruct rest; [|cbn in Hrest; lia].
    now rewrite !app_nil_r.
  - apply list.Forall_cons in HF as [Hlen HF]. cbn in Hlen, Hrest.
    assert (0 <= foldr Z.add 0 items.*2) as Hnn.
    { clear -HF. induction HF as [|[b l] its Hb _ IH']; cbn in *; lia. }
    cbn [vitex.fill]. rewrite <- Hlen.
    rewrite setslice_in_bounds by (rewrite ?length_app; lia).
    cbn. rewrite take_app_length' by lia.
    replace (Z.to_nat s + length bmp)%nat
      with (length pre + length bmp)%nat by lia.
    rewrite drop_app_add'; [|reflexivity].
    rewrite (app_assoc pre (as_bools bmp)).
    rewrite IH.
    + rewrite <- !app_assoc. cbn. rewrite Hlen. reflexivity.
    + unfold as_bools. rewrite length_app, length_map. lia.
    + exact HF.
    + rewrite length_drop. lia.
Qed.

(** The [i]-th recorded slice of the packed array is the [i]-th bitmap. *)
Lemma offsets_getslice (bitmaps : list (list Z)) :
  forall (lens : list Z) (pre : list bool) (s : Z) (i : nat) (bmp : list Z),
    Forall2 (fun bmp leng => Z.of_nat (length bmp) = leng) bitmaps lens ->
    Z.of_nat (length pre) = s ->
    bitmaps !! i = Some bmp ->
    exists a b,
      offsets s lens !! i = Some (a, b) /\
      np.getslice (pre ++ concat (map as_bools bitmaps)) a b = as_bools bmp.
Proof.
  induction bitmaps as [|b0 bitmaps IH];
    intros lens pre s i bmp HF Hpre Hi; [discriminate|].
  apply Forall2_cons_inv_l in HF as (leng & lens' & Hl & HF & ->).
  destruct i as [|i]; cbn in Hi.
  - injection Hi as ->. exists s, (s + leng). split; [reflexivity|].
    cbn. rewrite <- Hl.
    assert (length (as_bools bmp) = length bmp) as Hab
      by (unfold as_bools; apply length_map).
    rewrite getslice_in_bounds by (rewrite ?length_app; lia).
    replace (Z.to_nat s) with (length pre) by lia.
    rewrite drop_app_length.
    rewrite take_app_length'; [reflexivity|lia].
  - cbn [offsets map concat].
    rewrite (app_assoc pre (as_bools b0)).
    apply (IH lens' (pre ++ as_bools b0) (s + leng) i bmp HF); [|exact Hi].
    unfold as_bools. rewrite length_app, length_map. lia.
Qed.

(** X14: packing bitmaps whose recorded lengths are their numbers of
    pixels succeeds; the packed array is the bitmaps laid end to end,
    whatever memory [np.empty] returned; the recorded slices lie end to
    end from 0; and reading the [i]-th slice of the array gives back the
    [i]-th bitmap. *)
Theorem pack_roundtrip :
  forall (junk : nat -> bool) (bitmaps : list (list Z)) (lens : list Z),
    Forall2 (fun bmp leng => Z.of_nat (length bmp) = leng) bitmaps lens ->
    exists data slices,
      vitex.pack junk bitmaps lens = Ok (data, slices) /\
      data = concat (map as_bools bitmaps) /\
      slices = offsets 0 lens /\
      forall i bmp,
        bitmaps !! i = Some bmp ->
        exists a b,
          slices !! i = Some (a, b) /\
          np.getslice data a b = as_bools bmp.
Proof.
  intros junk bitmaps lens HF.
  pose proof (list.Forall2_length _ _ _ HF) as Hlen.
  assert (Forall (fun it : list Z * Z => Z.of_nat (length it.1) = it.2)
            (zip bitmaps lens)) as Hitems.
  { clear Hlen. induction HF; cbn; constructor; auto. }
  assert (0 <= foldr Z.add 0 lens) as Hnn.
  { clear -HF. induction HF; cbn; lia. }
  exists (concat (map as_bools bitmaps)), (offsets 0 lens).
  split; [|split; [reflexivity|split; [reflexivity|]]].
  - unfold vitex.pack, vitex.empty. cbv zeta.
    rewrite foldl_add_shift.
    destruct (Z.ltb_spec (0 + foldr Z.add 0 lens) 0); [lia|]. cbn.
    pose proof (fill_run (zip bitmaps lens) []
                  (map junk (seq 0 (Z.to_nat (0 + foldr Z.add 0 lens)))) 0 []
                  eq_refl Hitems) as Hfill.
    rewrite fst_zip, snd_zip in Hfill by lia.
    cbn in Hfill. apply Hfill.
    rewrite length_map, length_seq. lia.
  - intros i bmp Hi.
    apply (offsets_getslice bitmaps lens [] 0 i bmp HF eq_refl Hi).
Qed.

Lemma pack_roundtrip_witness :
  exists data slices,
    vitex.pack (fun _ => true) [[1; 0; 1]; []; [0; 1]] [3; 0; 2]
    = Ok (data, slices) /\
    data = concat (map as_bools [[1; 0; 1]; []; [0; 1]]) /\
    slices = offsets 0 [3; 0; 2] /\
    forall i bmp,
      [[1; 0; 1]; []; [0; 1]] !! i = Some bmp ->
      exists a b,
        slices !! i = Some (a, b) /\
        np.getslice data a b = as_bools bmp.
Proof.
  apply (pack_roundtrip (fun _ => true) [[1; 0; 1]; []; [0; 1]] [3; 0; 2]).
  repeat constructor.
Defined.

(** ** The dimensions of a concatenated text *)

Section concat_facts.

Variable faces : Font.obj -> FT.Face.
Variable self : Font.obj.

Lemma width_sum_app p1 :
  forall prev p2,
    width_sum faces self prev (p1 ++ p2)
    = width_sum faces self prev p1
      + width_sum faces self (foldl (fun _ cg => Some cg.1) prev p1) p2.
Proof.
  induction p1 as [|[c g] p1 IH]; intros prev p2; cbn; [lia|].
  rewrite IH. lia.
Qed.

Lemma previous_after_zip (t : list char) :
  forall (g : list Glyph.t) prev,
    length t = length g ->
    foldl (fun _ (cg : char * Glyph.t) => Some cg.1) prev (zip t g)
    = previous_after prev t.
Proof.
  induction t as [|c t IH]; intros [|g0 g] prev Hlen; try discriminate;
    [reflexivity|].
  cbn. apply IH. cbn in Hlen. lia.
Qed.

Lemma width_sum_previous prev pairs :
  width_sum faces self prev pairs
  = width_sum faces self None pairs
    + match pairs with
      | [] => 0
      | (c, _) :: _ => kern faces self prev c - kern faces self None c
      end.
Proof. destruct pairs as [|[c g] rest]; cbn; lia. Qed.

Lemma max_over_app metric (l1 l2 : list Glyph.t) :
  max_over metric (l1 ++ l2)
  = Z.max (max_over metric l1) (max_over metric l2).
Proof.
  induction l1 as [|g l1 IH]; cbn.
  - pose proof (max_over_nonneg metric l2). fold (max_over metric l2). lia.
  - fold (max_over metric (l1 ++ l2)). fold (max_over metric l1).
    rewrite IH. lia.
Qed.

End concat_facts.

(** X15: the dimensions of two texts put together follow from the
    dimensions of each: the baseline and the extent above it are the
    larger of the two, and the width is the sum of the two widths,
    corrected at the junction by the kerning of the second text's first
    character after the first text's last one instead of after none. *)
Theorem text_dimensions_concat :
  forall (faces : Font.obj -> FT.Face) (self : Font.obj)
         (t1 t2 : list char) (g1 g2 : list Glyph.t) (w : Font.World),
    wf faces w ->
    length t1 = length g1 -> length t2 = length g2 ->
    exists W1 H1 B1 W2 H2 B2,
      (Font.text_dimensions faces self t1 g1 w).1 = Ok (W1, H1, B1) /\
      (Font.text_dimensions faces self t2 g2 w).1 = Ok (W2, H2, B2) /\
      (Font.text_dimensions faces self (t1 ++ t2) (g1 ++ g2) w).1
      = Ok (W1 + W2
            + match t2 with
              | [] => 0
              | c :: _ => kern faces self (previous_after None t1) c
                          - kern faces self None c
              end,
            Z.max (H1 - B1) (H2 - B2) + Z.max B1 B2,
            Z.max B1 B2).
Proof.
  intros faces self t1 t2 g1 g2 w Hwf Hl1 Hl2.
  destruct (text_dimensions_run faces self t1 g1 w Hwf Hl1) as (w1 & E1 & _).
  destruct (text_dimensions_run faces self t2 g2 w Hwf Hl2) as (w2 & E2 & _).
  destruct (text_dimensions_run faces self (t1 ++ t2) (g1 ++ g2) w Hwf)
    as (w3 & E3 & _); [rewrite !length_app; lia|].
  rewrite E1, E2, E3. cbn [fst].
  eexists _, _, _, _, _, _. split; [reflexivity|]. split; [reflexivity|].
  rewrite (zip_with_app pair t1 t2 g1 g2 Hl1).
  rewrite width_sum_app, previous_after_zip by exact Hl1.
  rewrite (width_sum_previous faces self (previous_after None t1)).
  rewrite !max_over_app.
  f_equal. repeat apply (f_equal2 pair); [|lia|reflexivity].
  destruct t2 as [|c t2], g2 as [|g g2]; try discriminate; cbn; lia.
Qed.

Lemma text_dimensions_concat_witness :
  exists W1 H1 B1 W2 H2 B2,
    (Font.text_dimensions (fun _ => box_face) 0%nat [65%N] [glyph_A]
       Font.empty).1 = Ok (W1, H1, B1) /\
    (Font.text_dimensions (fun _ => box_face) 0%nat [86%N] [glyph_V]
       Font.empty).1 = Ok (W2, H2, B2) /\
    (Font.text_dimensions (fun _ => box_face) 0%nat ([65%N] ++ [86%N])
       ([glyph_A] ++ [glyph_V]) Font.empty).1
    = Ok (W1 + W2
          + (kern (fun _ => box_face) 0%nat (previous_after None [65%N]) 86%N
             - kern (fun _ => box_face) 0%nat None 86%N),
          Z.max (H1 - B1) (H2 - B2) + Z.max B1 B2,
          Z.max B1 B2).
Proof.
  apply (text_dimensions_concat (fun _ => box_face) 0%nat [65%N] [86%N]
           [glyph_A] [glyph_V] Font.empty).
  - apply wf_empty.
  - reflexivity.
  - reflexivity.
Defined.

(** ** Rendering one character *)

(** A blit inside the canvas, pixel by pixel. *)
Lemma bitblt_pixels dst src x y :
  sized dst -> sized src ->
  0 <= x -> 0 <= y ->
  x + Bitmap.width src <= Bitmap.width dst ->
  y + Bitmap.height src <= Bitmap.height dst ->
  exists b,
    Bitmap.bitblt dst src x y = (b, None) /\
    Bitmap.width b = Bitmap.width dst /\
    Bitmap.height b = Bitmap.height dst /\
    forall px py,
      0 <= px < Bitmap.width dst -> 0 <= py < Bitmap.height dst ->
      if decide (x <= px < x + Bitmap.width src /\
                 y <= py < y + Bitmap.height src)
      then exists old new,
             Bitmap.pixel dst px py = Some old /\
             Bitmap.pixel src (px - x) (py - y) = Some new /\
             Bitmap.pixel b px py = Some (old || new)
      else Bitmap.pixel b px py = Bitmap.pixel dst px py.
Proof.
  intros (Hdw & Hdh & Hdl) (Hsw & Hsh & Hsl) Hx Hy Hxw Hyh.
  destruct (bitblt_rows_in_bounds (Bitmap.pixels src) (Bitmap.width src)
              (Bitmap.width dst) ltac:(lia)
              (Z.to_nat (Bitmap.height src)) (Bitmap.pixels dst) 0
              (y * Bitmap.width dst + x))
    as (px' & E & Hl & Hin & Hout); [lia|nia|nia|nia|].
  rewrite bitblt_eq. cbv zeta. rewrite E. cbn [fst snd].
  eexists; split; [reflexivity|]. cbn [Bitmap.width Bitmap.height].
  split; [reflexivity|]. split; [reflexivity|].
  intros px py Hpx Hpy.
  pose proof (row_major_bound _ _ px py Hpx Hpy) as Hb.
  unfold Bitmap.pixel at 3 4. cbn [Bitmap.width Bitmap.pixels].
  destruct (Z.ltb_spec (py * Bitmap.width dst + px) 0); [lia|].
  destruct (decide (x <= px < x + Bitmap.width src /\
                    y <= py < y + Bitmap.height src)) as [[Hrx Hry]|Hout'].
  - specialize (Hin (py - y) (px - x) ltac:(lia) ltac:(lia)).
    replace (y * Bitmap.width dst + x + (py - y) * Bitmap.width dst
             + (px - x))
      with (py * Bitmap.width dst + px) in Hin by lia.
    replace (0 + (py - y) * Bitmap.width src + (px - x))
      with ((py - y) * Bitmap.width src + (px - x)) in Hin by lia.
    pose proof (row_major_bound (Bitmap.width src) (Bitmap.height src)
                  (px - x) (py - y) ltac:(lia) ltac:(lia)) as Hb2.
    destruct (lookup_lt_is_Some_2 (Bitmap.pixels dst)
                (Z.to_nat (py * Bitmap.width dst + px)) ltac:(lia))
      as [old Hold].
    destruct (lookup_lt_is_Some_2 (Bitmap.pixels src)
                (Z.to_nat ((py - y) * Bitmap.width src + (px - x)))
                ltac:(lia)) as [new Hnew].
    exists old, new. unfold Bitmap.pixel.
    destruct (Z.ltb_spec (py * Bitmap.width dst + px) 0); [lia|].
    destruct (Z.ltb_spec ((py - y) * Bitmap.width src + (px - x)) 0); [lia|].
    split; [exact Hold|]. split; [exact Hnew|].
    rewrite Hin, Hold, Hnew. reflexivity.
  - unfold Bitmap.pixel.
    destruct (Z.ltb_spec (py * Bitmap.width dst + px) 0); [lia|].
    apply Hout. intros r Hr Hin'. apply Hout'.
    destruct (row_major_inj (Bitmap.width dst) px py
                (Z.of_nat (Z.to_nat (py * Bitmap.width dst + px))
                 - (y + r) * Bitmap.width dst) (y + r))
      as [Hy' Hx']; [lia|lia|lia|]. lia.
Qed.

(** X16: a single character with a well-formed glyph slot, a
    non-negative advance and a non-negative kerning [k] after none has a
    glyph, and when the canvas for it, of width
    [max(advance_width, width) + k] and height [ascent + descent], has a
    number of pixels in numpy's index range, rendering the character at
    the natural height returns a canvas of that width and height that
    shows the packed bitmap of the slot, [k] pixels from the left and at
    the top, and is off everywhere else. *)
Theorem render_single_character :
  forall (faces : Font.obj -> FT.Face) (self : Font.obj) (c : char)
         (w : Font.World),
    wf faces w ->
    well_formed (FT.bitmap (FT.load_char (faces self) c)) ->
    0 <= FT.advance_x (FT.load_char (faces self) c) ->
    0 <= FT.get_kerning (faces self) None c ->
    exists g,
      glyph_of faces (self, c) = Ok g /\
      ((Z.max (Glyph.advance_width g) (Glyph.width g)
        + kern faces self None c)
       * (Glyph.ascent g + Glyph.descent g) <= np.intp_max ->
       exists b w',
         Font.render_text faces self [c] None w = (Ok b, w') /\
         Bitmap.width b
         = Z.max (Glyph.advance_width g) (Glyph.width g)
           + kern faces self None c /\
         Bitmap.height b = Glyph.ascent g + Glyph.descent g /\
         forall px py,
           0 <= px < Bitmap.width b -> 0 <= py < Bitmap.height b ->
           Bitmap.pixel b px py
           = if decide (kern faces self None c <= px
                          < kern faces self None c + Glyph.width g /\
                        py < Glyph.height g)
             then packed_pixel (FT.bitmap (FT.load_char (faces self) c))
                    (px - kern faces self None c) py
             else Some false).
Proof.
  intros faces self c w Hwf Hslot Hadv Hkern.
  destruct (from_glyphslot_run _ Hslot)
    as (g & Eg & Hgs & Hbw & Hbh & Hgw & Hgh & Hga & Hgpx).
  assert (glyph_of faces (self, c) = Ok g) as Hg by exact Eg.
  destruct (glyph_of_metrics faces (self, c) g Hg) as (Ha & Hd & Hh).
  exists g. split; [exact Hg|].
  set (k := kern faces self None c).
  intros Hsize.
  assert (0 <= k) as Hk by (apply Z.div_pos; [exact Hkern|lia]).
  assert (0 <= Glyph.advance_width g) as Hadv'
    by (rewrite Hga; apply Z.div_pos; lia).
  destruct (glyph_for_character_run faces self c w Hwf) as (w1 & E1 & Hwf1).
  rewrite Hg in E1.
  assert (Font.glyphs_of faces self [c] w = (Ok [g], w1)) as Egs.
  { cbn [Font.glyphs_of]. rewrite (bind_run _ _ _ _ _ E1). reflexivity. }
  destruct (text_dimensions_run faces self [c] [g] w1 Hwf1 eq_refl)
    as (w2 & Ed & Hwf2).
  cbn [zip_with width_sum max_over foldr] in Ed. fold k in Ed.
  destruct (kerning_offset_run faces self None c w2 Hwf2)
    as (w3 & Ek & _ & _). fold k in Ek.
  set (wd := Z.max (Glyph.advance_width g + k) (Glyph.width g + k) + 0) in *.
  set (ht := Z.max (Glyph.ascent g) 0 + Z.max (Glyph.descent g) 0) in *.
  set (bl := Z.max (Glyph.descent g) 0) in *.
  assert (Font.glyph_y ht g bl = 0) as Hy0
    by (unfold Font.glyph_y, ht, bl; lia).
  pose proof Hgs as (Hsw & Hsh & Hsl).
  set (out := Bitmap.mk wd ht (replicate (Z.to_nat (wd * ht)) false)).
  assert (sized out) as Hout.
  { unfold out. repeat split; cbn; try lia.
    rewrite length_replicate. nia. }
  destruct (bitblt_pixels out (Glyph.bitmap g) (0 + k) 0 Hout Hgs)
    as (b & Eb & Hbw' & Hbh' & Hpx); [lia|lia|cbn; lia|cbn; lia|].
  assert (wd * ht <= np.intp_max) as Hsize'.
  { replace (wd * ht)
      with ((Z.max (Glyph.advance_width g) (Glyph.width g) + k)
            * (Glyph.ascent g + Glyph.descent g));
      [exact Hsize|]. unfold wd, ht. f_equal; lia. }
  exists b, w3.
  split; [|split; [cbn in Hbw'; lia|split; [cbn in Hbh'; lia|]]].
  - unfold Font.render_text.
    rewrite (bind_run _ _ _ _ _ Egs), (bind_run _ _ _ _ _ Ed).
    unfold Font.lift. fold wd ht bl.
    rewrite bitmap_init_in_range by (split; [nia|exact Hsize']).
    unfold mbind at 1, Font.M_bind at 1. fold out.
    cbn [zip_with Font.render_loop].
    rewrite (bind_run _ _ _ _ _ Ek). rewrite Hy0, Eb. reflexivity.
  - intros px py Hpx' Hpy'. cbn in Hbw', Hbh'.
    specialize (Hpx px py ltac:(cbn; lia) ltac:(cbn; lia)).
    assert (Bitmap.pixel out px py = Some false) as Hzero.
    { unfold Bitmap.pixel, out. cbn.
      pose proof (row_major_bound wd ht px py ltac:(lia) ltac:(lia)).
      destruct (Z.ltb_spec (py * wd + px) 0); [lia|].
      apply lookup_replicate_2. lia. }
    destruct (decide (0 + k <= px < 0 + k + Bitmap.width (Glyph.bitmap g) /\
                      0 <= py < 0 + Bitmap.height (Glyph.bitmap g)))
      as [[Hrx Hry]|Hno].
    + destruct (decide (k <= px < k + Glyph.width g /\ py < Glyph.height g))
        as [_|Hc]; [|lia].
      destruct Hpx as (old & new & Hold & Hnew & Hres).
      rewrite Hzero in Hold. injection Hold as <-.
      replace (px - (0 + k)) with (px - k) in Hnew by lia.
      replace (py - 0) with py in Hnew by lia.
      destruct (Hgpx (px - k) py ltac:(lia) ltac:(lia)) as [_ Hpp].
      rewrite Hres. cbn. rewrite <- Hnew. exact Hpp.
    + destruct (decide (k <= px < k + Glyph.width g /\ py < Glyph.height g))
        as [Hc|_]; [lia|].
      now rewrite Hpx.
Qed.

Lemma render_single_character_witness :
  exists g,
    glyph_of (fun _ => box_face) (0%nat, 65%N) = Ok g /\
    ((Z.max (Glyph.advance_width g) (Glyph.width g)
      + kern (fun _ => box_face) 0%nat None 65%N)
     * (Glyph.ascent g + Glyph.descent g) <= np.intp_max ->
     exists b w',
       Font.render_text (fun _ => box_face) 0%nat [65%N] None Font.empty
       = (Ok b, w') /\
       Bitmap.width b
       = Z.max (Glyph.advance_width g) (Glyph.width g)
         + kern (fun _ => box_face) 0%nat None 65%N /\
       Bitmap.height b = Glyph.ascent g + Glyph.descent g /\
       forall px py,
         0 <= px < Bitmap.width b -> 0 <= py < Bitmap.height b ->
         Bitmap.pixel b px py
         = if decide (kern (fun _ => box_face) 0%nat None 65%N <= px
                        < kern (fun _ => box_face) 0%nat None 65%N
                          + Glyph.width g /\
                      py < Glyph.height g)
           then packed_pixel (FT.bitmap (FT.load_char box_face 65%N))
                  (px - kern (fun _ => box_face) 0%nat None 65%N) py
           else Some false).
Proof.
  apply (render_single_character (fun _ => box_face) 0%nat 65%N Font.empty).
  - apply wf_empty.
  - repeat split; cbn; lia.
  - cbn. lia.
  - cbn. lia.
Defined.

(** ** What a rendered canvas shows *)

Section render_pixels.

Variable faces : Font.obj -> FT.Face.
Variable self : Font.obj.
Hypothesis kerning_nonneg : forall p c, 0 <= FT.get_kerning (faces self) p c.

(** The drawing loop turns on exactly the pixels that some glyph shows
    at its place, and leaves on those that were on. *)
Lemma render_loop_pixels pairs height baseline :
  forall outbuffer x previous_char w,
    wf faces w -> sized outbuffer ->
    0 <= x ->
    x + width_sum faces self previous_char pairs <= Bitmap.width outbuffer ->
    Forall (fun cg : char * Glyph.t =>
              sized (Glyph.bitmap cg.2) /\
              Bitmap.width (Glyph.bitmap cg.2) = Glyph.width cg.2 /\
              0 <= Glyph.advance_width cg.2 /\
              0 <= Font.glyph_y height cg.2 baseline /\
              Font.glyph_y height cg.2 baseline
              + Bitmap.height (Glyph.bitmap cg.2)
              <= Bitmap.height outbuffer) pairs ->
    exists b w',
      Font.render_loop faces self pairs height baseline outbuffer x
        previous_char w = (Ok b, w') /\
      forall px py,
        0 <= px < Bitmap.width outbuffer ->
        0 <= py < Bitmap.height outbuffer ->
        (Bitmap.pixel b px py = Some true <->
         Bitmap.pixel outbuffer px py = Some true \/
         exists xg g,
           (xg, g) ∈ placements faces self x previous_char pairs /\
           shows xg (Font.glyph_y height g baseline) g px py).
Proof.
  induction pairs as [|[c g] rest IH];
    intros out x prev w Hwf Hout Hx Hroom HF.
  - exists out, w. split; [reflexivity|]. intros px py _ _. split; [auto|].
    intros [H|(xg & g & Hin & _)]; [exact H|].
    now apply elem_of_nil in Hin.
  - apply list.Forall_cons in HF as [(Hgs & Hgw & Hadv & Hy & Hyh) HF].
    cbn [snd] in *. cbn [width_sum] in Hroom.
    assert (0 <= width_sum faces self (Some c) rest) as Hrest.
    { apply width_sum_nonneg; [exact kerning_nonneg|].
      eapply list.Forall_impl; [exact HF|]. intros cg H. apply H. }
    pose proof (kern_nonneg faces self kerning_nonneg prev c) as Hk.
    cbn [Font.render_loop placements].
    destruct (kerning_offset_run faces self prev c w Hwf)
      as (w1 & E1 & Hwf1 & _).
    rewrite (bind_run _ _ _ _ _ E1).
    set (x1 := x + kern faces self prev c) in *.
    set (y1 := Font.glyph_y height g baseline) in *.
    destruct (bitblt_pixels out (Glyph.bitmap g) x1 y1 Hout Hgs)
      as (out1 & E & Hw1 & Hh1 & Hpx); [lia|lia|lia|lia|].
    rewrite E.
    assert (sized out1) as Hout1.
    { pose proof (bitblt_shape out (Glyph.bitmap g) x1 y1) as (_ & _ & Hl).
      rewrite E in Hl. cbn in Hl. destruct Hout as (H1 & H2 & H3).
      repeat split; lia. }
    destruct (IH out1 (x1 + Glyph.advance_width g) (Some c) w1 Hwf1 Hout1)
      as (b & w' & Eb & Hb); [lia|lia|now rewrite Hh1|].
    exists b, w'. split; [exact Eb|].
    intros px py Hpx' Hpy'.
    rewrite (Hb px py) by lia.
    specialize (Hpx px py Hpx' Hpy').
    assert (Bitmap.pixel out1 px py = Some true <->
            Bitmap.pixel out px py = Some true \/ shows x1 y1 g px py)
      as Hstep.
    { unfold shows.
      destruct (decide (x1 <= px < x1 + Bitmap.width (Glyph.bitmap g) /\
                        y1 <= py < y1 + Bitmap.height (Glyph.bitmap g)))
        as [[Hrx Hry]|Hno].
      - destruct Hpx as (old & new & Hold & Hnew & Hres).
        rewrite Hres, Hold, Hnew. split.
        + intros [= Hor]. apply orb_true_iff in Hor as [->| ->]; auto.
        + intros [[= ->]|(_ & _ & [= ->])]; [reflexivity|].
          now rewrite orb_true_r.
      - rewrite Hpx. split; [auto|]. intros [H|(H1 & H2 & _)]; [exact H|].
        exfalso. apply Hno. auto. }
    rewrite Hstep. split.
    + intros [[H|H]|(xg & g' & Hin & Hs)]; [auto| |].
      * right. exists x1, g. split; [left|exact H].
      * right. exists xg, g'. split; [now right|exact Hs].
    + intros [H|(xg & g' & Hin & Hs)]; [auto|].
      apply elem_of_cons in Hin as [[= -> ->]|Hin]; [auto|].
      right. exists xg, g'. auto.
Qed.

End render_pixels.

(** X17: when every glyph slot of the text is well formed with a
    non-negative advance and the face reports no negative kerning, and
    the canvas of the text at its natural height has a number of pixels in
    numpy's index range, the canvas [render_text] returns without a
    height has a pixel on exactly where some glyph of the text, drawn at
    its cursor position and on the common baseline, has a pixel on:
    overlapping glyphs are OR-ed and nothing else is drawn. *)
Theorem render_shows_glyphs :
  forall (faces : Font.obj -> FT.Face) (self : Font.obj)
         (text : list char) (w : Font.World),
    wf faces w ->
    (forall c, c ∈ text ->
       well_formed (FT.bitmap (FT.load_char (faces self) c)) /\
       0 <= FT.advance_x (FT.load_char (faces self) c)) ->
    (forall p c, 0 <= FT.get_kerning (faces self) p c) ->
    exists glyphs,
      Forall2 (fun c g => glyph_of faces (self, c) = Ok g) text glyphs /\
      (width_sum faces self None (zip text glyphs)
       * (max_over Glyph.ascent glyphs + max_over Glyph.descent glyphs)
       <= np.intp_max ->
       exists b w',
         Font.render_text faces self text None w = (Ok b, w') /\
         forall px py,
           0 <= px < Bitmap.width b -> 0 <= py < Bitmap.height b ->
           (Bitmap.pixel b px py = Some true <->
            exists xg g,
              (xg, g) ∈ placements faces self 0 None (zip text glyphs) /\
              shows xg (Font.glyph_y (Bitmap.height b) g
                          (max_over Glyph.descent glyphs)) g px py)).
Proof.
  intros faces self text w Hwf Hslots Hkern.
  destruct (glyphs_of_ok faces self text w Hwf) as (glyphs & w1 & Eg).
  { intros c Hc. destruct (Hslots c Hc) as [Hwfs _].
    destruct (from_glyphslot_run _ Hwfs) as (g & E & _). now exists g. }
  destruct (glyphs_of_run faces self text w glyphs w1 Hwf Eg) as [HF Hwf1].
  exists glyphs. split; [exact HF|]. intros Hsize.
  pose proof (list.Forall2_length _ _ _ HF) as Hlen.
  destruct (text_dimensions_run faces self text glyphs w1 Hwf1 Hlen)
    as (w2 & E & Hwf2).
  set (wd := width_sum faces self None (zip text glyphs)) in *.
  set (ht := max_over Glyph.ascent glyphs + max_over Glyph.descent glyphs)
    in *.
  set (bl := max_over Glyph.descent glyphs) in *.
  assert (Forall (fun cg : char * Glyph.t =>
            sized (Glyph.bitmap cg.2) /\
            Bitmap.width (Glyph.bitmap cg.2) = Glyph.width cg.2 /\
            0 <= Glyph.advance_width cg.2 /\
            0 <= Font.glyph_y ht cg.2 bl /\
            Font.glyph_y ht cg.2 bl + Bitmap.height (Glyph.bitmap cg.2)
            <= ht) (zip text glyphs)) as Hfit.
  { apply list.Forall_forall. intros [c g] Hin.
    apply list_elem_of_lookup in Hin as [i Hi].
    apply lookup_zip_with_Some in Hi as (c' & g' & Heq & Ec & Egi).
    injection Heq as <- <-.
    pose proof (Forall2_lookup_lr _ _ _ _ _ _ HF Ec Egi) as Hcg.
    assert (c ∈ text) as Hc by (apply list_elem_of_lookup; eauto).
    assert (g ∈ glyphs) as Hgin by (apply list_elem_of_lookup; eauto).
    destruct (Hslots c Hc) as [Hwfs Hadv].
    destruct (from_glyphslot_run _ Hwfs)
      as (g0 & E0 & Hs & Hbw & Hbh & Hgw & Hgh & Hga & _).
    unfold glyph_of in Hcg. cbn [fst snd] in Hcg.
    rewrite E0 in Hcg. injection Hcg as ->.
    destruct (glyph_of_metrics faces (self, c) g E0) as (Ha & Hd & Hh).
    pose proof (max_over_ge Glyph.ascent glyphs g Hgin).
    pose proof (max_over_ge Glyph.descent glyphs g Hgin).
    cbn [snd]. split; [exact Hs|]. split; [congruence|].
    split; [rewrite Hga; apply Z.div_pos; lia|].
    unfold Font.glyph_y, ht, bl. lia. }
  assert (0 <= wd) as Hwd.
  { apply width_sum_nonneg; [exact Hkern|].
    eapply list.Forall_impl; [exact Hfit|]. intros cg H. apply H. }
  assert (0 <= ht) as Hht.
  { pose proof (max_over_nonneg Glyph.ascent glyphs).
    pose proof (max_over_nonneg Glyph.descent glyphs). unfold ht. lia. }
  set (out := Bitmap.mk wd ht (replicate (Z.to_nat (wd * ht)) false)).
  assert (sized out) as Hout.
  { unfold out. repeat split; cbn; try lia.
    rewrite length_replicate. nia. }
  destruct (render_loop_pixels faces self Hkern (zip text glyphs) ht bl
              out 0 None w2 Hwf2 Hout) as (b & w' & Eb & Hb);
    [lia|cbn; fold wd; lia|exact Hfit|].
  pose proof (render_loop_shape _ _ _ _ _ _ _ _ _ _ _ Eb) as (Hbw & Hbh & _).
  cbn in Hbw, Hbh.
  exists b, w'. split.
  - unfold Font.render_text.
    rewrite (bind_run _ _ _ _ _ Eg), (bind_run _ _ _ _ _ E).
    unfold Font.lift.
    rewrite bitmap_init_in_range by (split; [nia|exact Hsize]).
    unfold mbind at 1, Font.M_bind at 1. exact Eb.
  - intros px py Hpx Hpy. rewrite Hbh.
    rewrite (Hb px py) by (cbn; lia).
    assert (Bitmap.pixel out px py = Some false) as Hzero.
    { unfold Bitmap.pixel, out. cbn.
      pose proof (row_major_bound wd ht px py ltac:(lia) ltac:(lia)).
      destruct (Z.ltb_spec (py * wd + px) 0); [lia|].
      apply lookup_replicate_2. lia. }
    rewrite Hzero. split; [|auto].
    intros [[=]|H]; exact H.
Qed.

Lemma render_shows_glyphs_witness :
  exists glyphs,
    Forall2 (fun c g => glyph_of (fun _ => plain_face) (0%nat, c) = Ok g)
      [65%N; 86%N] glyphs /\
    (width_sum (fun _ => plain_face) 0%nat None (zip [65%N; 86%N] glyphs)
     * (max_over Glyph.ascent glyphs + max_over Glyph.descent glyphs)
     <= np.intp_max ->
     exists b w',
       Font.render_text (fun _ => plain_face) 0%nat [65%N; 86%N] None
         Font.empty = (Ok b, w') /\
       forall px py,
         0 <= px < Bitmap.width b -> 0 <= py < Bitmap.height b ->
         (Bitmap.pixel b px py = Some true <->
          exists xg g,
            (xg, g) ∈ placements (fun _ => plain_face) 0%nat 0 None
                        (zip [65%N; 86%N] glyphs) /\
            shows xg (Font.glyph_y (Bitmap.height b) g
                        (max_over Glyph.descent glyphs)) g px py)).
Proof.
  apply (render_shows_glyphs (fun _ => plain_face) 0%nat [65%N; 86%N]
           Font.empty).
  - apply wf_empty.
  - intros c _. repeat split; cbn; lia.
  - intros p c. cbn. lia.
Defined.

(** X18: under the same conditions on the slots and the kerning,
    rendering at a target height that is at least the natural height of
    the text, with a canvas whose number of pixels is in numpy's index
    range, succeeds and returns a canvas of that height, in which the
    glyphs stand on the common baseline, [max_descent] rows above the
    bottom edge: a pixel is on exactly where some glyph, drawn at
    [y = height - ascent - max_descent], has a pixel on. *)
Theorem render_at_height_shows_glyphs :
  forall (faces : Font.obj -> FT.Face) (self : Font.obj)
         (text : list char) (h : Z) (w : Font.World),
    wf faces w ->
    (forall c, c ∈ text ->
       well_formed (FT.bitmap (FT.load_char (faces self) c)) /\
       0 <= FT.advance_x (FT.load_char (faces self) c)) ->
    (forall p c, 0 <= FT.get_kerning (faces self) p c) ->
    exists glyphs,
      Forall2 (fun c g => glyph_of faces (self, c) = Ok g) text glyphs /\
      (max_over Glyph.ascent glyphs + max_over Glyph.descent glyphs <= h ->
       width_sum faces self None (zip text glyphs) * h <= np.intp_max ->
       exists b w',
         Font.render_text faces self text (Some h) w = (Ok b, w') /\
         sized b /\ Bitmap.height b = h /\
         forall px py,
           0 <= px < Bitmap.width b -> 0 <= py < h ->
           (Bitmap.pixel b px py = Some true <->
            exists xg g,
              (xg, g) ∈ placements faces self 0 None (zip text glyphs) /\
              shows xg (Font.glyph_y h g (max_over Glyph.descent glyphs))
                g px py)).
Proof.
  intros faces self text h w Hwf Hslots Hkern.
  destruct (glyphs_of_ok faces self text w Hwf) as (glyphs & w1 & Eg).
  { intros c Hc. destruct (Hslots c Hc) as [Hwfs _].
    destruct (from_glyphslot_run _ Hwfs) as (g & E & _). now exists g. }
  destruct (glyphs_of_run faces self text w glyphs w1 Hwf Eg) as [HF Hwf1].
  exists glyphs. split; [exact HF|]. intros Hnat Hsize.
  pose proof (list.Forall2_length _ _ _ HF) as Hlen.
  destruct (text_dimensions_run faces self text glyphs w1 Hwf1 Hlen)
    as (w2 & E & Hwf2).
  set (wd := width_sum faces self None (zip text glyphs)) in *.
  set (bl := max_over Glyph.descent glyphs) in *.
  assert (Forall (fun cg : char * Glyph.t =>
            sized (Glyph.bitmap cg.2) /\
            Bitmap.width (Glyph.bitmap cg.2) = Glyph.width cg.2 /\
            0 <= Glyph.advance_width cg.2 /\
            0 <= Font.glyph_y h cg.2 bl /\
            Font.glyph_y h cg.2 bl + Bitmap.height (Glyph.bitmap cg.2)
            <= h) (zip text glyphs)) as Hfit.
  { apply list.Forall_forall. intros [c g] Hin.
    apply list_elem_of_lookup in Hin as [i Hi].
    apply lookup_zip_with_Some in Hi as (c' & g' & Heq & Ec & Egi).
    injection Heq as <- <-.
    pose proof (Forall2_lookup_lr _ _ _ _ _ _ HF Ec Egi) as Hcg.
    assert (c ∈ text) as Hc by (apply list_elem_of_lookup; eauto).
    assert (g ∈ glyphs) as Hgin by (apply list_elem_of_lookup; eauto).
    destruct (Hslots c Hc) as [Hwfs Hadv].
    destruct (from_glyphslot_run _ Hwfs)
      as (g0 & E0 & Hs & Hbw & Hbh & Hgw & Hgh & Hga & _).
    unfold glyph_of in Hcg. cbn [fst snd] in Hcg.
    rewrite E0 in Hcg. injection Hcg as ->.
    destruct (glyph_of_metrics faces (self, c) g E0) as (Ha & Hd & Hh).
    pose proof (max_over_ge Glyph.ascent glyphs g Hgin).
    pose proof (max_over_ge Glyph.descent glyphs g Hgin).
    cbn [snd]. split; [exact Hs|]. split; [congruence|].
    split; [rewrite Hga; apply Z.div_pos; lia|].
    unfold Font.glyph_y, bl. lia. }
  assert (0 <= wd) as Hwd.
  { apply width_sum_nonneg; [exact Hkern|].
    eapply list.Forall_impl; [exact Hfit|]. intros cg H. apply H. }
  assert (0 <= h) as Hht.
  { pose proof (max_over_nonneg Glyph.ascent glyphs).
    pose proof (max_over_nonneg Glyph.descent glyphs). lia. }
  set (out := Bitmap.mk wd h (replicate (Z.to_nat (wd * h)) false)).
  assert (sized out) as Hout.
  { unfold out. repeat split; cbn; try lia.
    rewrite length_replicate. nia. }
  destruct (render_loop_pixels faces self Hkern (zip text glyphs) h bl
              out 0 None w2 Hwf2 Hout) as (b & w' & Eb & Hb);
    [lia|cbn; fold wd; lia|exact Hfit|].
  pose proof (render_loop_shape _ _ _ _ _ _ _ _ _ _ _ Eb)
    as (Hbw & Hbh & Hbl).
  cbn in Hbw, Hbh, Hbl. rewrite length_replicate in Hbl.
  exists b, w'. split; [|split; [|split; [exact Hbh|]]].
  - unfold Font.render_text.
    rewrite (bind_run _ _ _ _ _ Eg), (bind_run _ _ _ _ _ E).
    unfold Font.lift.
    rewrite bitmap_init_in_range by (split; [nia|exact Hsize]).
    unfold mbind at 1, Font.M_bind at 1. exact Eb.
  - repeat split; nia.
  - intros px py Hpx Hpy.
    rewrite (Hb px py) by (cbn; lia).
    assert (Bitmap.pixel out px py = Some false) as Hzero.
    { unfold Bitmap.pixel, out. cbn.
      pose proof (row_major_bound wd h px py ltac:(lia) ltac:(lia)).
      destruct (Z.ltb_spec (py * wd + px) 0); [lia|].
      apply lookup_replicate_2. lia. }
    rewrite Hzero. split; [|auto].
    intros [[=]|H]; exact H.
Qed.

Lemma render_at_height_shows_glyphs_witness :
  exists glyphs,
    Forall2 (fun c g => glyph_of (fun _ => plain_face) (0%nat, c) = Ok g)
      [65%N; 86%N] glyphs /\
    (max_over Glyph.ascent glyphs + max_over Glyph.descent glyphs <= 12 ->
     width_sum (fun _ => plain_face) 0%nat None (zip [65%N; 86%N] glyphs) * 12
     <= np.intp_max ->
     exists b w',
       Font.render_text (fun _ => plain_face) 0%nat [65%N; 86%N] (Some 12)
         Font.empty = (Ok b, w') /\
       sized b /\ Bitmap.height b = 12 /\
       forall px py,
         0 <= px < Bitmap.width b -> 0 <= py < 12 ->
         (Bitmap.pixel b px py = Some true <->
          exists xg g,
            (xg, g) ∈ placements (fun _ => plain_face) 0%nat 0 None
                        (zip [65%N; 86%N] glyphs) /\
            shows xg (Font.glyph_y 12 g (max_over Glyph.descent glyphs))
              g px py)).
Proof.
  apply (render_at_height_shows_glyphs (fun _ => plain_face) 0%nat
           [65%N; 86%N] 12 Font.empty).
  - apply wf_empty.
  - intros c _. repeat split; cbn; lia.
  - intros p c. cbn. lia.
Defined.
